(** * The action relation ledger of lava (src/actiondb.cpp, src/ticket.cpp)

    A shallow embedding of the action codec, the action extraction, the
    ticket script helpers and the relation ledger ([CRelationView]),
    followed by the properties of the specification that were checked
    against them and by further properties of the code. *)

From Stdlib Require Import ZArith List Lia Bool.
From stdpp Require Import base option list strings sorting countable gmap.

Local Open Scope Z_scope.

(** ** Bytes, little-endian integers and the data stream *)

(** [unsigned char]: a value in [[0, 256)]. *)
Definition byte := Z.

Definition is_byte (b : byte) : Prop := 0 ≤ b < 256.

(** What C++ code can throw on the paths modelled here. *)
Inductive exn : Type :=
| ios_failure      (* std::ios_base::failure, "CDataStream::read(): end of data" *)
| scriptnum_error  (* CScriptNum: overflow or non-minimal encoding *)
| out_of_bounds.   (* operator[] past the end of a std::vector (undefined) *)

Inductive outcome (A : Type) : Type :=
| Returns (a : A)
| Throws (e : exn).
Arguments Returns {A} a.
Arguments Throws {A} e.

Module Bytes.

(** Modelled from the spec: the integer and blob serializers (serialize.h,
    uint256.h) are not among the sources; the spec asks for "a fixed binary
    layout".  [WriteLE16/32/64] and the raw dump of a [base_blob]: [n] bytes
    of [v], least significant first. *)
Fixpoint le_bytes (n : nat) (v : Z) : list byte :=
  match n with
  | O => []
  | S n' => (v mod 256) :: le_bytes n' (v / 256)
  end.

(** Modelled from the spec: [ReadLE16/32/64] (crypto/common.h) are not among
    the sources; the inverse of the layout above: the unsigned value of a
    little-endian byte string. *)
Fixpoint le_value (l : list byte) : Z :=
  match l with
  | [] => 0
  | b :: r => b + 256 * le_value r
  end.

(** Reinterpretation of an unsigned 32-bit pattern as [int]. *)
Definition to_int32 (u : Z) : Z := if u <? 2 ^ 31 then u else u - 2 ^ 32.

(** Modelled from the spec: [CDataStream] (streams.h) is not among the
    sources, and the spec does not describe it.  [CDataStream::read] takes
    [n] bytes off the front of the unread part of the stream; with fewer than
    [n] bytes left it throws [std::ios_base::failure] ([None]), as the stream
    of the node software does. *)
Definition read (n : nat) (s : list byte) : option (list byte * list byte) :=
  if (n <=? length s)%nat then Some (take n s, drop n s) else None.

Lemma length_le_bytes n v : length (le_bytes n v) = n.
Proof. revert v; induction n as [|n IH]; intros v; simpl; [done|]. by rewrite IH. Qed.

Lemma le_bytes_is_byte n v : Forall is_byte (le_bytes n v).
Proof.
  revert v; induction n as [|n IH]; intros v; simpl; constructor; [|apply IH].
  unfold is_byte. pose proof (Z.mod_pos_bound v 256). lia.
Qed.

Lemma le_value_le_bytes n v : le_value (le_bytes n v) = v mod 256 ^ Z.of_nat n.
Proof.
  revert v; induction n as [|n IH]; intros v.
  - simpl. by rewrite Z.mod_1_r.
  - cbn [le_bytes le_value]. rewrite IH.
    rewrite Nat2Z.inj_succ, Z.pow_succ_r by lia.
    rewrite Z.rem_mul_r by lia. lia.
Qed.

Lemma le_value_le_bytes_small n v :
  0 ≤ v < 256 ^ Z.of_nat n → le_value (le_bytes n v) = v.
Proof. intros H. rewrite le_value_le_bytes. by apply Z.mod_small. Qed.

Lemma read_app n (l r : list byte) :
  length l = n → read n (l ++ r) = Some (l, r).
Proof.
  intros <-. unfold read. rewrite length_app.
  destruct (Nat.leb_spec (length l) (length l + length r)) as [_|?]; [|lia].
  by rewrite take_app_length, drop_app_length.
Qed.

Lemma read_short n (s : list byte) : (length s < n)%nat → read n s = None.
Proof.
  intros H. unfold read. destruct (Nat.leb_spec n (length s)); [lia|done].
Qed.

Lemma read_Some n (s a r : list byte) :
  read n s = Some (a, r) → s = a ++ r ∧ length a = n.
Proof.
  unfold read. destruct (Nat.leb_spec n (length s)) as [Hle|]; [|done].
  intros [= <- <-]. split; [by rewrite take_drop|].
  rewrite length_take. lia.
Qed.

End Bytes.

(** ** Identities and actions (actiondb.h, consumed by actiondb.cpp) *)

(** [uint160] / [CKeyID]: the 160-bit identity, as the little-endian number
    of its 20 bytes.  [CKeyID()] is the all-zero value. *)
Abbreviation CKeyID := Z.
Definition uint256 := Z.
Definition CAmount := Z.

Definition CKeyID_null : CKeyID := 0.

Definition wf_keyid (k : CKeyID) : Prop := 0 ≤ k < 2 ^ 160.

(** [CAction = boost::variant<CNilAction, CBindAction, CUnbindAction>], with
    [CBindAction = std::pair<CKeyID, CKeyID>] and [CUnbindAction = CKeyID]. *)
Inductive CAction : Type :=
| CNilAction
| CBindAction (from to : CKeyID)
| CUnbindAction (from : CKeyID).

Definition wf_action (a : CAction) : Prop :=
  match a with
  | CNilAction => True
  | CBindAction from to => wf_keyid from ∧ wf_keyid to
  | CUnbindAction from => wf_keyid from
  end.

Global Instance CAction_eq_dec : EqDecision CAction.
Proof. solve_decision. Defined.

Module Codec.
Import Bytes.

(** [action.which()]: the index of the active alternative. *)
Definition which (a : CAction) : Z :=
  match a with
  | CNilAction => 0
  | CBindAction _ _ => 1
  | CUnbindAction _ => 2
  end.

(** Modelled from the spec: [CActionVisitor] is declared in actiondb.h, which
    is not among the sources; it streams the fields of the active alternative
    ("followed by the variant's fields"): nothing for [CNilAction], the pair
    [from], [to] for a bind, [from] for an unbind, each identity as its 20 raw
    bytes. *)
Definition CActionVisitor (a : CAction) : list byte :=
  match a with
  | CNilAction => []
  | CBindAction from to => le_bytes 20 from ++ le_bytes 20 to
  | CUnbindAction from => le_bytes 20 from
  end.

(** [SerializeAction]: [ss << action.which()] (an [int], 4 bytes
    little-endian) and then the visitor. *)
Definition SerializeAction (a : CAction) : list byte :=
  le_bytes 4 (which a) ++ CActionVisitor a.
Global Arguments SerializeAction : simpl never.

(** [ss >> k] for a [CKeyID]. *)
Definition read_keyid (s : list byte) : option (CKeyID * list byte) :=
  match read 20 s with
  | Some (b, r) => Some (le_value b, r)
  | None => None
  end.

(** [UnserializeAction]: [ss >> ty] and a switch on [ty].  Every [>>] that
    runs out of bytes throws; there is no handler in the function.  Bytes left
    after the fields are ignored. *)
Definition UnserializeAction (vch : list byte) : outcome CAction :=
  match read 4 vch with
  | None => Throws ios_failure
  | Some (b, s1) =>
      let ty := to_int32 (le_value b) in
      if ty =? 1 then
        match read_keyid s1 with
        | None => Throws ios_failure
        | Some (from, s2) =>
            match read_keyid s2 with
            | None => Throws ios_failure
            | Some (to, _) => Returns (CBindAction from to)
            end
        end
      else if ty =? 2 then
        match read_keyid s1 with
        | None => Throws ios_failure
        | Some (from, _) => Returns (CUnbindAction from)
        end
      else Returns CNilAction
  end.

Lemma read_keyid_le_bytes k r :
  wf_keyid k → read_keyid (le_bytes 20 k ++ r) = Some (k, r).
Proof.
  intros Hk. unfold read_keyid.
  rewrite read_app by apply length_le_bytes.
  by rewrite le_value_le_bytes_small.
Qed.

Lemma read_discriminant a r :
  read 4 (le_bytes 4 (which a) ++ r) = Some (le_bytes 4 (which a), r)
  ∧ to_int32 (le_value (le_bytes 4 (which a))) = which a.
Proof.
  split; [apply read_app, length_le_bytes|].
  by destruct a.
Qed.

(** Decoding the encoding of a well-formed action, whatever follows it. *)
Lemma UnserializeAction_SerializeAction_app a r :
  wf_action a → UnserializeAction (SerializeAction a ++ r) = Returns a.
Proof.
  intros Hwf. unfold UnserializeAction, SerializeAction.
  rewrite <- app_assoc.
  destruct (read_discriminant a (CActionVisitor a ++ r)) as [-> ->].
  destruct a as [|from to|from]; simpl in Hwf; cbn [which CActionVisitor Z.eqb Pos.eqb].
  - done.
  - destruct Hwf as [Hf Ht]. rewrite <- app_assoc.
    rewrite read_keyid_le_bytes by done. by rewrite read_keyid_le_bytes.
  - by rewrite read_keyid_le_bytes.
Qed.

Lemma length_SerializeAction a :
  length (SerializeAction a) =
  match a with CNilAction => 4 | CBindAction _ _ => 44 | CUnbindAction _ => 24 end%nat.
Proof.
  unfold SerializeAction. rewrite length_app, length_le_bytes.
  destruct a; simpl; rewrite ?length_app, ?length_le_bytes; done.
Qed.

Lemma SerializeAction_inj a b :
  wf_action a → wf_action b → SerializeAction a = SerializeAction b → a = b.
Proof.
  intros Ha Hb Heq.
  pose proof (UnserializeAction_SerializeAction_app a [] Ha) as H1.
  pose proof (UnserializeAction_SerializeAction_app b [] Hb) as H2.
  rewrite app_nil_r in H1, H2. rewrite Heq in H1. congruence.
Qed.

(** The discriminant of an input of at least four bytes. *)
Definition discriminant (vch : list byte) : Z := to_int32 (le_value (take 4 vch)).

Lemma UnserializeAction_unknown vch :
  (4 ≤ length vch)%nat → discriminant vch ≠ 1 → discriminant vch ≠ 2 →
  UnserializeAction vch = Returns CNilAction.
Proof.
  intros Hlen H1 H2. unfold UnserializeAction, read, discriminant in *.
  destruct (Nat.leb_spec 4 (length vch)); [|lia].
  destruct (Z.eqb_spec (to_int32 (le_value (take 4 vch))) 1); [done|].
  destruct (Z.eqb_spec (to_int32 (le_value (take 4 vch))) 2); done.
Qed.

Lemma UnserializeAction_short vch :
  (length vch < 4)%nat → UnserializeAction vch = Throws ios_failure.
Proof. intros H. unfold UnserializeAction. by rewrite read_short. Qed.

End Codec.

(** ** Scripts, script numbers and public keys (consumed by ticket.cpp and
       by [DecodeAction]) *)

Module Script.
Import Bytes.

Definition CScript := list byte.

Definition OP_PUSHDATA1 : Z := 76.
Definition OP_PUSHDATA2 : Z := 77.
Definition OP_PUSHDATA4 : Z := 78.
Definition OP_RETURN : Z := 106.
Definition OP_DROP : Z := 117.
Definition OP_CHECKSIG : Z := 172.
Definition OP_CHECKLOCKTIMEVERIFY : Z := 177.

(** Modelled from the spec: [CScript] (script/script.h) is not among the
    sources; the spec names only "a non-payment marker opcode followed by a
    data payload".  [CScript::operator<<(opcodetype)]: one byte. *)
Definition push_opcode (s : CScript) (op : Z) : CScript := s ++ [op].

(** Modelled from the spec: [CScript::operator<<(const
    std::vector<unsigned char>&)] (script/script.h) is not among the sources;
    the data payload is pushed with its length in the shortest of the four
    push forms, then the bytes. *)
Definition push_data (s : CScript) (b : list byte) : CScript :=
  let n := Z.of_nat (length b) in
  s ++ (if n <? OP_PUSHDATA1 then [n]
        else if n <=? 255 then [OP_PUSHDATA1; n]
        else if n <=? 65535 then OP_PUSHDATA2 :: le_bytes 2 n
        else OP_PUSHDATA4 :: le_bytes 4 n) ++ b.

(** Modelled from the spec: [CScript::GetOp] is defined in script/script.h,
    which is not among the sources; the spec only names "a non-payment marker
    opcode followed by a data payload".  The definition is the script encoding
    of the node software this ledger is embedded in: an opcode up to
    [OP_PUSHDATA4] carries an operand whose length is the opcode itself or the
    1, 2 or 4 little-endian bytes after it.  [pc] is the part of the script not
    yet read; [None] is the [false] return, after which [vchRet] is empty. *)
Definition GetOp (pc : list byte) : option (Z * list byte * list byte) :=
  match pc with
  | [] => None
  | opcode :: pc1 =>
      if opcode <=? OP_PUSHDATA4 then
        let sized :=
          if opcode <? OP_PUSHDATA1 then Some (opcode, pc1)
          else if opcode =? OP_PUSHDATA1 then
            match read 1 pc1 with Some (b, r) => Some (le_value b, r) | None => None end
          else if opcode =? OP_PUSHDATA2 then
            match read 2 pc1 with Some (b, r) => Some (le_value b, r) | None => None end
          else
            match read 4 pc1 with Some (b, r) => Some (le_value b, r) | None => None end in
        match sized with
        | None => None
        | Some (nSize, pc2) =>
            match read (Z.to_nat nSize) pc2 with
            | None => None
            | Some (vchRet, pc3) => Some (opcode, vchRet, pc3)
            end
        end
      else Some (opcode, [], pc1)
  end.

(** Modelled from the spec: [CScriptNum] (script/script.h) is not among the
    sources and the spec does not describe it; this and the next four
    definitions follow the script numbers of the node software.  The loop of
    [CScriptNum::serialize]: the bytes of [absvalue], least significant first,
    until nothing is left; a [uint64_t] gives at most eight rounds. *)
Fixpoint magnitude_bytes (rounds : nat) (absvalue : Z) : list byte :=
  match rounds with
  | O => []
  | S r =>
      if absvalue =? 0 then []
      else Z.land absvalue 255 :: magnitude_bytes r (Z.shiftr absvalue 8)
  end.

(** [CScriptNum::serialize(value)]. *)
Definition serialize (value : Z) : list byte :=
  if value =? 0 then []
  else
    let neg := value <? 0 in
    let absvalue := (if neg then - value else value) mod 2 ^ 64 in
    let result := magnitude_bytes 8 absvalue in
    if negb (Z.land (List.last result 0) 128 =? 0)
    then result ++ [if neg then 128 else 0]
    else if neg
         then removelast result ++ [Z.lor (List.last result 0) 128]
         else result.

(** The loop of [CScriptNum::set_vch]: [result |= vch[i] << 8*i]. *)
Fixpoint set_vch_loop (i : Z) (vch : list byte) (result : Z) : Z :=
  match vch with
  | [] => result
  | b :: r => set_vch_loop (i + 1) r (Z.lor result (Z.shiftl b (8 * i)))
  end.

(** [CScriptNum::set_vch]. *)
Definition set_vch (vch : list byte) : Z :=
  match vch with
  | [] => 0
  | _ =>
      let result := set_vch_loop 0 vch 0 in
      if negb (Z.land (List.last vch 0) 128 =? 0)
      then - (Z.land result (Z.lnot (Z.shiftl 128 (8 * (Z.of_nat (length vch) - 1)))))
      else result
  end.

(** [CScriptNum(vch, fRequireMinimal)] with the default maximum size of four
    bytes: throws [scriptnum_error] on a longer or a non-minimal operand. *)
Definition CScriptNum (vch : list byte) (fRequireMinimal : bool) : outcome Z :=
  if (4 <? length vch)%nat then Throws scriptnum_error
  else if fRequireMinimal && negb (length vch =? 0)%nat
          && (Z.land (List.last vch 0) 127 =? 0)
          && ((length vch <=? 1)%nat
              || (Z.land (nth (length vch - 2) vch 0) 128 =? 0))
  then Throws scriptnum_error
  else Returns (set_vch vch).

(** [CScript::operator<<(const CScriptNum&)]: the serialized number as a data
    push. *)
Definition push_scriptnum (s : CScript) (value : Z) : CScript :=
  push_data s (serialize value).

(** Modelled from the spec: [CPubKey] (pubkey.h) is not among the sources;
    the spec only says that an identity is derived from a public key.
    [CPubKey]: the [size()] bytes of the key; the invalid key has none. *)
Definition CPubKey := list byte.

Definition CPubKey_invalid : CPubKey := [].

(** Modelled from the spec: [CPubKey::GetLen] (pubkey.h) is not among the
    sources: the length a header byte announces, 33 for the compressed
    headers 2 and 3, 65 for 4, 6 and 7. *)
Definition GetLen (chHeader : byte) : nat :=
  if (chHeader =? 2) || (chHeader =? 3) then 33%nat
  else if (chHeader =? 4) || (chHeader =? 6) || (chHeader =? 7) then 65%nat
  else 0%nat.

(** Modelled from the spec: the constructor [CPubKey(const
    std::vector<unsigned char>&)] (pubkey.h) is not among the sources: it
    keeps the bytes when their number is the one the header announces, and is
    invalid otherwise. *)
Definition CPubKey_of_vch (vch : list byte) : CPubKey :=
  let len := match vch with [] => 0%nat | h :: _ => GetLen h end in
  if negb (len =? 0)%nat && (len =? length vch)%nat then vch else CPubKey_invalid.

(** A compressed key: 33 bytes behind a header of 2 or 3. *)
Definition compressed_pubkey (k : CPubKey) : Prop :=
  length k = 33%nat ∧ Forall is_byte k ∧ ∃ h t, k = h :: t ∧ (h = 2 ∨ h = 3).

End Script.

Module Ticket.
Import Bytes Script.

(** [GenerateTicketScript]:
    [<lockHeight> OP_CHECKLOCKTIMEVERIFY OP_DROP <pubkey> OP_CHECKSIG]. *)
Definition GenerateTicketScript (keyid : CPubKey) (lockHeight : Z) : CScript :=
  push_opcode
    (push_data
       (push_opcode
          (push_opcode (push_scriptnum [] lockHeight) OP_CHECKLOCKTIMEVERIFY)
          OP_DROP)
       keyid)
    OP_CHECKSIG.

(** [GetPublicKeyFromScript]: returns the flag and the content of the
    [pubkey] out-parameter, which is only assigned on success. *)
Definition GetPublicKeyFromScript (script : CScript) (pubkey : CPubKey)
  : outcome (bool * CPubKey) :=
  match GetOp script with
  | None => Returns (false, pubkey)
  | Some (_, vch1, pc1) =>
      match CScriptNum vch1 true with
      | Throws e => Throws e
      | Returns n =>
          if negb (0 <? n) then Returns (false, pubkey) else
          match GetOp pc1 with
          | None => Returns (false, pubkey)
          | Some (op2, _, pc2) =>
              if negb (op2 =? OP_CHECKLOCKTIMEVERIFY) then Returns (false, pubkey) else
              match GetOp pc2 with
              | None => Returns (false, pubkey)
              | Some (op3, _, pc3) =>
                  if negb (op3 =? OP_DROP) then Returns (false, pubkey) else
                  match GetOp pc3 with
                  | None => Returns (false, pubkey)
                  | Some (_, vch4, _) =>
                      if (length vch4 =? 33)%nat
                      then Returns (true, CPubKey_of_vch vch4)
                      else Returns (false, pubkey)
                  end
              end
          end
      end
  end.

End Ticket.

(** ** Transactions (primitives/transaction.h) *)

(** [COutPoint]: a transaction hash and an output index ([uint32_t]). *)
Record COutPoint : Type := { hash : uint256; n : Z }.

Definition NULL_INDEX : Z := 2 ^ 32 - 1.

(** [COutPoint::IsNull]. *)
Definition COutPoint_IsNull (o : COutPoint) : bool :=
  (hash o =? 0) && (n o =? NULL_INDEX).

(** [CTxIn], of which the ledger reads [prevout] only. *)
Record CTxIn : Type := { prevout : COutPoint }.

(** [CTxOut]: the explicit amount and the script. *)
Record CTxOut : Type := { nValue : CAmount; scriptPubKey : Script.CScript }.

(** [CTransaction]: [tx_hash] is the cached [hash] that [GetHash()] returns. *)
Record CTransaction : Type :=
  { vin : list CTxIn; vout : list CTxOut; tx_hash : uint256 }.

(** [CBlock], as far as the ledger reads it: the transactions and
    [GetHash()]. *)
Record CBlock : Type := { vtx : list CTransaction; block_hash : uint256 }.

(** [CTransaction::IsNull]. *)
Definition IsNull (tx : CTransaction) : bool :=
  (length (vin tx) =? 0)%nat && (length (vout tx) =? 0)%nat.

(** [CTransaction::IsCoinBase]. *)
Definition IsCoinBase (tx : CTransaction) : bool :=
  match vin tx with
  | [i] => COutPoint_IsNull (prevout i)
  | _ => false
  end.

(** Two's-complement wrap-around of [CAmount] ([int64_t]) arithmetic. *)
Definition wrap64 (z : Z) : Z := (z + 2 ^ 63) mod 2 ^ 64 - 2 ^ 63.

(** ** The outpoint of an input on the wire (primitives/transaction.h) *)

Module Wire.

(** [COutPoint::OUTPOINT_ISSUANCE_FLAG], [(1 << 31)] as a [uint32_t]. *)
Definition OUTPOINT_ISSUANCE_FLAG : Z := Z.shiftl 1 31.

(** [COutPoint::OUTPOINT_INDEX_MASK]. *)
Definition OUTPOINT_INDEX_MASK : Z := 2147483647.

(** [~x] on a [uint32_t]. *)
Definition not32 (x : Z) : Z := Z.land (Z.lnot x) (2 ^ 32 - 1).

(** The write side of [CTxIn::SerializationOp] for a stream with the extra
    flag set, up to [READWRITE(outpoint)]: [fHasAssetIssuance] and the
    outpoint that goes on the wire, from [prevout] and from whether
    [assetIssuance] is null.  [None] is the failure of the [assert]. *)
Definition outpoint_for_write (prevout : COutPoint) (assetIssuance_IsNull : bool)
  : option (bool * COutPoint) :=
  if n prevout =? NULL_INDEX then Some (false, prevout)
  else if negb (Z.land (n prevout) (not32 OUTPOINT_INDEX_MASK) =? 0) then None
  else
    let fHasAssetIssuance := negb assetIssuance_IsNull in
    let outpoint_n := Z.land (n prevout) OUTPOINT_INDEX_MASK in
    Some (fHasAssetIssuance,
          {| hash := hash prevout;
             n := if fHasAssetIssuance
                  then Z.lor outpoint_n OUTPOINT_ISSUANCE_FLAG
                  else outpoint_n |}).

(** The read side, after [READWRITE(outpoint)]: [fHasAssetIssuance] and
    [prevout]. *)
Definition prevout_from_read (outpoint : COutPoint) : bool * COutPoint :=
  if n outpoint =? NULL_INDEX then (false, outpoint)
  else (negb (Z.land (n outpoint) OUTPOINT_ISSUANCE_FLAG =? 0),
        {| hash := hash outpoint; n := Z.land (n outpoint) OUTPOINT_INDEX_MASK |}).

End Wire.

(** A line of the debug log: the format string of the [LogPrintf] or
    [LogPrint] call, without its final newline, and its arguments as numbers
    (hashes, identities, plot ids, heights; [__func__] is left out). *)
Inductive LogLine : Type := LogPrintf (fmt : string) (args : list Z).

(** ** What the ledger consumes from the rest of the node

    Keys and signatures (key.h, pubkey.h, hash.h), the coin view
    ([pcoinsTip]) and the consensus parameters are external collaborators of
    actiondb.cpp; they are taken as parameters. *)
Class Env : Type := {
  (** [CHashWriter ss; ss << actionVch << out; ss.GetHash()] *)
  HashActionOut : list byte → COutPoint → uint256;
  (** [CKey::SignCompact]; [None] is the [false] return *)
  SignCompact : Z → uint256 → option (list byte);
  (** [CPubKey::RecoverCompact]; [None] is the [false] return *)
  RecoverCompact : uint256 → list byte → option Script.CPubKey;
  (** [CKey::GetPubKey] *)
  GetPubKey : Z → Script.CPubKey;
  (** [CPubKey::GetID] *)
  GetID : Script.CPubKey → CKeyID;
  (** [CKeyID::GetPlotID], a [uint64_t] *)
  GetPlotID : CKeyID → Z;
  (** [pcoinsTip->AccessCoin(prevout).out.nValue] *)
  AccessCoin : COutPoint → CAmount;
  (** [Params().GetConsensus().nActionFee] *)
  nActionFee : CAmount;
  (** [CTransaction::GetValueOut] (primitives/transaction.cpp): "Return sum
      of txouts" *)
  GetValueOut : CTransaction → CAmount;
  (** [operator<] of [CKeyID] (uint256.h): the order in which the maps of
      the ledger that are keyed by identities hand out their entries *)
  CKeyID_less : CKeyID → CKeyID → bool;
}.

(** ** Signing, verification and extraction of actions (actiondb.cpp) *)

Module Action.
Import Bytes Codec Script.

Section WithEnv.
Context `{Env}.

(** [MakeBindAction]. *)
Definition MakeBindAction (from to : CKeyID) : CAction := CBindAction from to.

(** [SignAction]: returns the flag and the content of [vch], which holds the
    encoded action and, on success, the compact signature after it. *)
Definition SignAction (out : COutPoint) (action : CAction) (key : Z)
  : bool * list byte :=
  let actionVch := SerializeAction action in
  match SignCompact key (HashActionOut actionVch out) with
  | None => (false, actionVch)
  | Some vchSig => (true, actionVch ++ vchSig)
  end.

(** [VerifyAction]. *)
Definition VerifyAction (out : COutPoint) (action : CAction) (vchSig : list byte)
  : bool :=
  match RecoverCompact (HashActionOut (SerializeAction action) out) vchSig with
  | None => false
  | Some pubkey =>
      match action with
      | CBindAction from _ => bool_decide (from = GetID pubkey)
      | CUnbindAction from => bool_decide (from = GetID pubkey)
      | CNilAction => false
      end
  end.

(** The accumulation [nAmount += coin.out.nValue] over the inputs. *)
Definition InputValue (tx : CTransaction) : CAmount :=
  fold_left (fun nAmount i => wrap64 (nAmount + AccessCoin (prevout i))) (vin tx) 0.

(** [nAmount - outValue], the fee the transaction pays. *)
Definition FeePaid (tx : CTransaction) : CAmount :=
  wrap64 (InputValue tx - GetValueOut tx).

(** The loop over [tx->vout] of [DecodeAction]: the first zero-value output
    that starts with [OP_RETURN] and carries at least 65 bytes decides.  The
    result of the second [GetOp] is not tested; when it fails [vchRet] is
    empty.  [UnserializeAction] runs before the length test. *)
Fixpoint DecodeAction_vout (vouts : list CTxOut) (vchSig : list byte)
  : outcome (CAction * list byte) :=
  match vouts with
  | [] => Returns (CNilAction, vchSig)
  | o :: rest =>
      if negb (nValue o =? 0) then DecodeAction_vout rest vchSig else
      match GetOp (scriptPubKey o) with
      | None => DecodeAction_vout rest vchSig
      | Some (opcodeRet, _, pc) =>
          if negb (opcodeRet =? OP_RETURN) then DecodeAction_vout rest vchSig else
          let vchRet := match GetOp pc with Some (_, v, _) => v | None => [] end in
          match UnserializeAction vchRet with
          | Throws e => Throws e
          | Returns action =>
              if (length vchRet <? 65)%nat then DecodeAction_vout rest vchSig
              else Returns (action, drop (length vchRet - 65) vchRet)
          end
      end
  end.

(** The shape test at the head of [DecodeAction]. *)
Definition action_shape (tx : CTransaction) : bool :=
  negb (IsCoinBase tx) && negb (IsNull tx) &&
  match vout tx with
  | [o0; o1] => negb (negb (nValue o0 =? 0) && negb (nValue o1 =? 0))
  | _ => false
  end.

(** [DecodeAction]: the lines it logs, and the action with the content of
    [vchSig], or the exception that escapes. *)
Definition DecodeAction (tx : CTransaction) (vchSig : list byte)
  : list LogLine * outcome (CAction * list byte) :=
  if negb (action_shape tx) then ([], Returns (CNilAction, vchSig))
  else if negb (FeePaid tx =? nActionFee)
  then ([LogPrintf "Action warning fees, fee=%u" [FeePaid tx]],
        Returns (CNilAction, vchSig))
  else ([], DecodeAction_vout (vout tx) vchSig).

End WithEnv.
End Action.

(** ** The relation ledger: [CRelationView] (actiondb.cpp) *)

(** [CRelationActive = std::pair<CKeyID, CKeyID>]: [from] and [to], an unbind
    being stored with the null [to]. *)
Definition CRelationActive : Type := CKeyID * CKeyID.

(** The unit of the undo log: [std::pair<uint256, CRelationActive>]. *)
Definition CRelation : Type := uint256 * CRelationActive.

(** [CPersonalHeightRelation = std::pair<int, CKeyID>]. *)
Definition CPersonalHeightRelation : Type := Z * CKeyID.

(** The object: its three in-memory maps, the two tables of the
    [CDBWrapper] it derives from (keys [('K', height)] and [('P', plotid)]),
    the heights whose [('K', height)] record exists in the store and cannot
    be read back ([Exists] answers [true], [Read] answers [false]), the
    outcomes of the coming writes to that store ([true] for a write that
    fails; no entry left means success), and the debug log. *)
Record CRelationView : Type := {
  relationTip : gmap Z Z;
  relationKeyIDTip : gmap Z CKeyID;
  relationsHistoryMap : gmap Z (gmap Z CKeyID);
  db_active_action : gmap Z (list CRelation);
  db_relationid : gmap Z CKeyID;
  db_unreadable : gset Z;
  db_faults : list bool;
  debug_log : list LogLine
}.

(** The in-memory part of the ledger. *)
Definition memory (v : CRelationView)
  : gmap Z Z * gmap Z CKeyID * gmap Z (gmap Z CKeyID) :=
  (relationTip v, relationKeyIDTip v, relationsHistoryMap v).

Module Ledger.
Import Bytes Codec Script Action.

Definition empty_view : CRelationView :=
  {| relationTip := ∅; relationKeyIDTip := ∅; relationsHistoryMap := ∅;
     db_active_action := ∅; db_relationid := ∅; db_unreadable := ∅;
     db_faults := []; debug_log := [] |}.

Definition set_relationTip (f : gmap Z Z → gmap Z Z) (v : CRelationView) :=
  {| relationTip := f (relationTip v); relationKeyIDTip := relationKeyIDTip v;
     relationsHistoryMap := relationsHistoryMap v;
     db_active_action := db_active_action v; db_relationid := db_relationid v;
     db_unreadable := db_unreadable v;
     db_faults := db_faults v; debug_log := debug_log v |}.

Definition set_relationKeyIDTip (f : gmap Z CKeyID → gmap Z CKeyID) (v : CRelationView) :=
  {| relationTip := relationTip v; relationKeyIDTip := f (relationKeyIDTip v);
     relationsHistoryMap := relationsHistoryMap v;
     db_active_action := db_active_action v; db_relationid := db_relationid v;
     db_unreadable := db_unreadable v;
     db_faults := db_faults v; debug_log := debug_log v |}.

Definition set_relationsHistoryMap
  (f : gmap Z (gmap Z CKeyID) → gmap Z (gmap Z CKeyID)) (v : CRelationView) :=
  {| relationTip := relationTip v; relationKeyIDTip := relationKeyIDTip v;
     relationsHistoryMap := f (relationsHistoryMap v);
     db_active_action := db_active_action v; db_relationid := db_relationid v;
     db_unreadable := db_unreadable v;
     db_faults := db_faults v; debug_log := debug_log v |}.

Definition set_db_active_action
  (f : gmap Z (list CRelation) → gmap Z (list CRelation)) (v : CRelationView) :=
  {| relationTip := relationTip v; relationKeyIDTip := relationKeyIDTip v;
     relationsHistoryMap := relationsHistoryMap v;
     db_active_action := f (db_active_action v); db_relationid := db_relationid v;
     db_unreadable := db_unreadable v;
     db_faults := db_faults v; debug_log := debug_log v |}.

Definition set_db_relationid (f : gmap Z CKeyID → gmap Z CKeyID) (v : CRelationView) :=
  {| relationTip := relationTip v; relationKeyIDTip := relationKeyIDTip v;
     relationsHistoryMap := relationsHistoryMap v;
     db_active_action := db_active_action v; db_relationid := f (db_relationid v);
     db_unreadable := db_unreadable v;
     db_faults := db_faults v; debug_log := debug_log v |}.

Definition set_db_unreadable (f : gset Z → gset Z) (v : CRelationView) :=
  {| relationTip := relationTip v; relationKeyIDTip := relationKeyIDTip v;
     relationsHistoryMap := relationsHistoryMap v;
     db_active_action := db_active_action v; db_relationid := db_relationid v;
     db_unreadable := f (db_unreadable v);
     db_faults := db_faults v; debug_log := debug_log v |}.

Definition set_db_faults (f : list bool → list bool) (v : CRelationView) :=
  {| relationTip := relationTip v; relationKeyIDTip := relationKeyIDTip v;
     relationsHistoryMap := relationsHistoryMap v;
     db_active_action := db_active_action v; db_relationid := db_relationid v;
     db_unreadable := db_unreadable v;
     db_faults := f (db_faults v); debug_log := debug_log v |}.

Definition set_debug_log (f : list LogLine → list LogLine) (v : CRelationView) :=
  {| relationTip := relationTip v; relationKeyIDTip := relationKeyIDTip v;
     relationsHistoryMap := relationsHistoryMap v;
     db_active_action := db_active_action v; db_relationid := db_relationid v;
     db_unreadable := db_unreadable v;
     db_faults := db_faults v; debug_log := f (debug_log v) |}.

(** [LogPrintf] / [LogPrint]: one more line at the end of the log. *)
Definition log (fmt : string) (args : list Z) (v : CRelationView) : CRelationView :=
  set_debug_log (fun l => l ++ [LogPrintf fmt args]) v.

(** The store answers a write: the flag is [true] when the write goes
    through. *)
Definition db_write (v : CRelationView) : bool * CRelationView :=
  match db_faults v with
  | [] => (true, v)
  | fault :: _ => (negb fault, set_db_faults (drop 1) v)
  end.

(** [CDBWrapper::WriteBatch] of a batch of [('P', plotid) ↦ keyid] records:
    all of them or none. *)
Definition WriteBatch (batch : list (Z * CKeyID)) (v : CRelationView)
  : bool * CRelationView :=
  let '(ok, v) := db_write v in
  if ok
  then (true, set_db_relationid
                (fun m => fold_left (fun m kv => <[kv.1 := kv.2]> m) batch m) v)
  else (false, v).

(** [CDBWrapper::Erase] of the key [('K', height)]: the record is gone,
    readable or not. *)
Definition Erase (height : Z) (v : CRelationView) : bool * CRelationView :=
  let '(ok, v) := db_write v in
  if ok
  then (true, set_db_unreadable (fun s => s ∖ {[height]})
                (set_db_active_action (delete height) v))
  else (false, v).

Section WithEnv.
Context `{Env}.

(** [CRelationView::To]. *)
Definition To (from : CKeyID) (plotid : Z) (poc21 : bool) (v : CRelationView)
  : CKeyID * CRelationView :=
  if poc21 then
    match relationKeyIDTip v !! from with
    | Some to => (to, v)
    | None => (CKeyID_null, v)
    end
  else
    match relationTip v !! plotid with
    | Some to_plotid =>
        match db_relationid v !! to_plotid with
        | Some value => (value, v)
        | None =>
            (CKeyID_null,
             log "CRelationView::To failure, can not get to plotid, from:%u" [plotid] v)
        end
    | None =>
        (CKeyID_null, log "CRelationView::To failure, get bind to, from:%u" [plotid] v)
    end.

(** [CRelationView::addRelationHistory]. *)
Definition addRelationHistory (height : Z) (from to : CKeyID) (v : CRelationView)
  : CRelationView :=
  let personalRelationList := default ∅ (relationsHistoryMap v !! from) in
  set_relationsHistoryMap (<[from := <[height := to]> personalRelationList]>) v.

(** [CRelationView::AcceptAction]: returns the flag of [WriteBatch] and the
    content of [relations]. *)
Definition AcceptAction (height : Z) (txid : uint256) (action : CAction)
  (relations : list CRelation) (poc21 : bool) (v : CRelationView)
  : bool * list CRelation * CRelationView :=
  let v := log "AcceptAction, tx:%s" [txid] v in
  match action with
  | CBindAction from to =>
      let relations := relations ++ [(txid, (from, to))] in
      let batch :=
        if poc21 then [] else [(GetPlotID from, from); (GetPlotID to, to)] in
      let v :=
        if poc21 then v
        else log "bind action, from:%u, to:%u" [GetPlotID from; GetPlotID to]
               (set_relationTip (<[GetPlotID from := GetPlotID to]>) v) in
      let v := set_relationKeyIDTip (<[from := to]>) v in
      let v := addRelationHistory height from to v in
      let v := log "POC2+ bind action, from address : %u, to address : %u" [from; to] v in
      let '(ok, v) := WriteBatch batch v in
      (ok, relations, v)
  | CUnbindAction from =>
      let relations := relations ++ [(txid, (from, CKeyID_null))] in
      let v :=
        if poc21 then v
        else set_relationTip (delete (GetPlotID from))
               (log "unbind action, from plotid:%u" [GetPlotID from] v) in
      let v := log "POC2+ unbind action, from address : %u" [from] v in
      let v := set_relationKeyIDTip (delete from) v in
      let v := addRelationHistory height from CKeyID_null v in
      let '(ok, v) := WriteBatch [] v in
      (ok, relations, v)
  | CNilAction =>
      let '(ok, v) := WriteBatch [] v in
      (ok, relations, v)
  end.

(** [CRelationView::WriteRelationsToDisk]: the record written replaces the
    one the key had. *)
Definition WriteRelationsToDisk (height : Z) (relations : list CRelation)
  (v : CRelationView) : bool * CRelationView :=
  let '(ok, v) := db_write v in
  if ok
  then (true, set_db_unreadable (fun s => s ∖ {[height]})
                (set_db_active_action (<[height := relations]>) v))
  else (false, v).

(** The loop over [blk.vtx] of [ConnectBlock].  An exception of
    [DecodeAction] is not caught; [tx->vin[0]] of a transaction without
    inputs is outside the vector. *)
Fixpoint ConnectBlock_vtx (height : Z) (txs : list CTransaction)
  (relations : list CRelation) (poc21 : bool) (v : CRelationView)
  : outcome (list CRelation) * CRelationView :=
  match txs with
  | [] => (Returns relations, v)
  | tx :: rest =>
      let '(lines, decoded) := DecodeAction tx [] in
      let v := set_debug_log (fun l => l ++ lines) v in
      match decoded with
      | Throws e => (Throws e, v)
      | Returns (action, vchSig) =>
          if bool_decide (action = CNilAction)
          then ConnectBlock_vtx height rest relations poc21 v
          else
            let v := log "DecodeAction not nil action: %s" [tx_hash tx] v in
            match vin tx with
            | [] => (Throws out_of_bounds, v)
            | i :: _ =>
                if VerifyAction (prevout i) action vchSig then
                  let '(ok, relations, v) :=
                    AcceptAction height (tx_hash tx) action relations poc21 v in
                  let v := if ok then v
                           else log "AcceptAction failure: %s" [tx_hash tx] v in
                  ConnectBlock_vtx height rest relations poc21 v
                else
                  ConnectBlock_vtx height rest relations poc21
                    (log "VerifyAction failure: %s" [tx_hash tx] v)
            end
      end
  end.

(** [CRelationView::ConnectBlock], a [void] function. *)
Definition ConnectBlock (height : Z) (blk : CBlock) (poc21 : bool)
  (v : CRelationView) : outcome unit * CRelationView :=
  match ConnectBlock_vtx height (vtx blk) [] poc21 v with
  | (Throws e, v) => (Throws e, v)
  | (Returns relations, v) =>
      if (0 <? length relations)%nat then
        let '(ok, v) := WriteRelationsToDisk height relations v in
        (Returns tt,
         if ok then v
         else log "%s: WriteRelationToDisk retrun false, height:%d" [height] v)
      else (Returns tt, v)
  end.

(** [sort_first_decline]: the comparison of the descending sort. *)
Definition sort_first_decline (m1 m2 : CPersonalHeightRelation) : Prop :=
  m1.1 > m2.1.

Global Instance sort_first_decline_dec : RelDecision sort_first_decline.
Proof. intros m1 m2. unfold sort_first_decline. apply _. Defined.

(** [CRelationView::removeRelationHistory]. *)
Definition removeRelationHistory (height : Z) (from : CKeyID) (poc21 : bool)
  (v : CRelationView) : bool * CRelationView :=
  let personalRelationList :=
    filter (fun e : Z * CKeyID => ¬ (height ≤ e.1))
           (default ∅ (relationsHistoryMap v !! from)) in
  if (size personalRelationList =? 0)%nat then
    let v := set_relationsHistoryMap (delete from) v in
    let v := if poc21 then v else set_relationTip (delete (GetPlotID from)) v in
    (true, set_relationKeyIDTip (delete from) v)
  else
    let v := set_relationsHistoryMap (<[from := personalRelationList]>) v in
    let vec :=
      merge_sort sort_first_decline (map_to_list personalRelationList) in
    match List.find (fun e : CPersonalHeightRelation => e.1 <? height) vec with
    | None =>
        let v := if poc21 then v else set_relationTip (delete (GetPlotID from)) v in
        (true, set_relationKeyIDTip (delete from) v)
    | Some prevRelation =>
        let v :=
          if poc21 then v
          else set_relationTip (<[GetPlotID from := GetPlotID prevRelation.2]>) v in
        (true, set_relationKeyIDTip (<[from := prevRelation.2]>) v)
    end.

(** A map keyed by identities hands out its entries in ascending order of
    the keys: no entry comes before one with a lesser key. *)
Definition key_before {V : Type} (e1 e2 : CKeyID * V) : Prop :=
  CKeyID_less e2.1 e1.1 = false.

Global Instance key_before_dec {V : Type} : RelDecision (@key_before V).
Proof. intros e1 e2. unfold key_before. apply _. Defined.

Definition in_key_order {V : Type} (m : gmap Z V) : list (CKeyID * V) :=
  merge_sort key_before (map_to_list m).

(** The loop of [DisconnectBlock] over the entries of the history map, from
    the entry the iterator stands on.  [removeRelationHistory] changes the
    entry of [from] only, so the entries still to come are the ones the map
    had on entry.  When it erases the entry of [from] (no entry of the
    identity is left below [height]) it erases the node the iterator stands
    on, and stepping the iterator is undefined: [None]. *)
Fixpoint DisconnectBlock_loop (height : Z) (poc21 : bool)
  (entries : list (CKeyID * gmap Z CKeyID)) (v : CRelationView)
  : option CRelationView :=
  match entries with
  | [] => Some v
  | historyEntry :: rest =>
      match historyEntry.2 !! height with
      | None => DisconnectBlock_loop height poc21 rest v
      | Some _ =>
          let from := historyEntry.1 in
          let v := (removeRelationHistory height from poc21 v).2 in
          match relationsHistoryMap v !! from with
          | None => None
          | Some _ => DisconnectBlock_loop height poc21 rest v
          end
      end
  end.

(** [CRelationView::DisconnectBlock]: [blk] is read for the log line only;
    the result of [Erase] is not looked at.  [None]: the behaviour is
    undefined. *)
Definition DisconnectBlock (height : Z) (blk : CBlock) (poc21 : bool)
  (v : CRelationView) : option CRelationView :=
  let v := log "%s: height:%d, block:%s" [height; block_hash blk] v in
  let v := (Erase height v).2 in
  DisconnectBlock_loop height poc21 (in_key_order (relationsHistoryMap v)) v.

(** One round of the loop of [LoadRelationFromDisk]. *)
Definition LoadRelation (height : Z) (poc21 : bool) (v : CRelationView)
  (relation : CRelation) : CRelationView :=
  let from := relation.2.1 in
  let to := relation.2.2 in
  if negb (bool_decide (to = CKeyID_null)) then
    let v :=
      if poc21 then v
      else log "bind action, from:%u, to:%u" [GetPlotID from; GetPlotID to]
             (set_relationTip (<[GetPlotID from := GetPlotID to]>) v) in
    let v := set_relationKeyIDTip (<[from := to]>) v in
    let v := addRelationHistory height from to v in
    log "POC2+ bind action, from : %u, to : %u" [from; to] v
  else
    let v :=
      if poc21 then v
      else set_relationTip (delete (GetPlotID from))
             (log "unbind action, from:%u" [GetPlotID from] v) in
    let v := log "POC2+ unbind action, from : %u" [from] v in
    let v := set_relationKeyIDTip (delete from) v in
    addRelationHistory height from CKeyID_null v.

(** [CRelationView::LoadRelationFromDisk]: a record that exists and is read
    is replayed; one that exists and cannot be read is logged and the result
    is [false]; without a record the result is [true]. *)
Definition LoadRelationFromDisk (height : Z) (poc21 : bool) (v : CRelationView)
  : bool * CRelationView :=
  match db_active_action v !! height with
  | Some relations => (true, fold_left (LoadRelation height poc21) relations v)
  | None =>
      if decide (height ∈ db_unreadable v)
      then (false, log "%s: Read retrun false, height:%d" [height] v)
      else (true, v)
  end.

(** [CRelationView::ListRelations]: the entries of the identity tip map in
    the order of the map. *)
Definition ListRelations (v : CRelationView) : list (CKeyID * CKeyID) :=
  in_key_order (relationKeyIDTip v).

End WithEnv.
End Ledger.

(** ** Facts about script numbers, pushes and public keys *)

Module ScriptFacts.
Import Bytes Script.

(** A boolean property of bytes can be checked on the 256 values. *)
Lemma byte_cases (P : Z → bool) :
  forallb P (map Z.of_nat (seq 0 256)) = true → ∀ d, is_byte d → P d = true.
Proof.
  intros Hall d [Hlo Hhi].
  rewrite forallb_forall in Hall. apply Hall.
  apply in_map_iff. exists (Z.to_nat d). split; [lia|].
  apply in_seq. lia.
Qed.

Lemma land_128 d : is_byte d → (Z.land d 128 =? 0) = (d <? 128).
Proof.
  intros Hd.
  apply (byte_cases (fun d => Bool.eqb (Z.land d 128 =? 0) (d <? 128))) in Hd;
    [by apply Bool.eqb_prop|by vm_compute].
Qed.

Lemma land_127 d : is_byte d → (Z.land d 127 =? 0) = (d =? 0) || (d =? 128).
Proof.
  intros Hd.
  apply (byte_cases (fun d => Bool.eqb (Z.land d 127 =? 0) ((d =? 0) || (d =? 128)))) in Hd;
    [by apply Bool.eqb_prop|by vm_compute].
Qed.

Lemma le_value_nonneg l : Forall is_byte l → 0 ≤ le_value l.
Proof. induction 1 as [|b l [??] _ IH]; simpl; lia. Qed.

Lemma le_value_snoc l d :
  le_value (l ++ [d]) = le_value l + 256 ^ Z.of_nat (length l) * d.
Proof.
  induction l as [|b l IH]; simpl length; simpl app; cbn [le_value].
  - simpl. lia.
  - rewrite IH, Nat2Z.inj_succ, Z.pow_succ_r by lia. lia.
Qed.

Lemma magnitude_bytes_spec r v :
  0 ≤ v < 256 ^ Z.of_nat r →
  Forall is_byte (magnitude_bytes r v)
  ∧ le_value (magnitude_bytes r v) = v
  ∧ (v ≠ 0 → List.last (magnitude_bytes r v) 0 ≠ 0).
Proof.
  revert v; induction r as [|r IH]; intros v Hv.
  - simpl in *. repeat split; [constructor|lia|lia].
  - cbn [magnitude_bytes]. destruct (Z.eqb_spec v 0) as [->|Hnz].
    { repeat split; [constructor|done]. }
    change 255 with (Z.ones 8). rewrite Z.land_ones, Z.shiftr_div_pow2 by lia.
    change (2 ^ 8) with 256.
    rewrite Nat2Z.inj_succ, Z.pow_succ_r in Hv by lia.
    assert (0 ≤ v / 256 < 256 ^ Z.of_nat r) as Hq.
    { split; [apply Z.div_pos; lia|apply Z.div_lt_upper_bound; lia]. }
    destruct (IH (v / 256) Hq) as (Hb & Hval & Hlast).
    pose proof (Z.mod_pos_bound v 256). pose proof (Z.div_mod v 256).
    repeat split.
    + constructor; [unfold is_byte; lia|done].
    + cbn [le_value]. rewrite Hval. lia.
    + intros _. destruct (Z.eqb_spec (v / 256) 0) as [Hz|Hz].
      * destruct r; cbn [magnitude_bytes]; rewrite ?Hz; simpl; lia.
      * specialize (Hlast Hz).
        destruct (magnitude_bytes r (v / 256)) eqn:E; [done|].
        exact Hlast.
Qed.


Lemma lor_shiftl_add result b i :
  0 ≤ i → 0 ≤ result < 2 ^ (8 * i) →
  Z.lor result (Z.shiftl b (8 * i)) = result + 2 ^ (8 * i) * b.
Proof.
  intros Hi Hr. rewrite Z.shiftl_mul_pow2 by lia.
  rewrite <- Z.add_nocarry_lor; [lia|].
  apply Z.bits_inj'. intros n Hn. rewrite Z.land_spec, Z.bits_0.
  destruct (Z.lt_ge_cases n (8 * i)) as [Hlt|Hge].
  - rewrite (Z.mul_pow2_bits_low b) by done. apply andb_false_r.
  - rewrite <- (Z.mod_small result (2 ^ (8 * i))) by lia.
    rewrite Z.mod_pow2_bits_high by lia. done.
Qed.

Lemma set_vch_loop_le_value vch i result :
  Forall is_byte vch → 0 ≤ i → 0 ≤ result < 2 ^ (8 * i) →
  set_vch_loop i vch result = result + 2 ^ (8 * i) * le_value vch.
Proof.
  intros Hb. revert i result.
  induction Hb as [|b vch [Hb0 Hb1] _ IH]; intros i result Hi Hr; cbn [set_vch_loop le_value].
  - lia.
  - assert (2 ^ (8 * (i + 1)) = 256 * 2 ^ (8 * i)) as Hpow.
    { replace (8 * (i + 1)) with (8 * i + 8) by lia. rewrite Z.pow_add_r by lia. lia. }
    rewrite lor_shiftl_add by done.
    rewrite IH; [rewrite Hpow; lia|lia|].
    rewrite Hpow. nia.
Qed.

Lemma set_vch_le_value vch :
  Forall is_byte vch → List.last vch 0 < 128 → set_vch vch = le_value vch.
Proof.
  intros Hb Hlast. destruct vch as [|b vch]; [done|].
  unfold set_vch.
  assert (is_byte (List.last (b :: vch) 0)) as Hl.
  { rewrite Forall_forall in Hb. apply Hb, list_elem_of_In.
    destruct (exists_last (l:=b :: vch)) as (l' & a & ->); [done|].
    rewrite last_last. apply in_or_app. right. by left. }
  rewrite land_128 by done.
  destruct (Z.ltb_spec (List.last (b :: vch) 0) 128); [|lia].
  cbn [negb]. rewrite set_vch_loop_le_value by (done || simpl; lia). simpl (2 ^ _). lia.
Qed.

(** The serialization of a positive [int] reads back as the same number. *)
Lemma CScriptNum_serialize h :
  0 < h < 2 ^ 31 →
  CScriptNum (serialize h) true = Returns h ∧ (length (serialize h) ≤ 4)%nat.
Proof.
  intros Hh. unfold serialize.
  destruct (Z.eqb_spec h 0); [lia|].
  destruct (Z.ltb_spec h 0); [lia|].
  rewrite Z.mod_small by lia.
  destruct (magnitude_bytes_spec 8 h) as (Hb & Hval & Hlast); [simpl; lia|].
  specialize (Hlast ltac:(lia)).
  destruct (exists_last (l:=magnitude_bytes 8 h)) as (m & d & E).
  { intros E. rewrite E in Hval. simpl in Hval. lia. }
  rewrite E in *. clear E. rewrite last_last in *.
  apply Forall_app in Hb as [Hm Hd]. apply Forall_cons in Hd as [Hd _].
  rewrite le_value_snoc in Hval.
  pose proof (le_value_nonneg m Hm) as Hm0.
  assert (length m ≤ 3)%nat as Hlen.
  { destruct (Nat.le_gt_cases (length m) 3) as [|Hgt]; [done|exfalso].
    assert (256 ^ 4 ≤ 256 ^ Z.of_nat (length m)) by (apply Z.pow_le_mono_r; lia).
    destruct Hd. nia. }
  assert (length m = 3%nat → d < 128) as Htop.
  { intros E3. rewrite E3 in Hval. change (256 ^ Z.of_nat 3) with 16777216 in Hval. lia. }
  rewrite land_128 by done.
  unfold CScriptNum.
  destruct (Z.ltb_spec d 128) as [Hsmall|Hbig]; cbn [negb].
  - rewrite length_app. simpl length.
    destruct (Nat.ltb_spec 4 (length m + 1)); [lia|].
    destruct (Nat.eqb_spec (length m + 1) 0); [lia|].
    rewrite last_last, land_127 by done.
    destruct (Z.eqb_spec d 0); [lia|]. destruct (Z.eqb_spec d 128); [lia|].
    cbn [andb orb negb]. split; [|lia].
    rewrite set_vch_le_value, le_value_snoc.
    + by rewrite Hval.
    + apply Forall_app; split; [done|]. by constructor.
    + by rewrite last_last.
  - assert (length m ≤ 2)%nat by lia.
    rewrite <- app_assoc. simpl app.
    rewrite length_app. simpl length.
    destruct (Nat.ltb_spec 4 (length m + 2)); [lia|].
    destruct (Nat.eqb_spec (length m + 2) 0); [lia|].
    change (m ++ [d; 0]) with (m ++ [d] ++ [0]). rewrite app_assoc, last_last.
    rewrite <- app_assoc. simpl app.
    replace (length m + 2 - 2)%nat with (length m) by lia.
    rewrite nth_middle, land_128 by done.
    destruct (Z.ltb_spec d 128); [lia|].
    destruct (Nat.leb_spec (length m + 2) 1); [lia|].
    cbn [andb orb negb Z.land Z.eqb]. split; [|lia].
    rewrite set_vch_le_value.
    + change (m ++ [d; 0]) with (m ++ [d] ++ [0]).
      rewrite app_assoc, le_value_snoc, le_value_snoc. f_equal. lia.
    + apply Forall_app; split; [done|]. repeat (constructor; [unfold is_byte in *; lia|]). constructor.
    + change (m ++ [d; 0]) with (m ++ [d] ++ [0]). rewrite app_assoc, last_last. lia.
Qed.

Lemma push_data_app s b : push_data s b = s ++ push_data [] b.
Proof. done. Qed.

Lemma GetOp_push_data_small b rest :
  (length b < 76)%nat →
  GetOp (push_data [] b ++ rest) = Some (Z.of_nat (length b), b, rest).
Proof.
  intros Hlen. unfold push_data, OP_PUSHDATA1. simpl app.
  destruct (Z.ltb_spec (Z.of_nat (length b)) 76) as [_|]; [|lia].
  simpl app. unfold GetOp, OP_PUSHDATA4, OP_PUSHDATA1.
  destruct (Z.leb_spec (Z.of_nat (length b)) 78); [|lia].
  destruct (Z.ltb_spec (Z.of_nat (length b)) 76); [|lia].
  rewrite Nat2Z.id, read_app by done. done.
Qed.

Lemma GetOp_opcode op rest :
  78 < op → GetOp (op :: rest) = Some (op, [], rest).
Proof.
  intros Hop. unfold GetOp, OP_PUSHDATA4.
  destruct (Z.leb_spec op 78); [lia|done].
Qed.

Lemma CPubKey_of_vch_compressed k : compressed_pubkey k → CPubKey_of_vch k = k.
Proof.
  intros (Hlen & _ & h & t & -> & Hh). unfold CPubKey_of_vch.
  assert (GetLen h = 33%nat) as -> by (destruct Hh as [-> | ->]; done).
  by rewrite Hlen.
Qed.

End ScriptFacts.

(** ** Facts about the ledger operations *)

Module LedgerFacts.
Import Bytes Codec Script Action Ledger.
Section WithEnv.
Context `{Env}.

(** The effect of accepting an action on the three in-memory maps. *)
Definition accept_memory (height : Z) (action : CAction) (poc21 : bool)
  (m : gmap Z Z * gmap Z CKeyID * gmap Z (gmap Z CKeyID))
  : gmap Z Z * gmap Z CKeyID * gmap Z (gmap Z CKeyID) :=
  match action with
  | CBindAction from to =>
      (if poc21 then m.1.1 else <[GetPlotID from := GetPlotID to]> m.1.1,
       <[from := to]> m.1.2,
       <[from := <[height := to]> (default ∅ (m.2 !! from))]> m.2)
  | CUnbindAction from =>
      (if poc21 then m.1.1 else delete (GetPlotID from) m.1.1,
       delete from m.1.2,
       <[from := <[height := CKeyID_null]> (default ∅ (m.2 !! from))]> m.2)
  | CNilAction => m
  end.

(** The entry an accepted action leaves in [relations]. *)
Definition relation_of (txid : uint256) (action : CAction) : list CRelation :=
  match action with
  | CBindAction from to => [(txid, (from, to))]
  | CUnbindAction from => [(txid, (from, CKeyID_null))]
  | CNilAction => []
  end.

Lemma memory_log fmt args v : memory (log fmt args v) = memory v.
Proof. done. Qed.

Lemma memory_db_write v : memory (db_write v).2 = memory v.
Proof. unfold db_write. by destruct (db_faults v). Qed.

Lemma memory_WriteBatch batch v : memory (WriteBatch batch v).2 = memory v.
Proof.
  unfold WriteBatch. pose proof (memory_db_write v) as Hm.
  destruct (db_write v) as [[] v']; simpl in *; done.
Qed.

Lemma AcceptAction_memory height txid action relations poc21 v :
  memory (AcceptAction height txid action relations poc21 v).2
  = accept_memory height action poc21 (memory v).
Proof.
  unfold AcceptAction.
  destruct action as [|from to|from].
  - match goal with |- context [WriteBatch ?b ?w] =>
      pose proof (memory_WriteBatch b w) as Hm; destruct (WriteBatch b w) end.
    simpl in *. rewrite Hm. by destruct v.
  - match goal with |- context [WriteBatch ?b ?w] =>
      pose proof (memory_WriteBatch b w) as Hm; destruct (WriteBatch b w) end.
    simpl in *. rewrite Hm. by destruct poc21, v.
  - match goal with |- context [WriteBatch ?b ?w] =>
      pose proof (memory_WriteBatch b w) as Hm; destruct (WriteBatch b w) end.
    simpl in *. rewrite Hm. by destruct poc21, v.
Qed.

Lemma AcceptAction_relations height txid action relations poc21 v :
  (AcceptAction height txid action relations poc21 v).1.2
  = relations ++ relation_of txid action.
Proof.
  unfold AcceptAction.
  destruct action as [|from to|from];
    match goal with |- context [WriteBatch ?b ?w] => destruct (WriteBatch b w) end;
    simpl; by rewrite ?app_nil_r.
Qed.

(** [AcceptAction] returns what the store answers to its batch write. *)
Lemma AcceptAction_result height txid action relations poc21 v :
  (AcceptAction height txid action relations poc21 v).1.1
  = match db_faults v with [] => true | fault :: _ => negb fault end.
Proof.
  unfold AcceptAction, WriteBatch, db_write.
  destruct action as [|from to|from], poc21, v as [? ? ? ? ? ? [|[] ?] ?]; done.
Qed.


(** The action a stored change stands for: the null [to] is an unbind. *)
Definition change_action (relation : CRelation) : CAction :=
  if bool_decide (relation.2.2 = CKeyID_null)
  then CUnbindAction relation.2.1
  else CBindAction relation.2.1 relation.2.2.

Lemma LoadRelation_memory height poc21 v relation :
  memory (LoadRelation height poc21 v relation)
  = accept_memory height (change_action relation) poc21 (memory v).
Proof.
  unfold LoadRelation, change_action.
  destruct relation as [txid [from to]]. simpl.
  destruct (bool_decide (to = CKeyID_null)); simpl; by destruct poc21, v.
Qed.

(** A bind whose target is the null identity is stored like an unbind, and
    its stored change replays as the unbind: the tip entry that accepting the
    bind writes is erased by the replay. *)
Lemma bind_to_null_replays_as_unbind height txid from poc21 v :
  relation_of txid (CBindAction from CKeyID_null)
  = relation_of txid (CUnbindAction from)
  ∧ relationKeyIDTip
      (AcceptAction height txid (CBindAction from CKeyID_null) [] poc21 v).2 !! from
    = Some CKeyID_null
  ∧ relationKeyIDTip (LoadRelation height poc21 v (txid, (from, CKeyID_null))) !! from
    = None.
Proof.
  split; [done|]. split.
  - change (relationKeyIDTip ?w) with (memory w).1.2.
    rewrite AcceptAction_memory. apply lookup_insert_eq.
  - change (relationKeyIDTip ?w) with (memory w).1.2.
    rewrite LoadRelation_memory. apply lookup_delete_eq.
Qed.
(** The in-memory outcome of the transaction loop does not depend on the
    store, nor on the log. *)
Lemma ConnectBlock_vtx_memory height txs relations poc21 v v' :
  memory v = memory v' →
  (ConnectBlock_vtx height txs relations poc21 v).1
  = (ConnectBlock_vtx height txs relations poc21 v').1
  ∧ memory (ConnectBlock_vtx height txs relations poc21 v).2
    = memory (ConnectBlock_vtx height txs relations poc21 v').2.
Proof.
  revert relations v v'.
  induction txs as [|tx rest IH]; intros relations v v' Hm; cbn [ConnectBlock_vtx].
  { done. }
  destruct (DecodeAction tx []) as [lines [[action vchSig]|e]]; [|done].
  destruct (bool_decide (action = CNilAction)); [by apply IH|].
  destruct (vin tx) as [|i ?]; [done|].
  destruct (VerifyAction (prevout i) action vchSig); [|by apply IH].
  match goal with |- context [AcceptAction ?h ?t ?a ?r ?p ?w] =>
    pose proof (AcceptAction_memory h t a r p w) as Hm1;
    pose proof (AcceptAction_relations h t a r p w) as Hr1;
    destruct (AcceptAction h t a r p w) as [[ok1 rel1] v1] end.
  match goal with |- context [AcceptAction ?h ?t ?a ?r ?p ?w] =>
    pose proof (AcceptAction_memory h t a r p w) as Hm2;
    pose proof (AcceptAction_relations h t a r p w) as Hr2;
    destruct (AcceptAction h t a r p w) as [[ok2 rel2] v2] end.
  cbn [fst snd] in Hm1, Hm2, Hr1, Hr2. subst rel1 rel2.
  apply IH. destruct ok1, ok2; rewrite ?memory_log, Hm1, Hm2; f_equal; exact Hm.
Qed.

Lemma memory_WriteRelationsToDisk height relations v :
  memory (WriteRelationsToDisk height relations v).2 = memory v.
Proof.
  unfold WriteRelationsToDisk. pose proof (memory_db_write v) as Hm.
  destruct (db_write v) as [[] v']; simpl in *; done.
Qed.

Lemma ConnectBlock_memory height blk poc21 v v' :
  memory v = memory v' →
  (ConnectBlock height blk poc21 v).1 = (ConnectBlock height blk poc21 v').1
  ∧ memory (ConnectBlock height blk poc21 v).2
    = memory (ConnectBlock height blk poc21 v').2.
Proof.
  intros Hm. unfold ConnectBlock.
  destruct (ConnectBlock_vtx_memory height (vtx blk) [] poc21 v v' Hm) as [Hr Hv].
  destruct (ConnectBlock_vtx height (vtx blk) [] poc21 v) as [[rel|e] v1];
    destruct (ConnectBlock_vtx height (vtx blk) [] poc21 v') as [[rel'|e'] v1'];
    cbn [fst snd] in Hr, Hv; try discriminate.
  2:{ injection Hr as <-. by split. }
  injection Hr as <-.
  destruct (0 <? length rel)%nat; [|by split].
  pose proof (memory_WriteRelationsToDisk height rel v1) as H1.
  pose proof (memory_WriteRelationsToDisk height rel v1') as H2.
  destruct (WriteRelationsToDisk height rel v1) as [[] w];
    destruct (WriteRelationsToDisk height rel v1') as [[] w'];
    cbn [fst snd] in *; rewrite ?memory_log; split; congruence.
Qed.

(** What [DisconnectBlock] does after its log line. *)
Definition disconnect_steps (height : Z) (poc21 : bool) (v : CRelationView)
  : option CRelationView :=
  let v := (Erase height v).2 in
  DisconnectBlock_loop height poc21 (in_key_order (relationsHistoryMap v)) v.

Lemma removeRelationHistory_log height from poc21 f v :
  (removeRelationHistory height from poc21 (set_debug_log f v)).2
  = set_debug_log f (removeRelationHistory height from poc21 v).2.
Proof.
  unfold removeRelationHistory. cbn [relationsHistoryMap set_debug_log].
  destruct (size _ =? 0)%nat; [by destruct poc21|].
  destruct (List.find _ _); by destruct poc21.
Qed.

Lemma Erase_log height f v :
  (Erase height (set_debug_log f v)).2 = set_debug_log f (Erase height v).2.
Proof.
  unfold Erase, db_write. cbn [db_faults set_debug_log].
  by destruct (db_faults v) as [|[] ?].
Qed.

Lemma DisconnectBlock_loop_log height poc21 f
    (entries : list (CKeyID * gmap Z CKeyID)) w :
  DisconnectBlock_loop height poc21 entries (set_debug_log f w)
  = set_debug_log f <$> DisconnectBlock_loop height poc21 entries w.
Proof.
  revert w. induction entries as [|e es IH]; intros w; cbn [DisconnectBlock_loop]; [done|].
  destruct (e.2 !! height); [|apply IH].
  rewrite removeRelationHistory_log.
  change (relationsHistoryMap (set_debug_log f ?x)) with (relationsHistoryMap x).
  destruct (relationsHistoryMap _ !! e.1); [apply IH|done].
Qed.

Lemma DisconnectBlock_steps height blk poc21 v :
  DisconnectBlock height blk poc21 v
  = set_debug_log
      (fun l => l ++ [LogPrintf "%s: height:%d, block:%s" [height; block_hash blk]])
    <$> disconnect_steps height poc21 v.
Proof.
  unfold DisconnectBlock, disconnect_steps, log.
  rewrite Erase_log. apply DisconnectBlock_loop_log.
Qed.

(** The fee gate of [DecodeAction]. *)
Lemma DecodeAction_fee_mismatch tx vchSig :
  FeePaid tx ≠ nActionFee → (DecodeAction tx vchSig).2 = Returns (CNilAction, vchSig).
Proof.
  intros Hfee. unfold DecodeAction.
  destruct (action_shape tx); [|done]. simpl.
  destruct (Z.eqb_spec (FeePaid tx) nActionFee); done.
Qed.

(** The actions [ConnectBlock] accepts from a list of transactions, with the
    transaction hashes: those that [DecodeAction] extracts and [VerifyAction]
    passes; or the exception that ends the loop. *)
Fixpoint accepted_actions (txs : list CTransaction)
  : outcome (list (uint256 * CAction)) :=
  match txs with
  | [] => Returns []
  | tx :: rest =>
      match (DecodeAction tx []).2 with
      | Throws e => Throws e
      | Returns (action, vchSig) =>
          if bool_decide (action = CNilAction) then accepted_actions rest
          else
            match vin tx with
            | [] => Throws out_of_bounds
            | i :: _ =>
                if VerifyAction (prevout i) action vchSig then
                  match accepted_actions rest with
                  | Throws e => Throws e
                  | Returns acts => Returns ((tx_hash tx, action) :: acts)
                  end
                else accepted_actions rest
            end
      end
  end.

Definition accept_all (height : Z) (poc21 : bool)
  (acts : list (uint256 * CAction))
  (m : gmap Z Z * gmap Z CKeyID * gmap Z (gmap Z CKeyID)) :=
  fold_left (fun m a => accept_memory height a.2 poc21 m) acts m.

Definition relations_of (acts : list (uint256 * CAction)) : list CRelation :=
  concat (map (fun a => relation_of a.1 a.2) acts).

Lemma ConnectBlock_vtx_accepted height txs relations poc21 v acts :
  accepted_actions txs = Returns acts →
  (ConnectBlock_vtx height txs relations poc21 v).1
  = Returns (relations ++ relations_of acts)
  ∧ memory (ConnectBlock_vtx height txs relations poc21 v).2
    = accept_all height poc21 acts (memory v).
Proof.
  revert relations v acts.
  induction txs as [|tx rest IH]; intros relations v acts; cbn [ConnectBlock_vtx accepted_actions].
  { intros [= <-]. by rewrite app_nil_r. }
  destruct (DecodeAction tx []) as [lines [[action vchSig]|e]]; cbn [snd]; [|done].
  destruct (bool_decide (action = CNilAction)).
  { intros Hacc.
    match goal with |- context [ConnectBlock_vtx _ _ ?r _ ?w] =>
      destruct (IH r w _ Hacc) as [Hr Hm]; split; [exact Hr|exact Hm] end. }
  destruct (vin tx) as [|i ?]; [done|].
  destruct (VerifyAction (prevout i) action vchSig).
  2:{ intros Hacc.
      match goal with |- context [ConnectBlock_vtx _ _ ?r _ ?w] =>
        destruct (IH r w _ Hacc) as [Hr Hm]; split; [exact Hr|exact Hm] end. }
  destruct (accepted_actions rest) as [acts'|] eqn:Hrest; [|done].
  intros [= <-].
  match goal with |- context [AcceptAction ?h ?t ?a ?r ?p ?w] =>
    pose proof (AcceptAction_memory h t a r p w) as Hm1;
    pose proof (AcceptAction_relations h t a r p w) as Hr1;
    destruct (AcceptAction h t a r p w) as [[ok1 rel1] v1] end.
  cbn [fst snd] in Hm1, Hr1. subst rel1.
  match goal with |- context [ConnectBlock_vtx _ _ _ _ ?w] =>
    destruct (IH (relations ++ relation_of (tx_hash tx) action) w acts' eq_refl) as [Hr Hm] end.
  rewrite Hr, Hm. split.
  - unfold relations_of. simpl. by rewrite app_assoc.
  - unfold accept_all. simpl. f_equal.
    destruct ok1; rewrite ?memory_log, Hm1; done.
Qed.

(** The entries a map hands out are its entries, each key once. *)
Lemma in_key_order_Permutation {V : Type} (m : gmap Z V) :
  in_key_order m ≡ₚ map_to_list m.
Proof. apply merge_sort_Permutation. Qed.

Lemma elem_of_in_key_order {V : Type} (m : gmap Z V) k x :
  (k, x) ∈ in_key_order m ↔ m !! k = Some x.
Proof. rewrite in_key_order_Permutation. apply elem_of_map_to_list. Qed.

Lemma NoDup_fst_in_key_order {V : Type} (m : gmap Z V) : NoDup (in_key_order m).*1.
Proof. rewrite in_key_order_Permutation. apply NoDup_fst_map_to_list. Qed.

(** With an order of the keys in which no two keys are each less than the
    other, the entries come in ascending order. *)
Lemma in_key_order_Sorted {V : Type} (m : gmap Z V) :
  (∀ a b, CKeyID_less a b = true → CKeyID_less b a = false) →
  Sorted key_before (in_key_order m).
Proof.
  intros Hasym.
  assert (Total (@key_before _ V)) as Htotal.
  { intros e1 e2. unfold key_before.
    destruct (CKeyID_less e2.1 e1.1) eqn:Hless; [right|by left].
    by apply Hasym. }
  apply (Sorted_merge_sort key_before).
Qed.

Lemma memory_Erase height v : memory (Erase height v).2 = memory v.
Proof. unfold Erase, db_write. by destruct (db_faults v) as [|[] ?]. Qed.

End WithEnv.
End LedgerFacts.

(** ** The descending sort and the entry a disconnect restores *)

Module HistoryFacts.
Import Ledger.

(** Descending by height, ties allowed: what the strict comparison of the
    code sorts a list into. *)
Definition height_ge (m1 m2 : CPersonalHeightRelation) : Prop := m2.1 ≤ m1.1.

Lemma HdRel_list_merge_decline x l1 l2 :
  HdRel height_ge x l1 → HdRel height_ge x l2 →
  HdRel height_ge x (list_merge sort_first_decline l1 l2).
Proof.
  destruct l1 as [|x1 l1], l2 as [|x2 l2];
    rewrite ?list_merge_nil_l, ?list_merge_nil_r, ?list_merge_cons; try done.
  intros H1 H2. inversion H1; inversion H2; subst.
  case_decide; by constructor.
Qed.

Lemma Sorted_list_merge_decline l1 l2 :
  Sorted height_ge l1 → Sorted height_ge l2 →
  Sorted height_ge (list_merge sort_first_decline l1 l2).
Proof.
  intros Hl1. revert l2. induction Hl1 as [|x1 l1 Hl1 IH1 Hhd1]; intros l2 Hl2.
  { by rewrite list_merge_nil_l. }
  induction Hl2 as [|x2 l2 Hl2 IH2 Hhd2]; [by rewrite list_merge_nil_r; constructor|].
  rewrite list_merge_cons. case_decide as Hcmp.
  - constructor; [apply IH1; by constructor|].
    apply HdRel_list_merge_decline; [done|].
    constructor. unfold sort_first_decline, height_ge in *. lia.
  - constructor; [exact IH2|].
    apply HdRel_list_merge_decline; [|done].
    constructor. unfold sort_first_decline, height_ge in *. lia.
Qed.

(** Every run on the stack of the merge sort is sorted. *)
Definition stack_sorted (st : list (option (list CPersonalHeightRelation))) : Prop :=
  Forall (fun o => match o with Some l => Sorted height_ge l | None => True end) st.

Lemma stack_sorted_merge_list_to_stack st l :
  stack_sorted st → Sorted height_ge l →
  stack_sorted (merge_list_to_stack sort_first_decline st l).
Proof.
  intros Hst. revert l. induction Hst as [|[l'|] st Hl' Hst IH]; intros l Hl; simpl.
  - by repeat constructor.
  - constructor; [done|]. apply IH. by apply Sorted_list_merge_decline.
  - by constructor.
Qed.

Lemma Sorted_merge_stack_decline st :
  stack_sorted st → Sorted height_ge (merge_stack sort_first_decline st).
Proof.
  induction 1 as [|[l|] st Hl Hst IH]; simpl; [constructor| |done].
  by apply Sorted_list_merge_decline.
Qed.

Lemma Sorted_merge_sort_aux_decline st l :
  stack_sorted st → Sorted height_ge (merge_sort_aux sort_first_decline st l).
Proof.
  revert st. induction l as [|x l IH]; intros st Hst; simpl.
  - by apply Sorted_merge_stack_decline.
  - apply IH, stack_sorted_merge_list_to_stack; [done|]. by repeat constructor.
Qed.

Lemma Sorted_merge_sort_decline l :
  Sorted height_ge (merge_sort sort_first_decline l).
Proof. apply Sorted_merge_sort_aux_decline. constructor. Qed.

Global Instance height_ge_trans : Transitive height_ge.
Proof. unfold height_ge. intros x y z ? ?. lia. Qed.

(** The entry of greatest height of a personal history. *)
Definition is_latest (pl : gmap Z CKeyID) (e : CPersonalHeightRelation) : Prop :=
  pl !! e.1 = Some e.2 ∧ ∀ h x, pl !! h = Some x → h ≤ e.1.

Lemma is_latest_unique pl e1 e2 : is_latest pl e1 → is_latest pl e2 → e1 = e2.
Proof.
  intros [H1 M1] [H2 M2]. destruct e1 as [h1 x1], e2 as [h2 x2]. simpl in *.
  assert (h1 = h2) as -> by (pose proof (M1 _ _ H2); pose proof (M2 _ _ H1); lia).
  congruence.
Qed.

(** The entries of [personalRelationList] that a disconnect of [height]
    keeps. *)
Definition kept (height : Z) (pl : gmap Z CKeyID) : gmap Z CKeyID :=
  filter (fun e : Z * CKeyID => ¬ (height ≤ e.1)) pl.

(** The entry [find_if] picks from the sorted vector. *)
Definition prevRelation (height : Z) (pl : gmap Z CKeyID)
  : option CPersonalHeightRelation :=
  List.find (fun e : CPersonalHeightRelation => e.1 <? height)
    (merge_sort sort_first_decline (map_to_list (kept height pl))).

Lemma prevRelation_empty height pl : kept height pl = ∅ → prevRelation height pl = None.
Proof. intros E. unfold prevRelation. rewrite E, map_to_list_empty. done. Qed.

Lemma prevRelation_latest height pl :
  kept height pl ≠ ∅ →
  ∃ e, prevRelation height pl = Some e ∧ is_latest (kept height pl) e.
Proof.
  intros Hne. unfold prevRelation.
  pose proof (Sorted_merge_sort_decline (map_to_list (kept height pl))) as Hs.
  pose proof (merge_sort_Permutation sort_first_decline (map_to_list (kept height pl))) as Hp.
  destruct (merge_sort sort_first_decline (map_to_list (kept height pl))) as [|e l] eqn:E.
  { apply Permutation_nil in Hp. by apply map_to_list_empty_iff in Hp. }
  exists e.
  assert (∀ e', e' ∈ e :: l ↔ kept height pl !! e'.1 = Some e'.2) as Hin.
  { intros [h x]. rewrite Hp. apply elem_of_map_to_list. }
  assert (e.1 < height) as Hlt.
  { assert (kept height pl !! e.1 = Some e.2) as He by (apply Hin; left).
    apply map_lookup_filter_Some in He as [_ Hf]. simpl in Hf. lia. }
  split.
  - simpl. destruct (Z.ltb_spec e.1 height); [done|lia].
  - split; [apply Hin; left|].
    intros h x Hhx.
    assert ((h, x) ∈ e :: l) as Hmem by (by apply Hin).
    apply Sorted_StronglySorted in Hs; [|apply _].
    apply StronglySorted_inv in Hs as [_ Hall].
    apply elem_of_cons in Hmem as [Heq|Hmem]; [rewrite <- Heq; simpl; lia|].
    rewrite Forall_forall in Hall. apply (Hall (h, x)).
    first [done|by apply list_elem_of_In].
Qed.

End HistoryFacts.

(** ** Facts about signing and verification *)

Module ActionFacts.
Import Bytes Codec Script Action.

(** The [from] field of a bind or an unbind. *)
Definition action_from (a : CAction) : option CKeyID :=
  match a with
  | CBindAction from _ => Some from
  | CUnbindAction from => Some from
  | CNilAction => None
  end.

(** The signature as [DecodeAction] cuts it off a payload: the trailing 65
    bytes. *)
Definition signature_of (vch : list byte) : list byte :=
  drop (length vch - 65) vch.

Section SignVerify.
Context `{Env}.

(** A compact signature has 65 bytes. *)
Hypothesis sign_size :
  ∀ key h s, SignCompact key h = Some s → length s = 65%nat.

(** Recovery from the signed digest gives the public key of the signer. *)
Hypothesis recover_signed :
  ∀ key h s, SignCompact key h = Some s → RecoverCompact h s = Some (GetPubKey key).

(** A signature is bound to its digest: it recovers under no other one. *)
Hypothesis recover_other_digest :
  ∀ key h h' s pk,
    SignCompact key h = Some s → RecoverCompact h' s = Some pk → h' = h.

(** The digest has no collisions. *)
Hypothesis digest_inj :
  ∀ b o b' o', HashActionOut b o = HashActionOut b' o' → b = b' ∧ o = o'.

Lemma SignAction_signature out action key vch :
  SignAction out action key = (true, vch) →
  SignCompact key (HashActionOut (SerializeAction action) out) = Some (signature_of vch).
Proof.
  unfold SignAction.
  destruct (SignCompact key _) as [s|] eqn:Hs; [|done].
  intros Heq. apply (f_equal snd) in Heq. cbn [snd] in Heq. subst vch. f_equal. unfold signature_of.
  rewrite length_app, (sign_size _ _ _ Hs).
  replace (length (SerializeAction action) + 65 - 65)%nat
    with (length (SerializeAction action)) by lia.
  by rewrite drop_app_length.
Qed.

Lemma VerifyAction_recovered out action vchSig pubkey :
  RecoverCompact (HashActionOut (SerializeAction action) out) vchSig = Some pubkey →
  VerifyAction out action vchSig = true ↔ action_from action = Some (GetID pubkey).
Proof.
  intros Hrec. unfold VerifyAction. rewrite Hrec.
  destruct action as [|from to|from]; simpl.
  - split; discriminate.
  - rewrite bool_decide_eq_true. split; [by intros ->|by intros [= ->]].
  - rewrite bool_decide_eq_true. split; [by intros ->|by intros [= ->]].
Qed.

Lemma VerifyAction_not_recovered out action vchSig :
  RecoverCompact (HashActionOut (SerializeAction action) out) vchSig = None →
  VerifyAction out action vchSig = false.
Proof. intros Hrec. unfold VerifyAction. by rewrite Hrec. Qed.

Lemma VerifyAction_Nil out vchSig : VerifyAction out CNilAction vchSig = false.
Proof. unfold VerifyAction. by destruct (RecoverCompact _ _). Qed.

Lemma VerifyAction_altered out action key vch out' action' :
  wf_action action → wf_action action' →
  SignAction out action key = (true, vch) →
  (action', out') ≠ (action, out) →
  VerifyAction out' action' (signature_of vch) = false.
Proof.
  intros Hwf Hwf' Hsign Hne. apply SignAction_signature in Hsign.
  destruct (RecoverCompact (HashActionOut (SerializeAction action') out') (signature_of vch))
    as [pk|] eqn:Hrec; [|by apply VerifyAction_not_recovered].
  exfalso. apply Hne.
  pose proof (recover_other_digest _ _ _ _ _ Hsign Hrec) as Hh.
  apply digest_inj in Hh as [Hser ->].
  apply SerializeAction_inj in Hser; [by subst|done|done].
Qed.

End SignVerify.
End ActionFacts.

(** ** Connecting a block and disconnecting it again *)

Module RollbackFacts.
Import Bytes Codec Script Action Ledger LedgerFacts HistoryFacts ActionFacts.

Section WithEnv.
Context `{Env}.

Lemma removeRelationHistory_history height from poc21 v :
  relationsHistoryMap (removeRelationHistory height from poc21 v).2
  = if decide (kept height (default ∅ (relationsHistoryMap v !! from)) = ∅)
    then delete from (relationsHistoryMap v)
    else <[from := kept height (default ∅ (relationsHistoryMap v !! from))]>
           (relationsHistoryMap v).
Proof.
  unfold removeRelationHistory. fold (kept height (default ∅ (relationsHistoryMap v !! from))).
  destruct (Nat.eqb_spec (size (kept height (default ∅ (relationsHistoryMap v !! from)))) 0)
    as [Hz|Hnz].
  - apply map_size_empty_iff in Hz. rewrite decide_True by done. by destruct poc21.
  - rewrite decide_False by (by rewrite <- map_size_empty_iff).
    destruct (List.find _ _); by destruct poc21.
Qed.

Lemma removeRelationHistory_tip height from poc21 v :
  relationKeyIDTip (removeRelationHistory height from poc21 v).2
  = match prevRelation height (default ∅ (relationsHistoryMap v !! from)) with
    | Some e => <[from := e.2]> (relationKeyIDTip v)
    | None => delete from (relationKeyIDTip v)
    end.
Proof.
  unfold removeRelationHistory. fold (kept height (default ∅ (relationsHistoryMap v !! from))).
  destruct (Nat.eqb_spec (size (kept height (default ∅ (relationsHistoryMap v !! from)))) 0)
    as [Hz|Hnz].
  - apply map_size_empty_iff in Hz. rewrite prevRelation_empty by done. by destruct poc21.
  - unfold prevRelation. destruct (List.find _ _); by destruct poc21.
Qed.

Lemma removeRelationHistory_relationTip height from v :
  relationTip (removeRelationHistory height from true v).2 = relationTip v.
Proof.
  unfold removeRelationHistory.
  destruct (size _ =? 0)%nat; [done|]. by destruct (List.find _ _).
Qed.

(** One round of the loop of [DisconnectBlock]. *)
Definition disconnect_step (height : Z) (poc21 : bool) (v : CRelationView)
  (historyEntry : CKeyID * gmap Z CKeyID) : CRelationView :=
  match historyEntry.2 !! height with
  | Some _ => (removeRelationHistory height historyEntry.1 poc21 v).2
  | None => v
  end.

(** What a disconnect of [height] leaves of a personal history, and the tip
    it leaves for the identity. *)
Definition history_after (height : Z) (pl : gmap Z CKeyID) : option (gmap Z CKeyID) :=
  match pl !! height with
  | Some _ => if decide (kept height pl = ∅) then None else Some (kept height pl)
  | None => Some pl
  end.

Definition tip_after (height : Z) (pl : gmap Z CKeyID) (tip : option CKeyID)
  : option CKeyID :=
  match pl !! height with
  | Some _ => snd <$> prevRelation height pl
  | None => tip
  end.

Lemma disconnect_step_other height poc21 v e k :
  k ≠ e.1 →
  relationsHistoryMap (disconnect_step height poc21 v e) !! k = relationsHistoryMap v !! k
  ∧ relationKeyIDTip (disconnect_step height poc21 v e) !! k = relationKeyIDTip v !! k.
Proof.
  intros Hne. unfold disconnect_step. destruct (e.2 !! height); [|done].
  rewrite removeRelationHistory_history, removeRelationHistory_tip.
  split.
  - case_decide; [by rewrite lookup_delete_ne|by rewrite lookup_insert_ne].
  - destruct (prevRelation _ _); [by rewrite lookup_insert_ne|by rewrite lookup_delete_ne].
Qed.

Lemma disconnect_step_self height poc21 v e :
  relationsHistoryMap v !! e.1 = Some e.2 →
  relationsHistoryMap (disconnect_step height poc21 v e) !! e.1 = history_after height e.2
  ∧ relationKeyIDTip (disconnect_step height poc21 v e) !! e.1
    = tip_after height e.2 (relationKeyIDTip v !! e.1).
Proof.
  intros He. unfold disconnect_step, history_after, tip_after.
  destruct (e.2 !! height); [|done].
  rewrite removeRelationHistory_history, removeRelationHistory_tip, He. simpl.
  split.
  - case_decide; [by rewrite lookup_delete_eq|by rewrite lookup_insert_eq].
  - destruct (prevRelation height e.2); simpl;
      [by rewrite lookup_insert_eq|by rewrite lookup_delete_eq].
Qed.

Lemma disconnect_loop_lookup height poc21 entries v k :
  NoDup entries.*1 →
  (∀ e, e ∈ entries → relationsHistoryMap v !! e.1 = Some e.2) →
  (k ∉ entries.*1 →
     relationsHistoryMap (fold_left (disconnect_step height poc21) entries v) !! k
     = relationsHistoryMap v !! k
     ∧ relationKeyIDTip (fold_left (disconnect_step height poc21) entries v) !! k
       = relationKeyIDTip v !! k)
  ∧ (∀ pl, (k, pl) ∈ entries →
     relationsHistoryMap (fold_left (disconnect_step height poc21) entries v) !! k
     = history_after height pl
     ∧ relationKeyIDTip (fold_left (disconnect_step height poc21) entries v) !! k
       = tip_after height pl (relationKeyIDTip v !! k)).
Proof.
  revert v. induction entries as [|e0 rest IH]; intros v Hnd Hv.
  { split; [done|]. intros pl Hin. by apply elem_of_nil in Hin. }
  rewrite fmap_cons in Hnd.
  pose proof (NoDup_cons_1_1 _ _ Hnd) as Hfresh. apply NoDup_cons_1_2 in Hnd.
  assert (∀ e, e ∈ rest →
            relationsHistoryMap (disconnect_step height poc21 v e0) !! e.1 = Some e.2) as Hv1.
  { intros e He.
    assert (e.1 ≠ e0.1) as Hne.
    { intros Heq. apply Hfresh. rewrite <- Heq. by apply list_elem_of_fmap_2. }
    destruct (disconnect_step_other height poc21 v e0 e.1 Hne) as [-> _].
    apply Hv. by right. }
  destruct (IH (disconnect_step height poc21 v e0) Hnd Hv1) as [IHa IHb].
  simpl. split.
  - intros Hk. apply not_elem_of_cons in Hk as [Hk0 Hk].
    destruct (IHa Hk) as [-> ->]. by apply disconnect_step_other.
  - intros pl Hin. apply elem_of_cons in Hin as [Heq|Hin].
    + subst e0. destruct (IHa Hfresh) as [-> ->].
      apply (disconnect_step_self height poc21 v (k, pl)). apply (Hv (k, pl)). by left.
    + destruct (IHb pl Hin) as [-> ->].
      assert (k ≠ e0.1) as Hne.
      { intros Heq. apply Hfresh. rewrite <- Heq.
        by apply (list_elem_of_fmap_2 fst rest (k, pl)). }
      by destruct (disconnect_step_other height poc21 v e0 k Hne) as [_ ->].
Qed.

(** A run of the loop that comes to its end is the run of its rounds. *)
Lemma DisconnectBlock_loop_Some height poc21 entries v w :
  DisconnectBlock_loop height poc21 entries v = Some w →
  w = fold_left (disconnect_step height poc21) entries v.
Proof.
  revert v. induction entries as [|e es IH]; intros v;
    cbn [DisconnectBlock_loop fold_left].
  { by intros [= <-]. }
  unfold disconnect_step at 2.
  destruct (e.2 !! height); [|apply IH].
  destruct (relationsHistoryMap _ !! e.1); [apply IH|done].
Qed.

(** The ledgers on which [DisconnectBlock] erases no history: every
    identity that has an entry at [height] has an entry below it. *)
Definition disconnect_defined (height : Z) (v : CRelationView) : Prop :=
  ∀ k pl, relationsHistoryMap v !! k = Some pl → is_Some (pl !! height) →
          kept height pl ≠ ∅.

Lemma DisconnectBlock_loop_defined height poc21 entries v :
  NoDup entries.*1 →
  (∀ e, e ∈ entries → relationsHistoryMap v !! e.1 = Some e.2) →
  is_Some (DisconnectBlock_loop height poc21 entries v)
  ↔ ∀ e, e ∈ entries → is_Some (e.2 !! height) → kept height e.2 ≠ ∅.
Proof.
  revert v. induction entries as [|e0 rest IH]; intros v Hnd Hv;
    cbn [DisconnectBlock_loop].
  { split; [|by eexists]. intros _ e He. by apply elem_of_nil in He. }
  rewrite fmap_cons in Hnd.
  pose proof (NoDup_cons_1_1 _ _ Hnd) as Hfresh. apply NoDup_cons_1_2 in Hnd.
  assert (∀ e, e ∈ rest →
            relationsHistoryMap (disconnect_step height poc21 v e0) !! e.1 = Some e.2) as Hv1.
  { intros e He.
    assert (e.1 ≠ e0.1) as Hne.
    { intros Heq. apply Hfresh. rewrite <- Heq. by apply list_elem_of_fmap_2. }
    destruct (disconnect_step_other height poc21 v e0 e.1 Hne) as [-> _].
    apply Hv. by right. }
  pose proof (Hv e0 ltac:(by left)) as He0.
  unfold disconnect_step in Hv1.
  destruct (e0.2 !! height) as [x|] eqn:Hx.
  - rewrite removeRelationHistory_history, He0. cbn [default].
    case_decide as Hkept.
    + rewrite lookup_delete_eq. split; [by intros [? ?]|].
      intros Hall. exfalso. apply (Hall e0); [by left|by rewrite Hx|done].
    + rewrite lookup_insert_eq. rewrite (IH _ Hnd Hv1). split.
      * intros Hall e He. apply elem_of_cons in He as [->|He]; [done|by apply Hall].
      * intros Hall e He. apply Hall. by right.
  - rewrite (IH _ Hnd Hv1). split.
    + intros Hall e He. apply elem_of_cons in He as [->|He]; [|by apply Hall].
      rewrite Hx. by intros [? ?].
    + intros Hall e He. apply Hall. by right.
Qed.

(** [DisconnectBlock] has a result exactly on the ledgers on which it erases
    no history. *)
Lemma DisconnectBlock_defined height blk poc21 v :
  is_Some (DisconnectBlock height blk poc21 v) ↔ disconnect_defined height v.
Proof.
  rewrite DisconnectBlock_steps, fmap_is_Some. unfold disconnect_steps.
  assert (relationsHistoryMap (Erase height v).2 = relationsHistoryMap v) as Eh.
  { change (relationsHistoryMap ?w) with (memory w).2. by rewrite memory_Erase. }
  rewrite DisconnectBlock_loop_defined.
  - rewrite Eh. unfold disconnect_defined. split.
    + intros Hall k pl Hk. apply (Hall (k, pl)). by apply elem_of_in_key_order.
    + intros Hall [k pl] He. apply (Hall k). by apply elem_of_in_key_order.
  - apply NoDup_fst_in_key_order.
  - intros [k pl] He. by apply elem_of_in_key_order in He.
Qed.

(** The history map and the identity tip map after [DisconnectBlock], one
    identity at a time. *)
Lemma DisconnectBlock_lookup height blk poc21 v w k :
  DisconnectBlock height blk poc21 v = Some w →
  relationsHistoryMap w !! k = relationsHistoryMap v !! k ≫= history_after height
  ∧ relationKeyIDTip w !! k
    = match relationsHistoryMap v !! k with
      | Some pl => tip_after height pl (relationKeyIDTip v !! k)
      | None => relationKeyIDTip v !! k
      end.
Proof.
  rewrite DisconnectBlock_steps. unfold disconnect_steps.
  intros Hrun. apply fmap_Some in Hrun as (w0 & Hrun & ->).
  apply DisconnectBlock_loop_Some in Hrun. subst w0.
  change (relationsHistoryMap (set_debug_log ?f ?x)) with (relationsHistoryMap x).
  change (relationKeyIDTip (set_debug_log ?f ?x)) with (relationKeyIDTip x).
  assert (relationsHistoryMap (Erase height v).2 = relationsHistoryMap v
          ∧ relationKeyIDTip (Erase height v).2 = relationKeyIDTip v) as [Eh Et].
  { unfold Erase, db_write. by destruct (db_faults v) as [|[] ?]. }
  revert Eh Et. generalize (Erase height v).2. intros u Eh Et.
  destruct (disconnect_loop_lookup height poc21 (in_key_order (relationsHistoryMap u)) u k)
    as [Ha Hb].
  { apply NoDup_fst_in_key_order. }
  { intros [k' pl'] He. by apply elem_of_in_key_order in He. }
  rewrite <- Eh, <- Et.
  destruct (relationsHistoryMap u !! k) as [pl|] eqn:Hk.
  - apply Hb. by apply elem_of_in_key_order.
  - destruct Ha as [Ha1 Ha2]; [|split; [exact Ha1|exact Ha2]].
    intros Hin. apply list_elem_of_fmap in Hin as ([k' pl'] & Heq & Hin).
    simpl in Heq. subst k'. apply elem_of_in_key_order in Hin. congruence.
Qed.


Lemma kept_insert height x pl : kept height (<[height := x]> pl) = kept height pl.
Proof.
  apply map_eq. intros h. apply option_eq. intros y. unfold kept.
  rewrite !map_lookup_filter_Some. simpl.
  destruct (decide (h = height)) as [->|Hne]; [intuition lia|].
  by rewrite lookup_insert_ne.
Qed.

Lemma kept_below height pl :
  (∀ h x, pl !! h = Some x → h < height) → kept height pl = pl.
Proof.
  intros Hb. apply map_eq. intros h. apply option_eq. intros y. unfold kept.
  rewrite map_lookup_filter_Some. simpl. split; [tauto|].
  intros Hy. split; [done|]. specialize (Hb _ _ Hy). lia.
Qed.

Lemma prevRelation_insert height x pl :
  prevRelation height (<[height := x]> pl) = prevRelation height pl.
Proof. unfold prevRelation. by rewrite kept_insert. Qed.

(** The identities the accepted actions are about. *)
Definition touches (acts : list (uint256 * CAction)) (k : CKeyID) : Prop :=
  Exists (fun a : uint256 * CAction => action_from a.2 = Some k) acts.

Global Instance touches_dec acts k : Decision (touches acts k).
Proof. unfold touches. apply _. Defined.

Lemma accept_memory_other height a poc21 m k :
  action_from a ≠ Some k →
  (accept_memory height a poc21 m).2 !! k = m.2 !! k
  ∧ (accept_memory height a poc21 m).1.2 !! k = m.1.2 !! k.
Proof.
  destruct a as [|from to|from]; simpl; intros Hne; [done| |];
    (assert (from ≠ k) by congruence);
    by rewrite ?lookup_insert_ne, ?lookup_delete_ne.
Qed.

Lemma accept_memory_self height a poc21 m k :
  action_from a = Some k →
  ∃ x, (accept_memory height a poc21 m).2 !! k
       = Some (<[height := x]> (default ∅ (m.2 !! k))).
Proof.
  destruct a as [|from to|from]; simpl; intros [= ->]; eexists;
    by rewrite lookup_insert_eq.
Qed.

Lemma accept_memory_relationTip height a m :
  (accept_memory height a true m).1.1 = m.1.1.
Proof. by destruct a. Qed.

Lemma accept_all_relationTip height acts m :
  (accept_all height true acts m).1.1 = m.1.1.
Proof.
  unfold accept_all. revert m. induction acts as [|a acts IH]; intros m; simpl; [done|].
  by rewrite IH, accept_memory_relationTip.
Qed.

Lemma accept_all_lookup height poc21 acts m k :
  (¬ touches acts k →
     (accept_all height poc21 acts m).2 !! k = m.2 !! k
     ∧ (accept_all height poc21 acts m).1.2 !! k = m.1.2 !! k)
  ∧ (touches acts k →
     ∃ x, (accept_all height poc21 acts m).2 !! k
          = Some (<[height := x]> (default ∅ (m.2 !! k)))).
Proof.
  unfold accept_all, touches. revert m.
  induction acts as [|a acts IH]; intros m; simpl.
  { split; [done|]. intros Hex. by apply Exists_nil in Hex. }
  destruct (IH (accept_memory height a.2 poc21 m)) as [IHa IHb].
  split.
  - intros Hno. rewrite Exists_cons in Hno.
    destruct IHa as [-> ->]; [tauto|].
    apply accept_memory_other. tauto.
  - intros Hex.
    destruct (decide (Exists (fun a : uint256 * CAction => action_from a.2 = Some k) acts))
      as [Hrest|Hrest].
    + destruct (IHb Hrest) as [x ->]. exists x.
      destruct (decide (action_from a.2 = Some k)) as [Ha|Ha].
      * destruct (accept_memory_self height a.2 poc21 m k Ha) as [y ->]. simpl.
        by rewrite insert_insert_eq.
      * by destruct (accept_memory_other height a.2 poc21 m k Ha) as [-> _].
    + destruct IHa as [-> _]; [done|].
      apply Exists_cons in Hex as [Ha|?]; [|done].
      by apply accept_memory_self.
Qed.

Lemma ConnectBlock_accepted height blk poc21 v acts :
  accepted_actions (vtx blk) = Returns acts →
  (ConnectBlock height blk poc21 v).1 = Returns tt
  ∧ memory (ConnectBlock height blk poc21 v).2
    = accept_all height poc21 acts (memory v).
Proof.
  intros Hacc. unfold ConnectBlock.
  destruct (ConnectBlock_vtx_accepted height (vtx blk) [] poc21 v acts Hacc) as [Hr Hm].
  destruct (ConnectBlock_vtx height (vtx blk) [] poc21 v) as [[rel|e] v1];
    cbn [fst snd] in Hr, Hm; [|discriminate].
  destruct (0 <? length rel)%nat; [|done].
  pose proof (memory_WriteRelationsToDisk height rel v1) as Hw.
  destruct (WriteRelationsToDisk height rel v1) as [[] w]; cbn [fst snd] in *;
    rewrite ?memory_log; split; congruence.
Qed.

(** The ledger after a block is connected above every recorded height: the
    disconnect of the height is defined exactly when every identity the block
    has an accepted action for had a history. *)
Lemma connect_disconnect_defined height blk poc21 v acts :
  accepted_actions (vtx blk) = Returns acts →
  (∀ k pl h x, relationsHistoryMap v !! k = Some pl → pl !! h = Some x → h < height) →
  (∀ k pl, relationsHistoryMap v !! k = Some pl → pl ≠ ∅) →
  disconnect_defined height (ConnectBlock height blk poc21 v).2
  ↔ ∀ k, touches acts k → is_Some (relationsHistoryMap v !! k).
Proof.
  intros Hacc Hbelow Hne.
  destruct (ConnectBlock_accepted height blk poc21 v acts Hacc) as [_ Hm].
  set (v1 := (ConnectBlock height blk poc21 v).2) in *.
  assert (relationsHistoryMap v1 = (accept_all height poc21 acts (memory v)).2) as Hh1
    by (by rewrite <- Hm).
  unfold disconnect_defined. rewrite Hh1.
  change (memory v).2 with (relationsHistoryMap v) in *.
  split.
  - intros Hdef k Ht.
    destruct (accept_all_lookup height poc21 acts (memory v) k) as [_ Hto].
    destruct (Hto Ht) as [x Hx].
    change (memory v).2 with (relationsHistoryMap v) in *.
    destruct (relationsHistoryMap v !! k) as [pl|]; [by eexists|].
    exfalso. apply (Hdef _ _ Hx).
    + rewrite lookup_insert_eq. by eexists.
    + rewrite kept_insert. apply map_eq. intros h. unfold kept.
      by rewrite map_lookup_filter, !lookup_empty.
  - intros Hhist k pl1 Hk Hat.
    destruct (accept_all_lookup height poc21 acts (memory v) k) as [Hun Hto].
    change (memory v).2 with (relationsHistoryMap v) in *.
    destruct (decide (touches acts k)) as [Ht|Ht].
    + destruct (Hto Ht) as [x Hx]. rewrite Hx in Hk. injection Hk as <-.
      destruct (Hhist k Ht) as [pl Hpl]. rewrite Hpl. cbn [default].
      rewrite kept_insert, kept_below by eauto. eauto.
    + destruct (Hun Ht) as [Hsame _]. rewrite Hsame in Hk.
      destruct Hat as [x Hx]. specialize (Hbelow _ _ _ _ Hk Hx). lia.
Qed.

(** A block with an accepted action of an identity without a history,
    connected and disconnected again: the disconnect erases the history of
    the identity under its own iterator. *)
Lemma connect_disconnect_undefined height blk blk' poc21 v acts k :
  accepted_actions (vtx blk) = Returns acts →
  touches acts k →
  relationsHistoryMap v !! k = None →
  DisconnectBlock height blk' poc21 (ConnectBlock height blk poc21 v).2 = None.
Proof.
  intros Hacc Ht Hk.
  destruct (DisconnectBlock _ _ _ _) as [w|] eqn:Hrun; [exfalso|done].
  assert (is_Some (DisconnectBlock height blk' poc21 (ConnectBlock height blk poc21 v).2))
    as Hsome by (by eexists).
  apply DisconnectBlock_defined in Hsome.
  destruct (ConnectBlock_accepted height blk poc21 v acts Hacc) as [_ Hm].
  destruct (accept_all_lookup height poc21 acts (memory v) k) as [_ Hto].
  destruct (Hto Ht) as [x Hx].
  change (memory v).2 with (relationsHistoryMap v) in Hx. rewrite Hk in Hx.
  rewrite <- Hm in Hx.
  apply (Hsome _ _ Hx).
  - rewrite lookup_insert_eq. by eexists.
  - rewrite kept_insert. apply map_eq. intros h. unfold kept.
    by rewrite map_lookup_filter, !lookup_empty.
Qed.

(** The raw target a disconnect writes back for an identity: the target of
    the latest entry that remains, the null identity of an unbind included. *)
Definition restored_tip (height : Z) (history : option (gmap Z CKeyID))
  : option CKeyID :=
  match history with
  | Some pl => snd <$> prevRelation height pl
  | None => None
  end.

(** A block connected at a height above every recorded one and disconnected
    again, every identity it has an accepted action for having a history: the
    history map is as before; the tip of an identity the block has no
    accepted action for is as before; the tip of an identity it has one for
    is the raw target of the latest entry of its history. *)
Lemma connect_disconnect_lookup height blk blk' poc21 v acts :
  accepted_actions (vtx blk) = Returns acts →
  (∀ k pl h x, relationsHistoryMap v !! k = Some pl → pl !! h = Some x → h < height) →
  (∀ k pl, relationsHistoryMap v !! k = Some pl → pl ≠ ∅) →
  (∀ k, touches acts k → is_Some (relationsHistoryMap v !! k)) →
  ∃ w,
    DisconnectBlock height blk' poc21 (ConnectBlock height blk poc21 v).2 = Some w
    ∧ relationsHistoryMap w = relationsHistoryMap v
    ∧ ∀ k,
        relationKeyIDTip w !! k
        = if decide (touches acts k)
          then restored_tip height (relationsHistoryMap v !! k)
          else relationKeyIDTip v !! k.
Proof.
  intros Hacc Hbelow Hne Hhist.
  destruct (proj2 (DisconnectBlock_defined height blk' poc21
                     (ConnectBlock height blk poc21 v).2)) as [w Hrun].
  { by apply (connect_disconnect_defined height blk poc21 v acts). }
  exists w. split; [done|].
  destruct (ConnectBlock_accepted height blk poc21 v acts Hacc) as [_ Hm].
  set (v1 := (ConnectBlock height blk poc21 v).2) in *.
  assert (relationsHistoryMap v1 = (accept_all height poc21 acts (memory v)).2) as Hh1
    by (by rewrite <- Hm).
  assert (relationKeyIDTip v1 = (accept_all height poc21 acts (memory v)).1.2) as Ht1
    by (by rewrite <- Hm).
  assert (∀ k,
    relationsHistoryMap w !! k = relationsHistoryMap v !! k
    ∧ relationKeyIDTip w !! k
      = if decide (touches acts k)
        then restored_tip height (relationsHistoryMap v !! k)
        else relationKeyIDTip v !! k) as Hall.
  { intros k.
    destruct (DisconnectBlock_lookup height blk' poc21 v1 w k Hrun) as [-> ->].
    rewrite Hh1, Ht1.
    destruct (accept_all_lookup height poc21 acts (memory v) k) as [Hun Hto].
    change (memory v).2 with (relationsHistoryMap v) in *.
    change (memory v).1.2 with (relationKeyIDTip v) in *.
    destruct (decide (touches acts k)) as [Ht|Ht].
    - destruct (Hto Ht) as [x ->]. simpl.
      unfold history_after, tip_after. rewrite lookup_insert_eq.
      rewrite kept_insert, prevRelation_insert.
      destruct (relationsHistoryMap v !! k) as [pl|] eqn:Hk; simpl.
      + rewrite kept_below by eauto.
        rewrite decide_False by eauto. done.
      + by rewrite decide_True.
    - destruct (Hun Ht) as [-> ->].
      destruct (relationsHistoryMap v !! k) as [pl|] eqn:Hk; simpl; [|done].
      unfold history_after, tip_after.
      destruct (pl !! height) as [x|] eqn:Hx; [|done].
      specialize (Hbelow _ _ _ _ Hk Hx). lia. }
  split; [|intros k; apply Hall].
  apply map_eq. intros k. apply Hall.
Qed.


Lemma restored_tip_latest height pl e :
  (∀ h x, pl !! h = Some x → h < height) → is_latest pl e →
  restored_tip height (Some pl) = Some e.2.
Proof.
  intros Hbelow Hlat. simpl.
  assert (pl ≠ ∅) as Hne.
  { intros ->. destruct Hlat as [Hl _]. by rewrite lookup_empty in Hl. }
  destruct (prevRelation_latest height pl) as (e' & -> & Hlat').
  { by rewrite kept_below. }
  rewrite kept_below in Hlat' by done.
  by rewrite (is_latest_unique pl e e').
Qed.

Lemma DisconnectBlock_loop_relationTip height entries v w :
  DisconnectBlock_loop height true entries v = Some w → relationTip w = relationTip v.
Proof.
  intros Hrun. apply DisconnectBlock_loop_Some in Hrun. subst w.
  revert v. induction entries as [|e es IH]; intros v; simpl; [done|].
  rewrite IH. unfold disconnect_step. destruct (e.2 !! height); [|done].
  apply removeRelationHistory_relationTip.
Qed.

Lemma DisconnectBlock_relationTip height blk v w :
  DisconnectBlock height blk true v = Some w → relationTip w = relationTip v.
Proof.
  rewrite DisconnectBlock_steps. unfold disconnect_steps.
  intros Hrun. apply fmap_Some in Hrun as (w0 & Hrun & ->).
  change (relationTip (set_debug_log ?f ?x)) with (relationTip x).
  rewrite (DisconnectBlock_loop_relationTip _ _ _ _ Hrun).
  change (relationTip ?x) with (memory x).1.1. by rewrite memory_Erase.
Qed.

(** In the mode without plot ids, a block connected at a height above every
    recorded one and disconnected again leaves the three maps as they were,
    when every identity the block has an accepted action for had a history
    and, as its tip, the raw target of the latest entry of that history. *)
Lemma connect_disconnect_restores height blk blk' v acts :
  accepted_actions (vtx blk) = Returns acts →
  (∀ k pl h x, relationsHistoryMap v !! k = Some pl → pl !! h = Some x → h < height) →
  (∀ k pl, relationsHistoryMap v !! k = Some pl → pl ≠ ∅) →
  (∀ k, touches acts k → is_Some (relationsHistoryMap v !! k)) →
  (∀ k, touches acts k →
        relationKeyIDTip v !! k = restored_tip height (relationsHistoryMap v !! k)) →
  ∃ w,
    DisconnectBlock height blk' true (ConnectBlock height blk true v).2 = Some w
    ∧ memory w = memory v.
Proof.
  intros Hacc Hbelow Hne Hhist Htip.
  destruct (connect_disconnect_lookup height blk blk' true v acts Hacc Hbelow Hne Hhist)
    as (w & Hrun & Hh & Ht).
  exists w. split; [done|].
  destruct (ConnectBlock_accepted height blk true v acts Hacc) as [_ Hm].
  unfold memory at 1. rewrite Hh, (DisconnectBlock_relationTip _ _ _ _ Hrun).
  change (relationTip (ConnectBlock height blk true v).2)
    with (memory (ConnectBlock height blk true v).2).1.1.
  rewrite Hm, accept_all_relationTip. unfold memory. simpl. f_equal. f_equal.
  apply map_eq. intros k. rewrite Ht. case_decide; [|done].
  symmetry. by apply Htip.
Qed.

(** The defect in general.  When the latest entry of an identity is an unbind
    and the identity has no tip, a block with an accepted action of the
    identity, connected above every recorded height and disconnected again,
    leaves the identity with the null identity as its tip. *)
Lemma connect_disconnect_null_tip height blk blk' poc21 v acts k pl h :
  accepted_actions (vtx blk) = Returns acts →
  (∀ k pl h x, relationsHistoryMap v !! k = Some pl → pl !! h = Some x → h < height) →
  (∀ k pl, relationsHistoryMap v !! k = Some pl → pl ≠ ∅) →
  (∀ k, touches acts k → is_Some (relationsHistoryMap v !! k)) →
  touches acts k →
  relationsHistoryMap v !! k = Some pl →
  is_latest pl (h, CKeyID_null) →
  relationKeyIDTip v !! k = None →
  ∃ w,
    DisconnectBlock height blk' poc21 (ConnectBlock height blk poc21 v).2 = Some w
    ∧ relationKeyIDTip w !! k = Some CKeyID_null.
Proof.
  intros Hacc Hbelow Hne Hhist Htouch Hk Hlat Htip.
  destruct (connect_disconnect_lookup height blk blk' poc21 v acts Hacc Hbelow Hne Hhist)
    as (w & Hrun & _ & Ht).
  exists w. split; [done|].
  rewrite Ht, decide_True, Hk by done.
  apply (restored_tip_latest height pl (h, CKeyID_null)); [|done].
  intros h' x. by apply (Hbelow k).
Qed.

(** A bind to the null identity: the one action the stored form does not
    give back. *)
Definition null_bind (action : CAction) : Prop :=
  ∃ from, action = CBindAction from CKeyID_null.

Lemma replay_relation_of height poc21 txid action m :
  ¬ null_bind action →
  fold_left (fun m r => accept_memory height (change_action r) poc21 m)
    (relation_of txid action) m
  = accept_memory height action poc21 m.
Proof.
  intros Hnb.
  destruct action as [|from to|from]; cbn [relation_of fold_left]; [done| |];
    unfold change_action; cbn [fst snd].
  - rewrite bool_decide_eq_false_2; [done|].
    intros ->. apply Hnb. by exists from.
  - by rewrite bool_decide_eq_true_2.
Qed.

Lemma replay_relations_of height poc21 acts m :
  Forall (fun a : uint256 * CAction => ¬ null_bind a.2) acts →
  fold_left (fun m r => accept_memory height (change_action r) poc21 m)
    (relations_of acts) m
  = accept_all height poc21 acts m.
Proof.
  intros Hall. revert m. unfold relations_of, accept_all.
  induction Hall as [|a acts Ha _ IH]; intros m; simpl; [done|].
  by rewrite fold_left_app, replay_relation_of, IH.
Qed.

Lemma Load_memory height poc21 relations v :
  memory (fold_left (LoadRelation height poc21) relations v)
  = fold_left (fun m r => accept_memory height (change_action r) poc21 m)
      relations (memory v).
Proof.
  revert v. induction relations as [|r rs IH]; intros v; simpl; [done|].
  by rewrite IH, LoadRelation_memory.
Qed.

(** Loading the stored changes of a block on the ledger it was connected to
    gives the in-memory ledger the connection gave, when the block has no
    accepted bind to the null identity. *)
Lemma LoadRelationFromDisk_reconnects height blk poc21 v acts :
  accepted_actions (vtx blk) = Returns acts →
  Forall (fun a : uint256 * CAction => ¬ null_bind a.2) acts →
  db_active_action v !! height = Some (relations_of acts) →
  memory (LoadRelationFromDisk height poc21 v).2
  = memory (ConnectBlock height blk poc21 v).2.
Proof.
  intros Hacc Hnb Hdb.
  destruct (ConnectBlock_accepted height blk poc21 v acts Hacc) as [_ ->].
  unfold LoadRelationFromDisk. rewrite Hdb. cbn [snd].
  by rewrite Load_memory, replay_relations_of.
Qed.

End WithEnv.
End RollbackFacts.

(** ** A small instance of the environment, for running the ledger *)

Module Toy.
Import Bytes Codec Script Action Ledger.

(** A digest without collisions: the code of the pair in the positive
    numbers. *)
Definition toy_hash (b : list byte) (o : COutPoint) : uint256 :=
  Z.pos (encode (b, (hash o, n o))).

(** A signature that names its signer and its digest, padded to 65 entries. *)
Definition toy_sign (key : Z) (h : uint256) : option (list byte) :=
  Some (key :: h :: replicate 63 0).

Definition toy_pubkey (key : Z) : CPubKey := 2 :: le_bytes 32 key.

Definition toy_recover (h : uint256) (vchSig : list byte) : option CPubKey :=
  match vchSig with
  | key :: h' :: _ => if h' =? h then Some (toy_pubkey key) else None
  | _ => None
  end.

Definition toy_id (pubkey : CPubKey) : CKeyID := le_value (tail pubkey) mod 2 ^ 160.

Definition toy_env : Env := {|
  HashActionOut := toy_hash;
  SignCompact := toy_sign;
  RecoverCompact := toy_recover;
  GetPubKey := toy_pubkey;
  GetID := toy_id;
  GetPlotID := fun k => k mod 2 ^ 64;
  AccessCoin := fun _ => 500000000;
  nActionFee := 100000000;
  GetValueOut := fun tx => fold_left (fun s o => s + nValue o) (vout tx) 0;
  CKeyID_less := Z.ltb
|}.

#[local] Existing Instance toy_env.

(** A transaction that spends one coin of 500000000, pays [change] back and
    carries [action], signed by [key], behind [OP_RETURN] in a zero-value
    output. *)
Definition action_tx (txid : uint256) (key : Z) (action : CAction) (change : CAmount)
  : CTransaction :=
  let out := {| hash := txid + 1000; n := 0 |} in
  {| vin := [ {| prevout := out |} ];
     vout := [ {| nValue := 0;
                  scriptPubKey := push_data (push_opcode [] OP_RETURN)
                                    (SignAction out action key).2 |};
               {| nValue := change; scriptPubKey := [] |} ];
     tx_hash := txid |}.

(** A transaction of the right shape and fee whose carrier output holds
    [payload] as it is. *)
Definition payload_tx (txid : uint256) (payload : list byte) : CTransaction :=
  {| vin := [ {| prevout := {| hash := txid + 1000; n := 0 |} |} ];
     vout := [ {| nValue := 0;
                  scriptPubKey := push_data (push_opcode [] OP_RETURN) payload |};
               {| nValue := 400000000; scriptPubKey := [] |} ];
     tx_hash := txid |}.

Definition A : CKeyID := 7.
Definition B : CKeyID := 8.
Definition C : CKeyID := 9.

Definition block100 : CBlock :=
  {| vtx := [action_tx 1 A (CBindAction A B) 400000000]; block_hash := 100 |}.
Definition block101 : CBlock :=
  {| vtx := [action_tx 2 A (CUnbindAction A) 400000000]; block_hash := 101 |}.
Definition block102 : CBlock :=
  {| vtx := [action_tx 3 A (CBindAction A C) 400000000]; block_hash := 102 |}.

(** The ledger after blocks 100 (A binds to B) and 101 (A unbinds), from the
    empty ledger. *)
Definition after101 (poc21 : bool) : CRelationView :=
  (ConnectBlock 101 block101 poc21 (ConnectBlock 100 block100 poc21 empty_view).2).2.

(** ... and after block 102 (A binds to C). *)
Definition after102 (poc21 : bool) : CRelationView :=
  (ConnectBlock 102 block102 poc21 (after101 poc21)).2.

(** A store whose writes all fail. *)
Definition failing_store : CRelationView :=
  set_db_faults (fun _ => [true; true; true; true]) empty_view.

Lemma toy_sign_size key h s : toy_sign key h = Some s → length s = 65%nat.
Proof. by intros [= <-]. Qed.

Lemma toy_recover_signed key h s :
  toy_sign key h = Some s → toy_recover h s = Some (toy_pubkey key).
Proof. intros [= <-]. unfold toy_recover. by rewrite Z.eqb_refl. Qed.

Lemma toy_recover_other_digest key h h' s pk :
  toy_sign key h = Some s → toy_recover h' s = Some pk → h' = h.
Proof.
  intros [= <-]. unfold toy_recover.
  destruct (Z.eqb_spec h h'); [done|discriminate].
Qed.

Lemma toy_hash_inj b o b' o' : toy_hash b o = toy_hash b' o' → b = b' ∧ o = o'.
Proof.
  unfold toy_hash. intros [= Heq]. apply (inj encode) in Heq.
  destruct o, o'. simpl in Heq. by injection Heq as -> -> ->.
Qed.

End Toy.

(** * The properties of the specification *)

Module CodecClaims.
Import Bytes Codec.

(** Claim C5.  Decoding the encoding of an action gives the action back, for
    each of the three variants (identities being 160-bit values); the encoding
    is the discriminant as a 4-byte little-endian [int], 0 for Nil, 1 for Bind
    and 2 for Unbind, followed by the 20 bytes of each field; and equal
    actions have equal encodings. *)
Theorem action_codec_roundtrip (a : CAction) :
  wf_action a →
  UnserializeAction (SerializeAction a) = Returns a
  ∧ SerializeAction CNilAction = [0; 0; 0; 0]
  ∧ (∀ from to, SerializeAction (CBindAction from to)
                = [1; 0; 0; 0] ++ le_bytes 20 from ++ le_bytes 20 to)
  ∧ (∀ from, SerializeAction (CUnbindAction from) = [2; 0; 0; 0] ++ le_bytes 20 from)
  ∧ (∀ b, b = a → SerializeAction b = SerializeAction a).
Proof.
  intros Hwf. split; [|split; [done|split; [done|split; [done|by intros b ->]]]].
  rewrite <- (app_nil_r (SerializeAction a)).
  by apply UnserializeAction_SerializeAction_app.
Qed.

(** Claim C6, as the code has it.  [UnserializeAction] returns Nil for every
    input of at least four bytes whose discriminant is neither 1 nor 2; for
    the discriminant 1 or 2 it returns the bind or unbind read from the next
    40 or 20 bytes, ignoring what follows; on an input shorter than the
    discriminant or than the fields of its variant it throws the end-of-data
    error of the stream instead of returning Nil. *)
Theorem UnserializeAction_cases (vch : list byte) :
  UnserializeAction vch =
  if (length vch <? 4)%nat then Throws ios_failure
  else if discriminant vch =? 1 then
    if (length vch <? 44)%nat then Throws ios_failure
    else Returns (CBindAction (le_value (take 20 (drop 4 vch)))
                              (le_value (take 20 (drop 24 vch))))
  else if discriminant vch =? 2 then
    if (length vch <? 24)%nat then Throws ios_failure
    else Returns (CUnbindAction (le_value (take 20 (drop 4 vch))))
  else Returns CNilAction.
Proof.
  unfold UnserializeAction, discriminant, read_keyid, read.
  destruct (Nat.ltb_spec (length vch) 4) as [Hlt|Hge].
  { destruct (Nat.leb_spec 4 (length vch)); [lia|done]. }
  destruct (Nat.leb_spec 4 (length vch)); [|lia].
  destruct (to_int32 (le_value (take 4 vch)) =? 1).
  - rewrite length_drop.
    destruct (Nat.leb_spec 20 (length vch - 4)).
    + rewrite drop_drop, length_drop.
      destruct (Nat.leb_spec 20 (length vch - (4 + 20)));
        destruct (Nat.ltb_spec (length vch) 44); done || lia.
    + destruct (Nat.ltb_spec (length vch) 44); done || lia.
  - destruct (to_int32 (le_value (take 4 vch)) =? 2); [|done].
    rewrite !length_drop.
    destruct (Nat.ltb_spec (length vch) 24);
      destruct (Nat.leb_spec 20 (length vch - 4)); try done; lia.
Qed.

(** Claim C6, refuted as stated: the empty input and an input that stops after
    the discriminant of a bind make [UnserializeAction] throw, so it does not
    return on every input. *)
Lemma UnserializeAction_short_input_throws :
  UnserializeAction [] = Throws ios_failure
  ∧ UnserializeAction [1; 0; 0; 0] = Throws ios_failure
  ∧ ¬ (∀ vch, ∃ a, UnserializeAction vch = Returns a).
Proof.
  split; [done|split; [done|]].
  intros Htotal. destruct (Htotal []) as [a Ha]. discriminate.
Qed.

End CodecClaims.

Module TicketClaims.
Import Bytes Script Ticket ScriptFacts.

(** Claim C10.  For a compressed public key (33 bytes behind a header of 2 or
    3) and a lock height above 0 (an [int], so below 2^31),
    [GetPublicKeyFromScript] applied to the script of [GenerateTicketScript]
    returns [true] and that key. *)
Theorem ticket_roundtrip (k : CPubKey) (lockHeight : Z) (pubkey0 : CPubKey) :
  compressed_pubkey k → 0 < lockHeight < 2 ^ 31 →
  GetPublicKeyFromScript (GenerateTicketScript k lockHeight) pubkey0 = Returns (true, k).
Proof.
  intros Hk Hh.
  destruct (CScriptNum_serialize lockHeight Hh) as [Hnum Hlen].
  unfold GenerateTicketScript, push_scriptnum, push_opcode.
  rewrite (push_data_app _ k), (push_data_app [] (serialize lockHeight)).
  simpl app. rewrite <- !app_assoc.
  unfold GetPublicKeyFromScript.
  rewrite GetOp_push_data_small by lia.
  rewrite Hnum. destruct (Z.ltb_spec 0 lockHeight); [|lia]. cbn [negb].
  simpl app. rewrite GetOp_opcode by (unfold OP_CHECKLOCKTIMEVERIFY; lia).
  rewrite Z.eqb_refl. cbn [negb].
  rewrite GetOp_opcode by (unfold OP_DROP; lia).
  rewrite Z.eqb_refl. cbn [negb].
  destruct Hk as (Hk33 & Hkb & Hkh).
  rewrite GetOp_push_data_small by lia.
  rewrite Hk33. simpl Nat.eqb. cbv iota.
  by rewrite CPubKey_of_vch_compressed.
Qed.

End TicketClaims.

Module ActionClaims.
Import Bytes Codec Script Action Ledger ActionFacts LedgerFacts.

(** Claim C4.  Over a signature scheme whose compact signatures have 65
    bytes, recover to the signer's public key under the signed digest and
    under no other digest, and whose digest has no collisions: the signature
    that [SignAction] appends for [action] and [out] with [key], cut off the
    payload as [DecodeAction] does, verifies exactly when [action] is a bind
    or an unbind whose [from] is the identity of [key] (so a signature by any
    other key fails); a Nil action never verifies; and the signature fails for
    every other action and for every other outpoint. *)
Theorem sign_verify_correct `{Env} (out : COutPoint) (action : CAction)
    (key : Z) (vch : list byte) :
  (∀ key h s, SignCompact key h = Some s → length s = 65%nat) →
  (∀ key h s, SignCompact key h = Some s → RecoverCompact h s = Some (GetPubKey key)) →
  (∀ key h h' s pk,
     SignCompact key h = Some s → RecoverCompact h' s = Some pk → h' = h) →
  (∀ b o b' o', HashActionOut b o = HashActionOut b' o' → b = b' ∧ o = o') →
  wf_action action →
  SignAction out action key = (true, vch) →
  (VerifyAction out action (signature_of vch) = true
   ↔ action_from action = Some (GetID (GetPubKey key)))
  ∧ (∀ out' vchSig, VerifyAction out' CNilAction vchSig = false)
  ∧ (∀ action', wf_action action' → action' ≠ action →
       VerifyAction out action' (signature_of vch) = false)
  ∧ (∀ out', out' ≠ out → VerifyAction out' action (signature_of vch) = false).
Proof.
  intros Hsize Hrec Hother Hinj Hwf Hsign. repeat split.
  - apply VerifyAction_recovered, Hrec. by apply SignAction_signature.
  - apply VerifyAction_recovered, Hrec. by apply SignAction_signature.
  - intros out' vchSig. apply VerifyAction_Nil.
  - intros action' Hwf' Hne.
    apply (VerifyAction_altered Hsize Hother Hinj out action key); [done..|].
    congruence.
  - intros out' Hne.
    apply (VerifyAction_altered Hsize Hother Hinj out action key); [done..|].
    congruence.
Qed.

(** Claim C7.  When the fee a transaction pays, its summed input values less
    its total output value, is not the action fee, [DecodeAction] yields the
    Nil action and leaves [vchSig] alone, whatever the outputs hold, and
    [ConnectBlock] passes over the transaction without accepting anything. *)
Theorem DecodeAction_fee_gate `{Env} (tx : CTransaction) (vchSig : list byte) :
  FeePaid tx ≠ nActionFee →
  (DecodeAction tx vchSig).2 = Returns (CNilAction, vchSig)
  ∧ ∀ height rest relations poc21 v,
      ConnectBlock_vtx height (tx :: rest) relations poc21 v
      = ConnectBlock_vtx height rest relations poc21
          (set_debug_log (fun l => l ++ (DecodeAction tx []).1) v).
Proof.
  intros Hfee. split; [by apply DecodeAction_fee_mismatch|].
  intros height rest relations poc21 v. cbn [ConnectBlock_vtx].
  pose proof (DecodeAction_fee_mismatch tx [] Hfee) as Hnil.
  destruct (DecodeAction tx []) as [lines decoded]. simpl in Hnil. by subst decoded.
Qed.

End ActionClaims.

Module LedgerClaims.
Import Bytes Codec Script Action Ledger ActionFacts LedgerFacts RollbackFacts.

(** Claim C8, as the code has it.  [AcceptAction] returns failure exactly when
    the store refuses its batch write.  [ConnectBlock] has no result to report
    a refused write with: whether it returns or throws, and the three
    in-memory maps it leaves, are the same whatever the store answers to the
    writes; a refused write is logged only. *)
Theorem write_failure_is_only_logged `{Env} :
  (∀ height txid action relations poc21 v,
     (AcceptAction height txid action relations poc21 v).1.1 = false
     ↔ head (db_faults v) = Some true)
  ∧ (∀ height blk poc21 v faults,
       (ConnectBlock height blk poc21 (set_db_faults (fun _ => faults) v)).1
       = (ConnectBlock height blk poc21 v).1
       ∧ memory (ConnectBlock height blk poc21 (set_db_faults (fun _ => faults) v)).2
         = memory (ConnectBlock height blk poc21 v).2).
Proof.
  split.
  - intros. rewrite AcceptAction_result.
    destruct (db_faults v) as [|[] ?]; simpl; split; congruence.
  - intros. by apply ConnectBlock_memory.
Qed.


End LedgerClaims.

(** ** The ledger run on concrete blocks *)

Module Runs.
Import Bytes Codec Script Ticket Action Ledger ActionFacts LedgerFacts.
Import HistoryFacts RollbackFacts Toy.
Import CodecClaims TicketClaims ActionClaims LedgerClaims.
#[local] Existing Instance toy_env.

(** The entry of greatest height of the history of one identity. *)
Definition highest_entry (personalRelationList : gmap Z CKeyID)
  : option CPersonalHeightRelation :=
  fold_right
    (fun (e : CPersonalHeightRelation) best =>
       match best with
       | Some b => if b.1 <? e.1 then Some e else Some b
       | None => Some e
       end)
    None (map_to_list personalRelationList).

(** Invariant I1: the tip of an identity is the target of the entry of
    greatest height of its history, and there is no tip when that entry is an
    unbind (the null target) or when there is no history. *)
Definition I1 (v : CRelationView) : Prop :=
  ∀ from : CKeyID,
    relationKeyIDTip v !! from =
    match highest_entry (default ∅ (relationsHistoryMap v !! from)) with
    | Some (_, to) => if bool_decide (to = CKeyID_null) then None else Some to
    | None => None
    end.

(** The ledger block 102 is disconnected from, if the disconnect returns. *)
Definition disconnected102 (poc21 : bool) : option CRelationView :=
  DisconnectBlock 102 block102 poc21 (after102 poc21).

(** Claim C1, at a failing input.  From the ledger in which A has bound to B
    at height 100 and unbound at height 101, connecting block 102, in which A
    binds to C, and disconnecting it again restores the history map but not
    the tip maps: A had no tip and now has the null identity as its tip, and
    in legacy mode its plot id maps to the plot id of the null identity. *)
Theorem connect_disconnect_leaves_null_tip :
  ∃ w w_legacy,
    DisconnectBlock 102 block102 true (after102 true) = Some w
    ∧ DisconnectBlock 102 block102 false (after102 false) = Some w_legacy
    ∧ relationsHistoryMap w = relationsHistoryMap (after101 true)
    ∧ relationKeyIDTip (after101 true) !! A = None
    ∧ relationKeyIDTip w !! A = Some CKeyID_null
    ∧ relationKeyIDTip (after101 false) !! A = None
    ∧ relationKeyIDTip w_legacy !! A = Some CKeyID_null
    ∧ relationTip (after101 false) !! GetPlotID A = None
    ∧ relationTip w_legacy !! GetPlotID A = Some (GetPlotID CKeyID_null)
    ∧ memory w ≠ memory (after101 true)
    ∧ memory w_legacy ≠ memory (after101 false).
Proof.
  exists (default empty_view (disconnected102 true)),
         (default empty_view (disconnected102 false)).
  repeat (match goal with |- _ ∧ _ => split end);
    first [vm_compute; reflexivity|vm_compute; discriminate].
Qed.

Lemma after101_tip : relationKeyIDTip (after101 true) = ∅.
Proof. vm_compute. reflexivity. Qed.

Lemma after101_history poc21 :
  relationsHistoryMap (after101 poc21) = {[ A := {[ 100 := B; 101 := CKeyID_null ]} ]}.
Proof. destruct poc21; vm_compute; reflexivity. Qed.

(** The general statement of the defect applies to this run. *)
Lemma connect_disconnect_null_tip_run poc21 :
  ∃ w, DisconnectBlock 102 block102 poc21 (after102 poc21) = Some w
       ∧ relationKeyIDTip w !! A = Some CKeyID_null.
Proof.
  apply (connect_disconnect_null_tip 102 block102 block102 poc21 (after101 poc21)
           [(3, CBindAction A C)] A {[ 100 := B; 101 := CKeyID_null ]} 101).
  - by vm_compute.
  - intros k pl h x. rewrite after101_history.
    intros [<- <-]%lookup_singleton_Some Hx.
    apply lookup_insert_Some in Hx as [[<- _]|[_ Hx]]; [done|].
    apply lookup_singleton_Some in Hx as [<- _]. done.
  - intros k pl. rewrite after101_history.
    intros [<- <-]%lookup_singleton_Some. apply insert_non_empty.
  - intros k Hk. apply Exists_cons in Hk as [Hk|Hk]; [|by apply Exists_nil in Hk].
    injection Hk as <-. rewrite after101_history, lookup_singleton_eq. by eexists.
  - apply Exists_cons. by left.
  - by rewrite after101_history, lookup_singleton_eq.
  - split; [by vm_compute|]. intros h x Hx. simpl.
    apply lookup_insert_Some in Hx as [[<- _]|[_ Hx]]; [done|].
    apply lookup_singleton_Some in Hx as [<- _]. done.
  - destruct poc21; by vm_compute.
Qed.

(** The first action of an identity, connected and disconnected again: the
    disconnect erases the history of A while its loop stands on it, and has
    no defined result. *)
Lemma connect_disconnect_first_action_run poc21 :
  DisconnectBlock 100 block100 poc21 (ConnectBlock 100 block100 poc21 empty_view).2
  = None.
Proof. destruct poc21; vm_compute; reflexivity. Qed.

(** Claim C2, at a failing input.  I1 holds after blocks 100 and 101; after
    block 102 is connected and disconnected it does not: the entry of
    greatest height of A is the unbind of height 101, and A has a tip. *)
Theorem I1_broken_by_disconnect :
  I1 (after101 true)
  ∧ ∃ w,
      DisconnectBlock 102 block102 true (after102 true) = Some w
      ∧ highest_entry (default ∅ (relationsHistoryMap w !! A))
        = Some (101, CKeyID_null)
      ∧ relationKeyIDTip w !! A = Some CKeyID_null
      ∧ ¬ I1 w.
Proof.
  split.
  - intros from. rewrite after101_tip, after101_history, lookup_empty.
    destruct (decide (from = A)) as [->|Hne].
    + by vm_compute.
    + by rewrite lookup_singleton_ne.
  - exists (default empty_view (disconnected102 true)).
    split; [by vm_compute|split; [by vm_compute|split; [by vm_compute|]]].
    intros HI1. specialize (HI1 A). vm_compute in HI1. discriminate.
Qed.

(** A block in which A binds to the null identity. *)
Definition block_null : CBlock :=
  {| vtx := [action_tx 4 A (CBindAction A CKeyID_null) 400000000]; block_hash := 100 |}.

(** The ledger at start-up: nothing in memory, and the store as
    [ConnectBlock] of [block_null] at height 100 left it. *)
Definition restarted (poc21 : bool) : CRelationView :=
  set_db_active_action
    (fun _ => db_active_action (ConnectBlock 100 block_null poc21 empty_view).2)
    empty_view.

(** Claim C3, at a failing input.  The bind of A to the null identity is
    signed by A, so [ConnectBlock] accepts it: A gets the null identity as
    its tip, and the change stored for the height has the null target.
    [LoadRelationFromDisk] reads that change back as an unbind: on the empty
    ledger with that store it leaves A without a tip (and in legacy mode the
    plot id of A without an entry), so the maps it builds are not the ones
    [ConnectBlock] built from the same block on the same ledger. *)
Theorem LoadRelationFromDisk_drops_null_bind :
  accepted_actions (vtx block_null) = Returns [(4, CBindAction A CKeyID_null)]
  ∧ db_active_action (ConnectBlock 100 block_null true empty_view).2 !! 100
    = Some [(4, (A, CKeyID_null))]
  ∧ memory (restarted true) = memory empty_view
  ∧ (LoadRelationFromDisk 100 true (restarted true)).1 = true
  ∧ relationKeyIDTip (ConnectBlock 100 block_null true empty_view).2 !! A
    = Some CKeyID_null
  ∧ relationKeyIDTip (LoadRelationFromDisk 100 true (restarted true)).2 !! A = None
  ∧ relationTip (ConnectBlock 100 block_null false empty_view).2 !! GetPlotID A
    = Some (GetPlotID CKeyID_null)
  ∧ relationTip (LoadRelationFromDisk 100 false (restarted false)).2 !! GetPlotID A
    = None
  ∧ relationsHistoryMap (LoadRelationFromDisk 100 true (restarted true)).2
    = relationsHistoryMap (ConnectBlock 100 block_null true empty_view).2
  ∧ memory (LoadRelationFromDisk 100 true (restarted true)).2
    ≠ memory (ConnectBlock 100 block_null true empty_view).2
  ∧ memory (LoadRelationFromDisk 100 false (restarted false)).2
    ≠ memory (ConnectBlock 100 block_null false empty_view).2.
Proof.
  repeat (match goal with |- _ ∧ _ => split end);
    first [vm_compute; reflexivity|vm_compute; discriminate].
Qed.



(** Claim C8, refuted as stated.  With a store that refuses every write,
    [AcceptAction] returns failure for the bind of block 100, and
    [ConnectBlock] returns as it does with a sound store, with the bind in the
    tip map and nothing stored for the height. *)
Lemma ConnectBlock_hides_write_failure :
  (AcceptAction 100 1 (CBindAction A B) [] true failing_store).1.1 = false
  ∧ (ConnectBlock 100 block100 true failing_store).1 = Returns tt
  ∧ (ConnectBlock 100 block100 true empty_view).1 = Returns tt
  ∧ relationKeyIDTip (ConnectBlock 100 block100 true failing_store).2 !! A = Some B
  ∧ db_active_action (ConnectBlock 100 block100 true failing_store).2 !! 100 = None
  ∧ db_active_action (ConnectBlock 100 block100 true empty_view).2 !! 100
    = Some [(1, (A, B))].
Proof. repeat split; vm_compute; reflexivity. Qed.

(** A transaction of the right shape and fee whose carrier script stops after
    [OP_RETURN], or carries too few bytes, makes [DecodeAction] throw, and
    [ConnectBlock] with it. *)
Lemma ConnectBlock_short_payload_throws :
  (DecodeAction (payload_tx 5 []) []).2 = Throws ios_failure
  ∧ (DecodeAction (payload_tx 5 [1; 0; 0; 0]) []).2 = Throws ios_failure
  ∧ (ConnectBlock 100 {| vtx := [payload_tx 5 []]; block_hash := 100 |} true
       empty_view).1 = Throws ios_failure.
Proof. repeat split; vm_compute; reflexivity. Qed.

(** The entries of a map come out in the order of the keys. *)
Lemma in_key_order_run :
  in_key_order ({[ C := A; A := B; B := C ]} : gmap Z CKeyID)
  = [(A, B); (B, C); (C, A)]
  ∧ ListRelations
      (set_relationKeyIDTip (fun _ => {[ C := A; A := B; B := C ]}) empty_view)
    = [(A, B); (B, C); (C, A)].
Proof. split; vm_compute; reflexivity. Qed.

Lemma action_codec_roundtrip_witness :
  UnserializeAction (SerializeAction (CBindAction A B)) = Returns (CBindAction A B).
Proof.
  apply (action_codec_roundtrip (CBindAction A B)).
  unfold wf_action, wf_keyid, A, B. lia.
Defined.

Lemma ticket_roundtrip_witness :
  GetPublicKeyFromScript (GenerateTicketScript (toy_pubkey 7) 500) []
  = Returns (true, toy_pubkey 7).
Proof.
  apply ticket_roundtrip; [|lia].
  split; [reflexivity|]. split.
  - unfold toy_pubkey. constructor; [unfold is_byte; lia|]. apply le_bytes_is_byte.
  - eexists _, _. split; [reflexivity|by left].
Defined.

Lemma sign_verify_correct_witness :
  VerifyAction {| hash := 1001; n := 0 |} (CUnbindAction A)
    (signature_of (SignAction {| hash := 1001; n := 0 |} (CUnbindAction A) 7).2) = true.
Proof.
  apply (sign_verify_correct (H:=toy_env) {| hash := 1001; n := 0 |} (CUnbindAction A) 7
           (SignAction {| hash := 1001; n := 0 |} (CUnbindAction A) 7).2
           toy_sign_size toy_recover_signed toy_recover_other_digest toy_hash_inj).
  - unfold wf_action, wf_keyid, A. lia.
  - reflexivity.
  - reflexivity.
Defined.

Lemma DecodeAction_fee_gate_witness :
  (DecodeAction (action_tx 1 A (CBindAction A C) 400000001) []).2
  = Returns (CNilAction, []).
Proof.
  apply (DecodeAction_fee_gate (action_tx 1 A (CBindAction A C) 400000001) []).
  vm_compute. discriminate.
Defined.


End Runs.

(** * Further properties of the code *)

(** ** The action codec *)

Module CodecProps.
Import Bytes Codec Action ScriptFacts.

Lemma le_bytes_le_value (l : list byte) :
  Forall is_byte l → le_bytes (length l) (le_value l) = l.
Proof.
  induction 1 as [|b l [Hb0 Hb1] Hl IH]; [done|].
  cbn [length le_value le_bytes].
  replace ((b + 256 * le_value l) mod 256) with b
    by (rewrite (Z.mul_comm 256), Z.mod_add by lia; by rewrite Z.mod_small).
  replace ((b + 256 * le_value l) / 256) with (le_value l)
    by (rewrite (Z.mul_comm 256), Z.div_add by lia;
        rewrite (Z.div_small b) by lia; lia).
  by rewrite IH.
Qed.

Lemma le_value_bound (l : list byte) :
  Forall is_byte l → 0 ≤ le_value l < 256 ^ Z.of_nat (length l).
Proof.
  induction 1 as [|b l [Hb0 Hb1] Hl IH]; [simpl; lia|].
  cbn [length le_value]. rewrite Nat2Z.inj_succ, Z.pow_succ_r by lia. lia.
Qed.

Lemma read_is_byte n s a r :
  Forall is_byte s → read n s = Some (a, r) →
  Forall is_byte a ∧ Forall is_byte r ∧ length a = n ∧ s = a ++ r.
Proof.
  intros Hs Hread. apply read_Some in Hread as [-> Hlen].
  apply Forall_app in Hs as [??]. done.
Qed.

Lemma read_keyid_wf s k r :
  Forall is_byte s → read_keyid s = Some (k, r) →
  wf_keyid k ∧ Forall is_byte r ∧ s = le_bytes 20 k ++ r.
Proof.
  unfold read_keyid. intros Hs.
  destruct (read 20 s) as [[a r']|] eqn:Hread; [|done].
  intros [= <- <-].
  destruct (read_is_byte _ _ _ _ Hs Hread) as (Ha & Hr & Hlen & ->).
  pose proof (le_value_bound a Ha) as Hb. rewrite Hlen in Hb.
  repeat split; [lia|apply Hb|done|].
  by rewrite <- Hlen, le_bytes_le_value.
Qed.

Lemma discriminant_bytes (b : list byte) (d : Z) :
  Forall is_byte b → length b = 4%nat → 0 ≤ d < 2 ^ 31 →
  to_int32 (le_value b) = d → b = le_bytes 4 d.
Proof.
  intros Hb Hlen Hd Hv.
  pose proof (le_value_bound b Hb) as Hbound. rewrite Hlen in Hbound.
  unfold to_int32 in Hv.
  destruct (Z.ltb_spec (le_value b) (2 ^ 31)); [|change (256 ^ Z.of_nat 4) with (2 ^ 32) in Hbound; lia].
  rewrite <- Hv, <- Hlen. by rewrite le_bytes_le_value.
Qed.

(** Property X1.  The decoder reads an action off the front of its input and
    ignores what follows: whatever is appended to the encoding of an action
    (identities being 160-bit values), it decodes to the action; so the
    payload [SignAction] builds decodes to the signed action, whether the
    signing succeeds or not; and the encodings are prefix-free: equal
    payloads carry equal actions and equal appendices. *)
Theorem UnserializeAction_ignores_appendix `{Env} (a : CAction) :
  wf_action a →
  (∀ r, UnserializeAction (SerializeAction a ++ r) = Returns a)
  ∧ (∀ out key, UnserializeAction (SignAction out a key).2 = Returns a)
  ∧ (∀ b r r', wf_action b →
       SerializeAction a ++ r = SerializeAction b ++ r' → a = b ∧ r = r').
Proof.
  intros Hwf. split; [|split].
  - intros r. by apply UnserializeAction_SerializeAction_app.
  - intros out key. unfold SignAction.
    destruct (SignCompact key _) as [sig|]; cbn [snd].
    + by apply UnserializeAction_SerializeAction_app.
    + rewrite <- (app_nil_r (SerializeAction a)).
      by apply UnserializeAction_SerializeAction_app.
  - intros b r r' Hb Heq.
    pose proof (UnserializeAction_SerializeAction_app a r Hwf) as Ha.
    rewrite Heq, (UnserializeAction_SerializeAction_app b r' Hb) in Ha.
    injection Ha as <-. split; [done|]. by apply app_inv_head in Heq.
Qed.

(** Property X2.  What [UnserializeAction] returns from bytes is a
    well-formed action whose encoding, for a bind or an unbind, is the front
    of the input: decoding loses nothing but the appendix. *)
Theorem UnserializeAction_canonical (vch : list byte) (a : CAction) :
  Forall is_byte vch →
  UnserializeAction vch = Returns a →
  wf_action a
  ∧ (a ≠ CNilAction → ∃ r, vch = SerializeAction a ++ r).
Proof.
  intros Hvch. unfold UnserializeAction.
  destruct (read 4 vch) as [[b s1]|] eqn:Hread; [|done].
  destruct (read_is_byte _ _ _ _ Hvch Hread) as (Hb & Hs1 & Hlen & ->).
  destruct (Z.eqb_spec (to_int32 (le_value b)) 1) as [H1|H1].
  - destruct (read_keyid s1) as [[from s2]|] eqn:Hfrom; [|done].
    destruct (read_keyid_wf _ _ _ Hs1 Hfrom) as (Hwf1 & Hs2 & ->).
    destruct (read_keyid s2) as [[to s3]|] eqn:Hto; [|done].
    destruct (read_keyid_wf _ _ _ Hs2 Hto) as (Hwf2 & Hs3 & ->).
    intros [= <-]. split; [done|]. intros _. exists s3.
    unfold SerializeAction. cbn [which CActionVisitor].
    rewrite (discriminant_bytes b 1 Hb Hlen ltac:(lia) H1).
    by rewrite <- !app_assoc.
  - destruct (Z.eqb_spec (to_int32 (le_value b)) 2) as [H2|H2].
    + destruct (read_keyid s1) as [[from s2]|] eqn:Hfrom; [|done].
      destruct (read_keyid_wf _ _ _ Hs1 Hfrom) as (Hwf1 & Hs2 & ->).
      intros [= <-]. split; [done|]. intros _. exists s2.
      unfold SerializeAction. cbn [which CActionVisitor].
      by rewrite (discriminant_bytes b 2 Hb Hlen ltac:(lia) H2).
    + intros [= <-]. by split.
Qed.

End CodecProps.

(** ** The extraction of actions from transactions *)

Module ExtractionProps.
Import Bytes Codec Script Action Ledger ScriptFacts ActionFacts LedgerFacts.

Local Ltac use_read H :=
  match type of H with
  | _ = ?r =>
      match goal with
      | |- context [read ?k ?l] =>
          replace (read k l) with r by (symmetry; exact H); done
      end
  end.

(** What [GetOp] reads back from a data push of any length below 2^32. *)
Lemma GetOp_push_data (b rest : list byte) :
  Z.of_nat (length b) < 2 ^ 32 →
  ∃ opcode, GetOp (push_data [] b ++ rest) = Some (opcode, b, rest).
Proof.
  intros Hlen. unfold push_data, OP_PUSHDATA1. cbn [app].
  set (n := Z.of_nat (length b)) in *.
  assert (read (Z.to_nat n) (b ++ rest) = Some (b, rest)) as Hread.
  { apply read_app. unfold n. by rewrite Nat2Z.id. }
  destruct (Z.ltb_spec n 76).
  { exists n. cbn [app]. unfold GetOp, OP_PUSHDATA4, OP_PUSHDATA1.
    destruct (Z.leb_spec n 78); [|lia]. destruct (Z.ltb_spec n 76); [|lia].
    use_read Hread. }
  destruct (Z.leb_spec n 255).
  { exists 76. cbn [app]. unfold GetOp, OP_PUSHDATA4, OP_PUSHDATA1, OP_PUSHDATA2.
    change (76 <=? 78) with true. change (76 <? 76) with false.
    change (76 =? 76) with true. cbv iota.
    change (n :: b ++ rest) with ([n] ++ (b ++ rest)).
    rewrite (read_app 1 [n]) by done. cbn [le_value].
    replace (n + 256 * 0) with n by lia. use_read Hread. }
  destruct (Z.leb_spec n 65535).
  { exists 77. cbn [app]. unfold GetOp, OP_PUSHDATA4, OP_PUSHDATA1, OP_PUSHDATA2.
    change (77 <=? 78) with true. change (77 <? 76) with false.
    change (77 =? 76) with false. change (77 =? 77) with true. cbv iota.
    rewrite <- app_assoc, read_app by apply length_le_bytes.
    rewrite le_value_le_bytes_small by (change (256 ^ Z.of_nat 2) with 65536; lia).
    use_read Hread. }
  exists 78. cbn [app]. unfold GetOp, OP_PUSHDATA4, OP_PUSHDATA1, OP_PUSHDATA2.
  change (78 <=? 78) with true. change (78 <? 76) with false.
  change (78 =? 76) with false. change (78 =? 77) with false. cbv iota.
  rewrite <- app_assoc, read_app by apply length_le_bytes.
  rewrite le_value_le_bytes_small by (change (256 ^ Z.of_nat 4) with (2 ^ 32); lia).
  use_read Hread.
Qed.

(** The script of a carrier output: [OP_RETURN] and the payload as one
    push. *)
Definition carrier_script (payload : list byte) : CScript :=
  push_data (push_opcode [] OP_RETURN) payload.

Section WithEnv.
Context `{Env}.

Lemma DecodeAction_vout_carrier (o : CTxOut) rest payload action (vchSig : list byte) :
  nValue o = 0 →
  scriptPubKey o = carrier_script payload →
  Z.of_nat (length payload) < 2 ^ 32 →
  UnserializeAction payload = Returns action →
  (65 ≤ length payload)%nat →
  DecodeAction_vout (o :: rest) vchSig
  = Returns (action, drop (length payload - 65) payload).
Proof.
  intros Hval Hscript Hlen Hdec H65. cbn [DecodeAction_vout].
  rewrite Hval, Hscript. cbn [Z.eqb negb].
  unfold carrier_script, push_opcode. rewrite push_data_app. cbn [app].
  rewrite GetOp_opcode by (unfold OP_RETURN; lia).
  rewrite Z.eqb_refl. cbn [negb].
  destruct (GetOp_push_data payload [] Hlen) as [opcode Hop].
  rewrite app_nil_r in Hop. rewrite Hop, Hdec.
  destruct (Nat.ltb_spec (length payload) 65); [lia|done].
Qed.

Lemma DecodeAction_vout_skip (o : CTxOut) rest (vchSig : list byte) :
  nValue o ≠ 0 → DecodeAction_vout (o :: rest) vchSig = DecodeAction_vout rest vchSig.
Proof.
  intros Hv. cbn [DecodeAction_vout]. by destruct (Z.eqb_spec (nValue o) 0).
Qed.

(** The first zero-value output of a pair of outputs. *)
Definition first_zero_output (vouts : list CTxOut) (o : CTxOut) : Prop :=
  ∃ o0 o1,
    vouts = [o0; o1]
    ∧ ((nValue o0 = 0 ∧ o = o0) ∨ (nValue o0 ≠ 0 ∧ nValue o1 = 0 ∧ o = o1)).

(** The outputs of a transaction whose first zero-value output is the
    carrier of [payload]. *)
Definition carries (vouts : list CTxOut) (payload : list byte) : Prop :=
  ∃ o, first_zero_output vouts o ∧ scriptPubKey o = carrier_script payload.

Lemma DecodeAction_vout_first_zero vouts o vchSig :
  first_zero_output vouts o →
  ∃ rest, DecodeAction_vout vouts vchSig = DecodeAction_vout (o :: rest) vchSig
          ∧ nValue o = 0.
Proof.
  intros (o0 & o1 & -> & [[Hv ->]|(Hv0 & Hv1 & ->)]).
  - by exists [o1].
  - exists []. by rewrite DecodeAction_vout_skip.
Qed.

Lemma DecodeAction_carries tx payload action sig vchSig :
  action_shape tx = true →
  FeePaid tx = nActionFee →
  carries (vout tx) (payload ++ sig) →
  length sig = 65%nat →
  Z.of_nat (length payload) < 2 ^ 31 →
  UnserializeAction (payload ++ sig) = Returns action →
  DecodeAction tx vchSig = ([], Returns (action, sig)).
Proof.
  intros Hshape Hfee (o & Hfirst & Hscript) Hsig Hlen Hdec.
  unfold DecodeAction. rewrite Hshape, Hfee, Z.eqb_refl. cbn [negb]. f_equal.
  destruct (DecodeAction_vout_first_zero _ _ vchSig Hfirst) as (rest & -> & Hv).
  rewrite (DecodeAction_vout_carrier o rest (payload ++ sig) action); try done.
  - rewrite length_app, Hsig.
    replace (length payload + 65 - 65)%nat with (length payload) by lia.
    by rewrite drop_app_length.
  - rewrite length_app, Hsig. lia.
  - rewrite length_app. lia.
Qed.

(** A payload too short for its own discriminant, in the first zero-value
    output behind [OP_RETURN], makes [DecodeAction] throw. *)
Lemma DecodeAction_short_payload tx o d pc vchSig :
  action_shape tx = true →
  FeePaid tx = nActionFee →
  first_zero_output (vout tx) o →
  GetOp (scriptPubKey o) = Some (OP_RETURN, d, pc) →
  (length (match GetOp pc with Some (_, v, _) => v | None => [] end) < 4)%nat →
  DecodeAction tx vchSig = ([], Throws ios_failure).
Proof.
  intros Hshape Hfee Hfirst Hop Hshort.
  unfold DecodeAction. rewrite Hshape, Hfee, Z.eqb_refl. cbn [negb]. f_equal.
  destruct (DecodeAction_vout_first_zero _ _ vchSig Hfirst) as (rest & -> & Hv).
  cbn [DecodeAction_vout]. rewrite Hv, Hop, Z.eqb_refl. cbn [negb Z.eqb].
  by rewrite UnserializeAction_short.
Qed.

Lemma DecodeAction_vout_inv vouts vchSig action vchSig' :
  DecodeAction_vout vouts vchSig = Returns (action, vchSig') →
  action ≠ CNilAction →
  ∃ o d pc vchRet,
    o ∈ vouts ∧ nValue o = 0
    ∧ GetOp (scriptPubKey o) = Some (OP_RETURN, d, pc)
    ∧ vchRet = match GetOp pc with Some (_, v, _) => v | None => [] end
    ∧ UnserializeAction vchRet = Returns action
    ∧ (65 ≤ length vchRet)%nat
    ∧ vchSig' = drop (length vchRet - 65) vchRet.
Proof.
  intros Hdec Hnn. induction vouts as [|o rest IH]; cbn [DecodeAction_vout] in Hdec.
  { injection Hdec as <- _. done. }
  assert (DecodeAction_vout rest vchSig = Returns (action, vchSig') →
          ∃ o' d pc vchRet, o' ∈ o :: rest ∧ nValue o' = 0
            ∧ GetOp (scriptPubKey o') = Some (OP_RETURN, d, pc)
            ∧ vchRet = match GetOp pc with Some (_, v, _) => v | None => [] end
            ∧ UnserializeAction vchRet = Returns action
            ∧ (65 ≤ length vchRet)%nat
            ∧ vchSig' = drop (length vchRet - 65) vchRet) as Hrest.
  { intros Hr. destruct (IH Hr) as (o' & d & pc & vchRet & Hin & Hrestconds).
    exists o', d, pc, vchRet. split; [by right|done]. }
  destruct (Z.eqb_spec (nValue o) 0) as [Hv|Hv]; cbn [negb] in Hdec; [|by apply Hrest].
  destruct (GetOp (scriptPubKey o)) as [[[opcodeRet d] pc]|] eqn:Hop; [|by apply Hrest].
  destruct (Z.eqb_spec opcodeRet OP_RETURN) as [->|Hne]; cbn [negb] in Hdec;
    [|by apply Hrest].
  destruct (UnserializeAction _) as [action'|e] eqn:Hun; [|done].
  destruct (Nat.ltb_spec (length (match GetOp pc with Some (_, v, _) => v | None => [] end)) 65)
    as [Hshort|Hlong]; [by apply Hrest|].
  injection Hdec as <- <-.
  exists o, d, pc, (match GetOp pc with Some (_, v, _) => v | None => [] end).
  repeat split; try done. by left.
Qed.


(** Property X3.  [DecodeAction] gives an action other than Nil only for a
    transaction that is no coinbase, has exactly two outputs, pays exactly the
    action fee and has a zero-value output that starts with [OP_RETURN]; it
    then logs nothing and hands back a signature of exactly 65 bytes. *)
Theorem DecodeAction_only_from_carrier (tx : CTransaction) (vchSig : list byte)
    (action : CAction) (vchSig' : list byte) :
  (DecodeAction tx vchSig).2 = Returns (action, vchSig') →
  action ≠ CNilAction →
  IsCoinBase tx = false
  ∧ length (vout tx) = 2%nat
  ∧ FeePaid tx = nActionFee
  ∧ (DecodeAction tx vchSig).1 = []
  ∧ length vchSig' = 65%nat
  ∧ ∃ o d pc, o ∈ vout tx ∧ nValue o = 0
              ∧ GetOp (scriptPubKey o) = Some (OP_RETURN, d, pc).
Proof.
  unfold DecodeAction. intros Hdec Hnn.
  destruct (action_shape tx) eqn:Hshape; cbn [negb] in *;
    [|injection Hdec as <- _; done].
  destruct (Z.eqb_spec (FeePaid tx) nActionFee) as [Hfee|Hfee]; cbn [negb snd fst] in *;
    [|injection Hdec as <- _; done].
  unfold action_shape in Hshape.
  apply andb_true_iff in Hshape as [Hshape Hvout].
  apply andb_true_iff in Hshape as [Hcb _].
  apply negb_true_iff in Hcb.
  destruct (DecodeAction_vout_inv _ _ _ _ Hdec Hnn)
    as (o & d & pc & vchRet & Hin & Hv & Hop & _ & _ & H65 & ->).
  repeat split; try done.
  - by destruct (vout tx) as [|? [|? [|]]].
  - rewrite length_drop. lia.
  - by exists o, d, pc.
Qed.

End WithEnv.
End ExtractionProps.

(** ** The ledger and its store *)

Module LedgerProps.
Import Bytes Codec Script Action Ledger ScriptFacts ActionFacts LedgerFacts.
Import HistoryFacts RollbackFacts.

Section WithEnv.
Context `{Env}.

(** The records of the plot id registry that accepting [action] writes. *)
Definition registry_batch (action : CAction) (poc21 : bool) : list (Z * CKeyID) :=
  match action with
  | CBindAction from to =>
      if poc21 then [] else [(GetPlotID from, from); (GetPlotID to, to)]
  | _ => []
  end.

Lemma AcceptAction_store height txid action relations poc21 v :
  let r := AcceptAction height txid action relations poc21 v in
  db_active_action r.2 = db_active_action v
  ∧ db_faults r.2 = drop 1 (db_faults v)
  ∧ db_relationid r.2
    = if r.1.1
      then fold_left (fun m kv => <[kv.1 := kv.2]> m) (registry_batch action poc21)
             (db_relationid v)
      else db_relationid v.
Proof.
  unfold AcceptAction, WriteBatch, db_write, registry_batch.
  destruct action as [|from to|from], poc21, v as [? ? ? ? ? ? [|[] ?] ?]; done.
Qed.

Lemma To_poc21 from plotid v :
  (To from plotid true v).1 = default CKeyID_null (relationKeyIDTip v !! from).
Proof. unfold To. by destruct (relationKeyIDTip v !! from). Qed.

Lemma To_legacy from plotid v :
  (To from plotid false v).1
  = default CKeyID_null (relationTip v !! plotid ≫= fun p => db_relationid v !! p).
Proof.
  unfold To. destruct (relationTip v !! plotid) as [p|]; [|done]. simpl.
  by destruct (db_relationid v !! p).
Qed.

Lemma relationKeyIDTip_memory v : relationKeyIDTip v = (memory v).1.2.
Proof. done. Qed.

Lemma relationTip_memory v : relationTip v = (memory v).1.1.
Proof. done. Qed.

Lemma relationsHistoryMap_memory v : relationsHistoryMap v = (memory v).2.
Proof. done. Qed.

(** Property X4.  After [AcceptAction] of a bind, [To] answers the target:
    by identity in every case, and by plot id when the bind was accepted in
    legacy mode and its registry write went through; when that write was
    refused and the registry has no record for the plot id of the target, the
    legacy answer is the null identity although the bind is in the tip maps.
    After an unbind, [To] answers the null identity either way. *)
Theorem AcceptAction_then_To (height : Z) (txid : uint256) (from to : CKeyID)
    (relations : list CRelation) (v : CRelationView) :
  (∀ poc21 plotid,
     (To from plotid true
         (AcceptAction height txid (CBindAction from to) relations poc21 v).2).1 = to)
  ∧ ((AcceptAction height txid (CBindAction from to) relations false v).1.1 = true →
     (To from (GetPlotID from) false
         (AcceptAction height txid (CBindAction from to) relations false v).2).1 = to)
  ∧ ((AcceptAction height txid (CBindAction from to) relations false v).1.1 = false →
     db_relationid v !! GetPlotID to = None →
     (To from (GetPlotID from) false
         (AcceptAction height txid (CBindAction from to) relations false v).2).1
     = CKeyID_null
     ∧ relationTip (AcceptAction height txid (CBindAction from to) relations false v).2
         !! GetPlotID from = Some (GetPlotID to))
  ∧ (∀ poc21 plotid,
     (To from plotid true
         (AcceptAction height txid (CUnbindAction from) relations poc21 v).2).1
     = CKeyID_null)
  ∧ (To from (GetPlotID from) false
        (AcceptAction height txid (CUnbindAction from) relations false v).2).1
    = CKeyID_null.
Proof.
  split; [|split; [|split; [|split]]].
  - intros poc21 plotid.
    rewrite To_poc21, relationKeyIDTip_memory, AcceptAction_memory. simpl.
    by rewrite lookup_insert_eq.
  - intros Hok. rewrite To_legacy.
    destruct (AcceptAction_store height txid (CBindAction from to) relations false v)
      as (_ & _ & Hreg).
    rewrite Hok in Hreg. rewrite Hreg, relationTip_memory, AcceptAction_memory.
    simpl. rewrite lookup_insert_eq. simpl. by rewrite lookup_insert_eq.
  - intros Hrefused Hnone. split.
    + rewrite To_legacy.
      destruct (AcceptAction_store height txid (CBindAction from to) relations false v)
        as (_ & _ & Hreg).
      rewrite Hrefused in Hreg. rewrite Hreg, relationTip_memory, AcceptAction_memory.
      simpl. rewrite lookup_insert_eq. simpl. by rewrite Hnone.
    + rewrite relationTip_memory, AcceptAction_memory. simpl.
      by rewrite lookup_insert_eq.
  - intros poc21 plotid.
    rewrite To_poc21, relationKeyIDTip_memory, AcceptAction_memory. simpl.
    by rewrite lookup_delete_eq.
  - rewrite To_legacy, relationTip_memory, AcceptAction_memory. simpl.
    by rewrite lookup_delete_eq.
Qed.

(** Property X5.  [AcceptAction] changes the in-memory maps in the same way
    whatever the store answers to its write; when the write is refused it
    returns failure and leaves both tables of the store as they were; it
    never touches the undo log; and a bind writes registry records in legacy
    mode only. *)
Theorem AcceptAction_memory_despite_store (height : Z) (txid : uint256)
    (action : CAction) (relations : list CRelation) (poc21 : bool)
    (v : CRelationView) (faults : list bool) :
  memory (AcceptAction height txid action relations poc21
            (set_db_faults (fun _ => faults) v)).2
  = memory (AcceptAction height txid action relations poc21 v).2
  ∧ (AcceptAction height txid action relations poc21
       (set_db_faults (fun _ => true :: faults) v)).1.1 = false
  ∧ db_relationid (AcceptAction height txid action relations poc21
                     (set_db_faults (fun _ => true :: faults) v)).2
    = db_relationid v
  ∧ db_active_action (AcceptAction height txid action relations poc21
                        (set_db_faults (fun _ => faults) v)).2
    = db_active_action v
  ∧ db_relationid (AcceptAction height txid action relations true v).2
    = db_relationid v.
Proof.
  repeat split.
  - by rewrite !AcceptAction_memory.
  - by rewrite AcceptAction_result.
  - destruct (AcceptAction_store height txid action relations poc21
                (set_db_faults (fun _ => true :: faults) v)) as (_ & _ & ->).
    by rewrite AcceptAction_result.
  - by destruct (AcceptAction_store height txid action relations poc21
                   (set_db_faults (fun _ => faults) v)) as (-> & _ & _).
  - destruct (AcceptAction_store height txid action relations true v) as (_ & _ & ->).
    destruct (AcceptAction _ _ _ _ _ _).1.1; [|done]. by destruct action.
Qed.

End WithEnv.
End LedgerProps.

Module BlockProps.
Import Bytes Codec Script Action Ledger ScriptFacts ActionFacts LedgerFacts.
Import HistoryFacts RollbackFacts ExtractionProps LedgerProps.

Section WithEnv.
Context `{Env}.

Lemma set_debug_log_nil v : set_debug_log (fun l => l ++ []) v = v.
Proof. destruct v. unfold set_debug_log. simpl. by rewrite app_nil_r. Qed.

Lemma accepted_actions_cons_Returns tx rest acts :
  accepted_actions (tx :: rest) = Returns acts →
  ∃ action vchSig,
    (DecodeAction tx []).2 = Returns (action, vchSig)
    ∧ ((action = CNilAction ∧ accepted_actions rest = Returns acts)
       ∨ (action ≠ CNilAction ∧ ∃ i ins, vin tx = i :: ins
          ∧ ((VerifyAction (prevout i) action vchSig = false
              ∧ accepted_actions rest = Returns acts)
             ∨ (VerifyAction (prevout i) action vchSig = true
                ∧ ∃ acts', accepted_actions rest = Returns acts'
                           ∧ acts = (tx_hash tx, action) :: acts')))).
Proof.
  cbn [accepted_actions].
  destruct (DecodeAction tx []).2 as [[action vchSig]|e]; [|done].
  intros Hacc. exists action, vchSig. split; [done|].
  case_bool_decide as Hnil; [by left|right]. split; [done|].
  destruct (vin tx) as [|i ins]; [done|]. exists i, ins. split; [done|].
  destruct (VerifyAction (prevout i) action vchSig); [right|by left].
  split; [done|].
  destruct (accepted_actions rest) as [acts'|]; [|done].
  injection Hacc as <-. by exists acts'.
Qed.

(** The loop of [ConnectBlock] over a list of transactions that starts with
    transactions none of which throws. *)
Lemma ConnectBlock_vtx_prefix height pre suffix relations poc21 v acts :
  accepted_actions pre = Returns acts →
  ∃ v1,
    ConnectBlock_vtx height (pre ++ suffix) relations poc21 v
    = ConnectBlock_vtx height suffix (relations ++ relations_of acts) poc21 v1
    ∧ memory v1 = accept_all height poc21 acts (memory v)
    ∧ db_active_action v1 = db_active_action v
    ∧ (db_faults v = [] → db_faults v1 = []).
Proof.
  revert relations v acts.
  induction pre as [|tx pre IH]; intros relations v acts Hacc.
  { injection Hacc as <-. exists v. by rewrite app_nil_r. }
  destruct (accepted_actions_cons_Returns _ _ _ Hacc)
    as (action & vchSig & Hdec & Hcases).
  cbn [app ConnectBlock_vtx].
  destruct (DecodeAction tx []) as [lines decoded]. cbn [snd] in Hdec. subst decoded.
  destruct Hcases as [[-> Hrest]|(Hnn & i & ins & Hvin & Hver)].
  - rewrite bool_decide_eq_true_2 by done.
    destruct (IH relations (set_debug_log (fun l => l ++ lines) v) acts Hrest)
      as (v1 & -> & Hm & Hdb & Hf).
    by exists v1.
  - rewrite bool_decide_eq_false_2 by done. rewrite Hvin.
    destruct Hver as [[-> Hrest]|(-> & acts' & Hrest & ->)].
    + match goal with |- context [ConnectBlock_vtx _ _ ?r _ ?w] =>
        destruct (IH r w acts Hrest) as (v1 & -> & Hm & Hdb & Hf) end.
      by exists v1.
    + match goal with |- context [AcceptAction ?h ?t ?a ?r ?p ?w] =>
        pose proof (AcceptAction_memory h t a r p w) as Hm1;
        pose proof (AcceptAction_relations h t a r p w) as Hr1;
        pose proof (AcceptAction_result h t a r p w) as Hok1;
        destruct (AcceptAction_store h t a r p w) as (Hdb1 & Hf1 & _);
        destruct (AcceptAction h t a r p w) as [[ok1 rel1] w1] end.
      cbn [fst snd] in *. subst rel1.
      match goal with |- context [ConnectBlock_vtx _ _ ?r _ ?w] =>
        destruct (IH r w acts' Hrest) as (v1 & -> & Hm & Hdb & Hf) end.
      exists v1. split; [|split; [|split]].
      * unfold relations_of. simpl. by rewrite app_assoc.
      * rewrite Hm. unfold accept_all. simpl. f_equal.
        destruct ok1; rewrite ?memory_log, Hm1; done.
      * rewrite Hdb. by destruct ok1.
      * intros Hv. apply Hf. destruct ok1; simpl; rewrite Hf1; simpl; by rewrite Hv.
Qed.

(** Property X6.  An exception of [DecodeAction] ends [ConnectBlock] at once:
    the actions accepted from the transactions before it stay applied to the
    in-memory maps, and nothing is stored for the height. *)
Theorem ConnectBlock_throw_keeps_earlier (height : Z) (pre rest : list CTransaction)
    (tx : CTransaction) (bh : uint256) (poc21 : bool) (v : CRelationView)
    (acts : list (uint256 * CAction)) (e : exn) :
  accepted_actions pre = Returns acts →
  (DecodeAction tx []).2 = Throws e →
  (ConnectBlock height {| vtx := pre ++ tx :: rest; block_hash := bh |} poc21 v).1
  = Throws e
  ∧ memory (ConnectBlock height {| vtx := pre ++ tx :: rest; block_hash := bh |}
              poc21 v).2
    = accept_all height poc21 acts (memory v)
  ∧ db_active_action (ConnectBlock height {| vtx := pre ++ tx :: rest; block_hash := bh |}
                        poc21 v).2
    = db_active_action v.
Proof.
  intros Hacc Hthrow. unfold ConnectBlock. cbn [vtx].
  destruct (ConnectBlock_vtx_prefix height pre (tx :: rest) [] poc21 v acts Hacc)
    as (v1 & -> & Hm & Hdb & _).
  cbn [ConnectBlock_vtx].
  destruct (DecodeAction tx []) as [lines decoded]. cbn [snd] in Hthrow. subst decoded.
  cbn [fst snd]. done.
Qed.

Lemma ConnectBlock_stored height blk poc21 v acts :
  accepted_actions (vtx blk) = Returns acts →
  db_faults v = [] →
  db_active_action (ConnectBlock height blk poc21 v).2
  = match relations_of acts with
    | [] => db_active_action v
    | _ => <[height := relations_of acts]> (db_active_action v)
    end
  ∧ db_faults (ConnectBlock height blk poc21 v).2 = [].
Proof.
  intros Hacc Hsound. unfold ConnectBlock.
  destruct (ConnectBlock_vtx_prefix height (vtx blk) [] [] poc21 v acts Hacc)
    as (v1 & Heq & _ & Hdb & Hf).
  rewrite app_nil_r in Heq. rewrite Heq. cbn [ConnectBlock_vtx app].
  specialize (Hf Hsound).
  destruct (relations_of acts) as [|r rs]; [done|].
  cbn [length Nat.ltb Nat.leb]. unfold WriteRelationsToDisk, db_write. rewrite Hf.
  cbn [fst snd db_active_action set_db_active_action set_db_unreadable].
  by rewrite Hdb.
Qed.

(** Property X7.  With a store that takes every write, [ConnectBlock] of a
    block none of whose transactions throws returns, applies the accepted
    actions in the order of their transactions to the in-memory maps, and
    stores their changes under the height in that order; with no accepted
    action it stores nothing and leaves what the store has under the
    height. *)
Theorem ConnectBlock_sound_store (height : Z) (blk : CBlock) (poc21 : bool)
    (v : CRelationView) (acts : list (uint256 * CAction)) :
  accepted_actions (vtx blk) = Returns acts →
  db_faults v = [] →
  (ConnectBlock height blk poc21 v).1 = Returns tt
  ∧ memory (ConnectBlock height blk poc21 v).2 = accept_all height poc21 acts (memory v)
  ∧ db_active_action (ConnectBlock height blk poc21 v).2
    = match relations_of acts with
      | [] => db_active_action v
      | _ => <[height := relations_of acts]> (db_active_action v)
      end
  ∧ db_faults (ConnectBlock height blk poc21 v).2 = [].
Proof.
  intros Hacc Hsound.
  destruct (ConnectBlock_accepted height blk poc21 v acts Hacc) as [Hr Hm].
  destruct (ConnectBlock_stored height blk poc21 v acts Hacc Hsound) as [Hdb Hf].
  done.
Qed.

(** Property X8.  A block in which no transaction has the shape of an action
    transaction (a coinbase, a transaction without inputs and outputs, one
    with other than two outputs or with two non-zero outputs), the empty
    block included, leaves the ledger, the store and the log exactly as they
    were. *)
Theorem ConnectBlock_without_candidates (height : Z) (blk : CBlock) (poc21 : bool)
    (v : CRelationView) :
  Forall (fun tx => action_shape tx = false) (vtx blk) →
  ConnectBlock height blk poc21 v = (Returns tt, v).
Proof.
  intros Hall. unfold ConnectBlock.
  assert (ConnectBlock_vtx height (vtx blk) [] poc21 v = (Returns [], v)) as ->; [|done].
  induction Hall as [|tx txs Htx _ IH]; [done|].
  cbn [ConnectBlock_vtx]. unfold DecodeAction. rewrite Htx. cbn [negb].
  rewrite bool_decide_eq_true_2 by done. by rewrite set_debug_log_nil.
Qed.

End WithEnv.
End BlockProps.

Module RollbackProps.
Import Bytes Codec Script Action Ledger LedgerFacts HistoryFacts ActionFacts RollbackFacts.
Import BlockProps.

Section WithEnv.
Context `{Env}.

Lemma removeRelationHistory_relationTip_legacy height from v :
  relationTip (removeRelationHistory height from false v).2
  = match prevRelation height (default ∅ (relationsHistoryMap v !! from)) with
    | Some e => <[GetPlotID from := GetPlotID e.2]> (relationTip v)
    | None => delete (GetPlotID from) (relationTip v)
    end.
Proof.
  unfold removeRelationHistory. fold (kept height (default ∅ (relationsHistoryMap v !! from))).
  destruct (Nat.eqb_spec (size (kept height (default ∅ (relationsHistoryMap v !! from)))) 0)
    as [Hz|Hnz].
  - apply map_size_empty_iff in Hz. by rewrite prevRelation_empty.
  - unfold prevRelation. by destruct (List.find _ _).
Qed.

Lemma removeRelationHistory_store height from poc21 v :
  db_active_action (removeRelationHistory height from poc21 v).2 = db_active_action v
  ∧ db_relationid (removeRelationHistory height from poc21 v).2 = db_relationid v
  ∧ db_faults (removeRelationHistory height from poc21 v).2 = db_faults v.
Proof.
  unfold removeRelationHistory.
  destruct (size _ =? 0)%nat; [by destruct poc21|].
  destruct (List.find _ _); by destruct poc21.
Qed.

Lemma removeRelationHistory_memory height from poc21 v v' :
  memory v = memory v' →
  memory (removeRelationHistory height from poc21 v).2
  = memory (removeRelationHistory height from poc21 v').2.
Proof.
  destruct v, v'. unfold memory. cbn. intros [= -> -> ->].
  unfold removeRelationHistory. cbn.
  destruct (size _ =? 0)%nat; [by destruct poc21|].
  destruct (List.find _ _); by destruct poc21.
Qed.

(** Property X9.  [removeRelationHistory] drops the entries of the identity
    from [height] on.  When none is left it erases the history and the tips
    of the identity.  Otherwise the tip it writes is the target of the
    remaining entry of greatest height, the null identity of an unbind
    included; the branch that clears the tip when the search of the sorted
    vector finds nothing is never taken. *)
Theorem removeRelationHistory_restores_latest (height : Z) (from : CKeyID)
    (poc21 : bool) (v : CRelationView) :
  (kept height (default ∅ (relationsHistoryMap v !! from)) = ∅ →
     relationsHistoryMap (removeRelationHistory height from poc21 v).2
     = delete from (relationsHistoryMap v)
     ∧ relationKeyIDTip (removeRelationHistory height from poc21 v).2
       = delete from (relationKeyIDTip v)
     ∧ relationTip (removeRelationHistory height from poc21 v).2
       = if poc21 then relationTip v else delete (GetPlotID from) (relationTip v))
  ∧ (kept height (default ∅ (relationsHistoryMap v !! from)) ≠ ∅ →
     ∃ e : CPersonalHeightRelation,
       is_latest (kept height (default ∅ (relationsHistoryMap v !! from))) e
       ∧ e.1 < height
       ∧ relationsHistoryMap (removeRelationHistory height from poc21 v).2
         = <[from := kept height (default ∅ (relationsHistoryMap v !! from))]>
             (relationsHistoryMap v)
       ∧ relationKeyIDTip (removeRelationHistory height from poc21 v).2
         = <[from := e.2]> (relationKeyIDTip v)
       ∧ relationTip (removeRelationHistory height from poc21 v).2
         = if poc21 then relationTip v
           else <[GetPlotID from := GetPlotID e.2]> (relationTip v)).
Proof.
  split.
  - intros Hempty.
    rewrite removeRelationHistory_history, removeRelationHistory_tip.
    rewrite decide_True, prevRelation_empty by done.
    split; [done|split; [done|]].
    destruct poc21; [apply removeRelationHistory_relationTip|].
    by rewrite removeRelationHistory_relationTip_legacy, prevRelation_empty.
  - intros Hne.
    destruct (prevRelation_latest height _ Hne) as (e & Hprev & Hlat).
    exists e. split; [done|].
    rewrite removeRelationHistory_history, removeRelationHistory_tip.
    rewrite decide_False, Hprev by done.
    split; [|split; [done|split; [done|]]].
    + destruct Hlat as [Hin _]. apply map_lookup_filter_Some in Hin as [_ Hlt].
      simpl in Hlt. lia.
    + destruct poc21; [apply removeRelationHistory_relationTip|].
      by rewrite removeRelationHistory_relationTip_legacy, Hprev.
Qed.

Lemma kept_lookup height (pl0 : gmap Z CKeyID) h y :
  kept height pl0 !! h = Some y ↔ pl0 !! h = Some y ∧ h < height.
Proof.
  unfold kept. rewrite map_lookup_filter_Some. simpl.
  split; intros [? ?]; split; [done|lia|done|lia].
Qed.

Lemma DisconnectBlock_no_entry height blk poc21 v w k pl :
  DisconnectBlock height blk poc21 v = Some w →
  relationsHistoryMap w !! k = Some pl →
  pl !! height = None.
Proof.
  intros Hrun.
  destruct (DisconnectBlock_lookup height blk poc21 v w k Hrun) as [-> _].
  destruct (relationsHistoryMap v !! k) as [pl0|]; [|done]. simpl.
  unfold history_after. destruct (pl0 !! height) as [x|] eqn:Hx.
  - case_decide; [done|]. intros [= <-].
    destruct (kept height pl0 !! height) as [y|] eqn:Hy; [|done].
    apply kept_lookup in Hy as [_ ?]. lia.
  - by intros [= <-].
Qed.

(** Property X10.  When [DisconnectBlock] returns, no history has an entry
    at [height].  The history of an identity that had an entry at [height]
    keeps exactly its entries below [height], of which there is at least
    one; an identity without an entry at [height] keeps its history and its
    tip, its entries above [height] included. *)
Theorem DisconnectBlock_trims_histories (height : Z) (blk : CBlock) (poc21 : bool)
    (v w : CRelationView) (k : CKeyID) :
  DisconnectBlock height blk poc21 v = Some w →
  (∀ pl, relationsHistoryMap w !! k = Some pl → pl !! height = None)
  ∧ (∀ pl0 x, relationsHistoryMap v !! k = Some pl0 → pl0 !! height = Some x →
       ∃ pl, relationsHistoryMap w !! k = Some pl
             ∧ pl ≠ ∅
             ∧ ∀ h y, pl !! h = Some y ↔ pl0 !! h = Some y ∧ h < height)
  ∧ (default ∅ (relationsHistoryMap v !! k) !! height = None →
       relationsHistoryMap w !! k = relationsHistoryMap v !! k
       ∧ relationKeyIDTip w !! k = relationKeyIDTip v !! k).
Proof.
  intros Hrun.
  destruct (DisconnectBlock_lookup height blk poc21 v w k Hrun) as [Hh Ht].
  split; [|split].
  - intros pl. by apply (DisconnectBlock_no_entry height blk poc21 v w k).
  - intros pl0 x Hk Hx.
    assert (kept height pl0 ≠ ∅) as Hkept.
    { apply (proj1 (DisconnectBlock_defined height blk poc21 v)) with (k := k);
        [by eexists|done|by eexists]. }
    exists (kept height pl0). rewrite Hh, Hk. simpl.
    unfold history_after. rewrite Hx, decide_False by done.
    split; [done|split; [done|]]. apply kept_lookup.
  - intros Hnone. rewrite Hh, Ht.
    destruct (relationsHistoryMap v !! k) as [pl0|]; [|done]. simpl in *.
    unfold history_after, tip_after. by rewrite Hnone.
Qed.

Lemma DisconnectBlock_loop_noop height poc21 (entries : list (CKeyID * gmap Z CKeyID)) w :
  Forall (fun e : CKeyID * gmap Z CKeyID => e.2 !! height = None) entries →
  DisconnectBlock_loop height poc21 entries w = Some w.
Proof.
  intros Hall. revert w.
  induction Hall as [|e es He _ IH]; intros w; cbn [DisconnectBlock_loop]; [done|].
  by rewrite He.
Qed.

Lemma DisconnectBlock_noop height blk poc21 v :
  (∀ k pl, relationsHistoryMap v !! k = Some pl → pl !! height = None) →
  ∃ w, DisconnectBlock height blk poc21 v = Some w ∧ memory w = memory v.
Proof.
  intros Hnone. rewrite DisconnectBlock_steps. unfold disconnect_steps.
  rewrite DisconnectBlock_loop_noop.
  - eexists. split; [reflexivity|].
    change (memory (set_debug_log ?f ?x)) with (memory x). apply memory_Erase.
  - apply Forall_forall. intros [k pl] Hin.
    assert ((k, pl) ∈ in_key_order (relationsHistoryMap (Erase height v).2)) as Hin'
      by first [done|by apply list_elem_of_In].
    apply elem_of_in_key_order in Hin'. simpl.
    apply (Hnone k).
    change (relationsHistoryMap (Erase height v).2) with (memory (Erase height v).2).2 in Hin'.
    by rewrite memory_Erase in Hin'.
Qed.

(** Property X11.  After a disconnect that returned, disconnecting the same
    height a second time returns as well and changes none of the three
    in-memory maps, whatever blocks are passed. *)
Theorem DisconnectBlock_twice (height : Z) (blk blk' : CBlock) (poc21 : bool)
    (v w : CRelationView) :
  DisconnectBlock height blk poc21 v = Some w →
  ∃ w', DisconnectBlock height blk' poc21 w = Some w' ∧ memory w' = memory w.
Proof.
  intros Hrun. apply DisconnectBlock_noop. intros k pl Hk.
  by apply (DisconnectBlock_no_entry height blk poc21 v w k).
Qed.

End WithEnv.
End RollbackProps.

Module StoreProps.
Import Bytes Codec Script Action Ledger LedgerFacts HistoryFacts ActionFacts RollbackFacts.
Import BlockProps RollbackProps.

Section WithEnv.
Context `{Env}.

Lemma disconnect_loop_store height poc21 (entries : list (CKeyID * gmap Z CKeyID)) w :
  db_active_action (fold_left (disconnect_step height poc21) entries w)
  = db_active_action w
  ∧ db_relationid (fold_left (disconnect_step height poc21) entries w)
    = db_relationid w.
Proof.
  revert w. induction entries as [|e es IH]; intros w; simpl; [done|].
  destruct (IH (disconnect_step height poc21 w e)) as [-> ->].
  unfold disconnect_step. destruct (e.2 !! height); [|done].
  by destruct (removeRelationHistory_store height e.1 poc21 w) as (-> & -> & _).
Qed.

Lemma disconnect_loop_memory height poc21 (entries : list (CKeyID * gmap Z CKeyID)) w w' :
  memory w = memory w' →
  memory (fold_left (disconnect_step height poc21) entries w)
  = memory (fold_left (disconnect_step height poc21) entries w').
Proof.
  revert w w'. induction entries as [|e es IH]; intros w w' Hm; simpl; [done|].
  apply IH. unfold disconnect_step. destruct (e.2 !! height); [|done].
  by apply removeRelationHistory_memory.
Qed.

(** A disconnect that returns, as the rounds of its loop from the ledger
    the erase left. *)
Lemma DisconnectBlock_Some height blk poc21 v w :
  DisconnectBlock height blk poc21 v = Some w →
  w = set_debug_log
        (fun l => l ++ [LogPrintf "%s: height:%d, block:%s" [height; block_hash blk]])
        (fold_left (disconnect_step height poc21)
           (in_key_order (relationsHistoryMap v)) (Erase height v).2).
Proof.
  rewrite DisconnectBlock_steps. unfold disconnect_steps.
  intros Hrun. apply fmap_Some in Hrun as (w0 & Hrun & ->).
  apply DisconnectBlock_loop_Some in Hrun. subst w0. do 3 f_equal.
  change (relationsHistoryMap ?x) with (memory x).2. by rewrite memory_Erase.
Qed.

(** Property X12.  [DisconnectBlock] does not look at what the store answers
    to its erase: when it returns, it returns as well whatever the store
    answers, with the three in-memory maps rolled back the same, and after a
    refused erase the store still has the change list of the height.  The
    plot-id registry is never touched by a disconnect. *)
Theorem DisconnectBlock_ignores_erase_result (height : Z) (blk : CBlock) (poc21 : bool)
    (v w : CRelationView) (faults : list bool) :
  DisconnectBlock height blk poc21 v = Some w →
  (∃ w', DisconnectBlock height blk poc21 (set_db_faults (fun _ => faults) v) = Some w'
         ∧ memory w' = memory w)
  ∧ db_active_action w
    = (if bool_decide (head (db_faults v) = Some true)
       then db_active_action v
       else delete height (db_active_action v))
  ∧ db_relationid w = db_relationid v.
Proof.
  intros Hrun.
  assert (is_Some (DisconnectBlock height blk poc21 (set_db_faults (fun _ => faults) v)))
    as [w' Hrun'].
  { apply DisconnectBlock_defined.
    apply (proj1 (DisconnectBlock_defined height blk poc21 v)). by eexists. }
  pose proof (DisconnectBlock_Some _ _ _ _ _ Hrun) as ->.
  pose proof (DisconnectBlock_Some _ _ _ _ _ Hrun') as Hw'.
  change (memory (set_debug_log ?f ?x)) with (memory x).
  change (db_active_action (set_debug_log ?f ?x)) with (db_active_action x).
  change (db_relationid (set_debug_log ?f ?x)) with (db_relationid x).
  split; [|split].
  - exists w'. split; [done|]. rewrite Hw'.
    change (memory (set_debug_log ?f ?x)) with (memory x).
    change (relationsHistoryMap (set_db_faults ?f ?x)) with (relationsHistoryMap x).
    apply disconnect_loop_memory. by rewrite !memory_Erase.
  - destruct (disconnect_loop_store height poc21
                (in_key_order (relationsHistoryMap v)) (Erase height v).2) as [-> _].
    unfold Erase, db_write. by destruct (db_faults v) as [|[] ?].
  - destruct (disconnect_loop_store height poc21
                (in_key_order (relationsHistoryMap v)) (Erase height v).2) as [_ ->].
    unfold Erase, db_write. by destruct (db_faults v) as [|[] ?].
Qed.

(** Property X13.  In the mode without plot ids, a block connected above
    every recorded height and disconnected again: the disconnect returns and
    leaves the three in-memory maps as they were, provided each identity the
    block has an accepted action for has a history and, as its tip, the
    target of the latest entry of that history. *)
Theorem connect_then_disconnect_restores (height : Z) (blk blk' : CBlock)
    (v : CRelationView) (acts : list (uint256 * CAction)) :
  accepted_actions (vtx blk) = Returns acts →
  (∀ k pl h x, relationsHistoryMap v !! k = Some pl → pl !! h = Some x → h < height) →
  (∀ k pl, relationsHistoryMap v !! k = Some pl → pl ≠ ∅) →
  (∀ k, touches acts k →
        ∃ pl e, relationsHistoryMap v !! k = Some pl
                ∧ is_latest pl e
                ∧ relationKeyIDTip v !! k = Some e.2) →
  ∃ w,
    DisconnectBlock height blk' true (ConnectBlock height blk true v).2 = Some w
    ∧ memory w = memory v.
Proof.
  intros Hacc Hbelow Hne Htip.
  apply (connect_disconnect_restores height blk blk' v acts Hacc Hbelow Hne).
  - intros k Hk. destruct (Htip k Hk) as (pl & e & -> & _). by eexists.
  - intros k Hk. destruct (Htip k Hk) as (pl & e & Hpl & Hlat & ->).
    rewrite Hpl. symmetry.
    apply (restored_tip_latest height pl e); [|done].
    intros h x. by apply (Hbelow k).
Qed.

(** Property X25.  [DisconnectBlock] has a defined result exactly on the
    ledgers on which it erases no history, those where every identity with
    an entry at the height has an entry below it: otherwise
    [removeRelationHistory] erases the entry of the history map the loop of
    [DisconnectBlock] stands on.  So the disconnect of a block that has an
    accepted action of an identity without a history, right after the block
    was connected, is undefined. *)
Theorem DisconnectBlock_erases_under_its_iterator (height : Z) (blk : CBlock)
    (poc21 : bool) (v : CRelationView) :
  (is_Some (DisconnectBlock height blk poc21 v) ↔ disconnect_defined height v)
  ∧ (disconnect_defined height v
     ↔ ∀ k pl, relationsHistoryMap v !! k = Some pl → is_Some (pl !! height) →
               ∃ h x, pl !! h = Some x ∧ h < height)
  ∧ ∀ blk' acts k,
      accepted_actions (vtx blk') = Returns acts →
      touches acts k →
      relationsHistoryMap v !! k = None →
      DisconnectBlock height blk poc21 (ConnectBlock height blk' poc21 v).2 = None.
Proof.
  split; [apply DisconnectBlock_defined|split].
  - unfold disconnect_defined. split.
    + intros Hdef k pl Hk Hat.
      specialize (Hdef k pl Hk Hat).
      apply map_choose in Hdef as (h & x & Hx).
      apply kept_lookup in Hx. by exists h, x.
    + intros Hdef k pl Hk Hat Hempty.
      destruct (Hdef k pl Hk Hat) as (h & x & Hx & Hlt).
      assert (kept height pl !! h = Some x) as Hkept by (by apply kept_lookup).
      by rewrite Hempty, lookup_empty in Hkept.
  - intros blk' acts k Hacc Ht Hk.
    by apply (connect_disconnect_undefined height blk' blk poc21 v acts k).
Qed.

(** Property X14.  With a store that takes every write and has nothing under
    the height, the change list [ConnectBlock] leaves in the store rebuilds the
    block: on any ledger with that store, [LoadRelationFromDisk] applies the
    accepted actions of the block in their order, provided none of them is a
    bind to the null identity; on the in-memory maps the block was connected
    to it gives the maps the connection gave. *)
Theorem LoadRelationFromDisk_after_ConnectBlock (height : Z) (blk : CBlock)
    (poc21 : bool) (v : CRelationView) (acts : list (uint256 * CAction)) :
  accepted_actions (vtx blk) = Returns acts →
  Forall (fun a : uint256 * CAction => ¬ null_bind a.2) acts →
  db_faults v = [] →
  db_active_action v !! height = None →
  ∀ w, db_active_action w = db_active_action (ConnectBlock height blk poc21 v).2 →
       memory (LoadRelationFromDisk height poc21 w).2
       = accept_all height poc21 acts (memory w)
       ∧ (memory w = memory v →
          memory (LoadRelationFromDisk height poc21 w).2
          = memory (ConnectBlock height blk poc21 v).2).
Proof.
  intros Hacc Hnb Hsound Hfresh w Hstore.
  assert (memory (LoadRelationFromDisk height poc21 w).2
          = accept_all height poc21 acts (memory w)) as Hload.
  { unfold LoadRelationFromDisk. rewrite Hstore.
    destruct (ConnectBlock_stored height blk poc21 v acts Hacc Hsound) as [-> _].
    rewrite <- (replay_relations_of height poc21 acts (memory w) Hnb).
    destruct (relations_of acts) as [|r rs] eqn:Hrel.
    - rewrite Hfresh. by case_decide.
    - rewrite lookup_insert_eq. cbn [snd]. by rewrite Load_memory. }
  split; [done|].
  intros Hm. rewrite Hload, Hm.
  by destruct (ConnectBlock_accepted height blk poc21 v acts Hacc) as [_ ->].
Qed.

(** Property X15.  [ListRelations] lists each identity that has an entry in
    the identity tip map once, with the target [To] answers for it in the
    mode without plot ids; for an identity that is not listed [To] answers
    the null identity. *)
Theorem ListRelations_agrees_with_To (v : CRelationView) (from : CKeyID) (plotid : Z) :
  NoDup (ListRelations v).*1
  ∧ (∀ to, (from, to) ∈ ListRelations v → (To from plotid true v).1 = to)
  ∧ (from ∉ (ListRelations v).*1 → (To from plotid true v).1 = CKeyID_null).
Proof.
  unfold ListRelations, To. split; [apply NoDup_fst_in_key_order|split].
  - intros to Hin. apply elem_of_in_key_order in Hin. by rewrite Hin.
  - intros Hnot. destruct (relationKeyIDTip v !! from) as [to|] eqn:Hto; [|done].
    exfalso. apply Hnot. apply list_elem_of_fmap. exists (from, to).
    split; [done|]. by apply elem_of_in_key_order.
Qed.

(** Property X16.  A bind whose target is the null identity: on the live
    ledger the identity is listed by [ListRelations], with the null target,
    while [To] answers as for an unbound identity; the change stored for it
    is that of an unbind, and replayed by [LoadRelationFromDisk] it leaves
    the identity unlisted. *)
Theorem bind_to_null_listed_until_reload (height : Z) (txid : uint256) (from : CKeyID)
    (relations : list CRelation) (poc21 : bool) (v w : CRelationView) (plotid : Z) :
  (from, CKeyID_null)
    ∈ ListRelations (AcceptAction height txid (CBindAction from CKeyID_null)
                       relations poc21 v).2
  ∧ (To from plotid true (AcceptAction height txid (CBindAction from CKeyID_null)
                            relations poc21 v).2).1 = CKeyID_null
  ∧ (AcceptAction height txid (CBindAction from CKeyID_null) relations poc21 v).1.2
    = (AcceptAction height txid (CUnbindAction from) relations poc21 v).1.2
  ∧ (db_active_action w !! height
     = Some (relation_of txid (CBindAction from CKeyID_null)) →
     from ∉ (ListRelations (LoadRelationFromDisk height poc21 w).2).*1).
Proof.
  assert (relationKeyIDTip
            (AcceptAction height txid (CBindAction from CKeyID_null) relations poc21 v).2
            !! from = Some CKeyID_null) as Htip.
  { change (relationKeyIDTip ?w) with (memory w).1.2.
    rewrite AcceptAction_memory. apply lookup_insert_eq. }
  split; [|split; [|split]].
  - unfold ListRelations. by apply elem_of_in_key_order.
  - unfold To. by rewrite Htip.
  - by rewrite !AcceptAction_relations.
  - intros Hdb. unfold LoadRelationFromDisk. rewrite Hdb. cbn [snd relation_of fold_left].
    unfold ListRelations. intros Hin.
    apply list_elem_of_fmap in Hin as ([k to] & Hk & Hin). simpl in Hk. subst k.
    apply elem_of_in_key_order in Hin.
    change (relationKeyIDTip ?w) with (memory w).1.2 in Hin.
    rewrite LoadRelation_memory in Hin. unfold change_action in Hin. cbn [fst snd] in Hin.
    rewrite bool_decide_eq_true_2 in Hin by done.
    cbn [accept_memory fst snd] in Hin. by rewrite lookup_delete_eq in Hin.
Qed.

End WithEnv.
End StoreProps.

Module AcceptanceProps.
Import Bytes Codec Script Action Ledger ScriptFacts LedgerFacts HistoryFacts ActionFacts.
Import RollbackFacts ExtractionProps BlockProps.

Section WithEnv.
Context `{Env}.

Lemma SignAction_payload out action key vch :
  SignAction out action key = (true, vch) →
  ∃ s, SignCompact key (HashActionOut (SerializeAction action) out) = Some s
       ∧ vch = SerializeAction action ++ s.
Proof.
  unfold SignAction. destruct (SignCompact key _) as [s|]; [|done].
  intros Heq. apply (f_equal snd) in Heq. cbn [snd] in Heq. by exists s.
Qed.

Lemma length_SerializeAction_le a : (length (SerializeAction a) ≤ 44)%nat.
Proof. rewrite length_SerializeAction. destruct a; lia. Qed.

Lemma ConnectBlock_single height tx bh poc21 v acts :
  accepted_actions [tx] = Returns acts →
  (ConnectBlock height {| vtx := [tx]; block_hash := bh |} poc21 v).1 = Returns tt
  ∧ memory (ConnectBlock height {| vtx := [tx]; block_hash := bh |} poc21 v).2
    = accept_all height poc21 acts (memory v).
Proof. intros Hacc. by apply ConnectBlock_accepted. Qed.

(** What [DecodeAction] makes of a transaction that carries the payload
    [SignAction] built. *)
Lemma DecodeAction_signed tx out action key vch :
  (∀ key h s, SignCompact key h = Some s → length s = 65%nat) →
  wf_action action →
  SignAction out action key = (true, vch) →
  action_shape tx = true →
  FeePaid tx = nActionFee →
  carries (vout tx) vch →
  DecodeAction tx [] = ([], Returns (action, signature_of vch)).
Proof.
  intros Hsize Hwf Hsign Hshape Hfee Hcar.
  destruct (SignAction_payload _ _ _ _ Hsign) as (s & Hs & ->).
  pose proof (Hsize _ _ _ Hs) as Hlen.
  assert (signature_of (SerializeAction action ++ s) = s) as ->.
  { unfold signature_of. rewrite length_app, Hlen.
    replace (length (SerializeAction action) + 65 - 65)%nat
      with (length (SerializeAction action)) by lia.
    by rewrite drop_app_length. }
  apply (DecodeAction_carries tx (SerializeAction action) action s); try done.
  - pose proof (length_SerializeAction_le action). lia.
  - by apply UnserializeAction_SerializeAction_app.
Qed.

(** Property X17.  Over a signature scheme whose compact signatures have 65
    bytes and recover to the signer's public key: a transaction that is of
    the action shape, pays the action fee, spends [out] with its first input
    and carries, in its first zero-value output, the payload [SignAction]
    built for [out] with the key of the [from] of the action, is decoded to
    that action, verified, and accepted by [ConnectBlock]. *)
Theorem signed_action_is_accepted (tx : CTransaction) (out : COutPoint)
    (ins : list CTxIn) (action : CAction) (key : Z) (vch : list byte) :
  (∀ key h s, SignCompact key h = Some s → length s = 65%nat) →
  (∀ key h s, SignCompact key h = Some s → RecoverCompact h s = Some (GetPubKey key)) →
  wf_action action →
  action_from action = Some (GetID (GetPubKey key)) →
  SignAction out action key = (true, vch) →
  vin tx = {| prevout := out |} :: ins →
  action_shape tx = true →
  FeePaid tx = nActionFee →
  carries (vout tx) vch →
  DecodeAction tx [] = ([], Returns (action, signature_of vch))
  ∧ VerifyAction out action (signature_of vch) = true
  ∧ ∀ height bh poc21 v,
      (ConnectBlock height {| vtx := [tx]; block_hash := bh |} poc21 v).1 = Returns tt
      ∧ memory (ConnectBlock height {| vtx := [tx]; block_hash := bh |} poc21 v).2
        = accept_memory height action poc21 (memory v).
Proof.
  intros Hsize Hrec Hwf Hfrom Hsign Hvin Hshape Hfee Hcar.
  pose proof (DecodeAction_signed tx out action key vch Hsize Hwf Hsign Hshape Hfee Hcar)
    as Hdec.
  assert (VerifyAction out action (signature_of vch) = true) as Hver.
  { apply (VerifyAction_recovered out action (signature_of vch) (GetPubKey key));
      [|done].
    apply Hrec. by apply SignAction_signature. }
  split; [done|split; [done|]].
  intros height bh poc21 v.
  apply (ConnectBlock_single height tx bh poc21 v [(tx_hash tx, action)]).
  cbn [accepted_actions]. rewrite Hdec. cbn [snd].
  rewrite bool_decide_eq_false_2 by (intros ->; discriminate).
  rewrite Hvin. cbn [prevout]. by rewrite Hver.
Qed.

(** Property X18.  Over a signature scheme whose signatures moreover recover
    under the signed digest only, and whose digest has no collisions: the
    payload [SignAction] built for the outpoint [out], carried by a
    transaction whose first input spends another outpoint, is not accepted;
    [ConnectBlock] returns and leaves the three in-memory maps and the store
    of change lists as they were. *)
Theorem signed_action_is_bound_to_outpoint (tx : CTransaction) (out out' : COutPoint)
    (ins : list CTxIn) (action : CAction) (key : Z) (vch : list byte) :
  (∀ key h s, SignCompact key h = Some s → length s = 65%nat) →
  (∀ key h h' s pk,
     SignCompact key h = Some s → RecoverCompact h' s = Some pk → h' = h) →
  (∀ b o b' o', HashActionOut b o = HashActionOut b' o' → b = b' ∧ o = o') →
  wf_action action →
  SignAction out action key = (true, vch) →
  vin tx = {| prevout := out' |} :: ins →
  out' ≠ out →
  action_shape tx = true →
  FeePaid tx = nActionFee →
  carries (vout tx) vch →
  accepted_actions [tx] = Returns []
  ∧ ∀ height bh poc21 v,
      (ConnectBlock height {| vtx := [tx]; block_hash := bh |} poc21 v).1 = Returns tt
      ∧ memory (ConnectBlock height {| vtx := [tx]; block_hash := bh |} poc21 v).2
        = memory v
      ∧ db_active_action
          (ConnectBlock height {| vtx := [tx]; block_hash := bh |} poc21 v).2
        = db_active_action v.
Proof.
  intros Hsize Hother Hinj Hwf Hsign Hvin Hne Hshape Hfee Hcar.
  pose proof (DecodeAction_signed tx out action key vch Hsize Hwf Hsign Hshape Hfee Hcar)
    as Hdec.
  assert (accepted_actions [tx] = Returns []) as Hacc.
  { cbn [accepted_actions]. rewrite Hdec. cbn [snd].
    case_bool_decide; [done|]. rewrite Hvin. cbn [prevout].
    rewrite (VerifyAction_altered Hsize Hother Hinj out action key vch out' action);
      [done..|congruence]. }
  split; [done|]. intros height bh poc21 v.
  destruct (ConnectBlock_single height tx bh poc21 v [] Hacc) as [Hr Hm].
  split; [done|split; [done|]].
  unfold ConnectBlock. cbn [vtx].
  destruct (ConnectBlock_vtx_prefix height [tx] [] [] poc21 v [] Hacc)
    as (v1 & Heq & _ & Hdb & _).
  rewrite app_nil_r in Heq. rewrite Heq. cbn [ConnectBlock_vtx app relations_of].
  done.
Qed.

Lemma UnserializeAction_long vch :
  (44 ≤ length vch)%nat → ∃ a, UnserializeAction vch = Returns a.
Proof.
  intros Hlen. unfold UnserializeAction, read_keyid, read.
  destruct (Nat.leb_spec 4 (length vch)); [|lia].
  destruct (to_int32 (le_value (take 4 vch)) =? 1).
  - rewrite length_drop.
    destruct (Nat.leb_spec 20 (length vch - 4)); [|lia].
    rewrite drop_drop, length_drop.
    destruct (Nat.leb_spec 20 (length vch - (4 + 20))); [|lia]. by eexists.
  - destruct (to_int32 (le_value (take 4 vch)) =? 2); [|by eexists].
    rewrite !length_drop.
    destruct (Nat.leb_spec 20 (length vch - 4)); [|lia]. by eexists.
Qed.

Lemma DecodeAction_vout_carrier_throws (o : CTxOut) rest payload e (vchSig : list byte) :
  nValue o = 0 →
  scriptPubKey o = carrier_script payload →
  Z.of_nat (length payload) < 2 ^ 32 →
  UnserializeAction payload = Throws e →
  DecodeAction_vout (o :: rest) vchSig = Throws e.
Proof.
  intros Hval Hscript Hlen Hdec. cbn [DecodeAction_vout].
  rewrite Hval, Hscript. cbn [Z.eqb negb].
  unfold carrier_script, push_opcode. rewrite push_data_app. cbn [app].
  rewrite GetOp_opcode by (unfold OP_RETURN; lia).
  rewrite Z.eqb_refl. cbn [negb].
  destruct (GetOp_push_data payload [] Hlen) as [opcode Hop].
  rewrite app_nil_r in Hop. by rewrite Hop, Hdec.
Qed.

(** Property X19.  An exception of [UnserializeAction] escapes
    [DecodeAction]: when the first zero-value output of a transaction of the
    action shape that pays the action fee carries, behind [OP_RETURN], a
    payload the decoder throws on, [DecodeAction] throws, although the
    payload is shorter than the 65 bytes below which a payload is passed
    over, and [ConnectBlock] of a block with that transaction throws. *)
Theorem codec_exception_escapes (tx : CTransaction) (payload : list byte)
    (e : exn) (vchSig : list byte) :
  action_shape tx = true →
  FeePaid tx = nActionFee →
  carries (vout tx) payload →
  UnserializeAction payload = Throws e →
  (length payload < 44)%nat
  ∧ DecodeAction tx vchSig = ([], Throws e)
  ∧ ∀ height bh rest poc21 v,
      (ConnectBlock height {| vtx := tx :: rest; block_hash := bh |} poc21 v).1
      = Throws e.
Proof.
  intros Hshape Hfee (o & Hfirst & Hscript) Hthrow.
  assert (length payload < 44)%nat as Hshort.
  { destruct (Nat.ltb_spec (length payload) 44) as [?|Hlong]; [done|].
    destruct (UnserializeAction_long payload Hlong) as [a Ha]. congruence. }
  assert (∀ sig, DecodeAction tx sig = ([], Throws e)) as Hdec.
  { intros sig. unfold DecodeAction. rewrite Hshape, Hfee, Z.eqb_refl. cbn [negb]. f_equal.
    destruct (DecodeAction_vout_first_zero _ _ sig Hfirst) as (rest & -> & Hv).
    apply (DecodeAction_vout_carrier_throws o rest payload); try done. lia. }
  split; [done|split; [done|]].
  intros height bh rest poc21 v. unfold ConnectBlock. cbn [vtx ConnectBlock_vtx].
  by rewrite Hdec.
Qed.

End WithEnv.
End AcceptanceProps.

(** ** The outpoint on the wire, the ticket script and the order of actions *)

Module WireProps.
Import Wire.

Lemma land_mask x : 0 ≤ x → Z.land x OUTPOINT_INDEX_MASK = x mod 2 ^ 31.
Proof.
  intros Hx. change OUTPOINT_INDEX_MASK with (Z.ones 31). by rewrite Z.land_ones.
Qed.

Lemma not32_mask : not32 OUTPOINT_INDEX_MASK = 2 ^ 31.
Proof. reflexivity. Qed.

Lemma land_flag x :
  0 ≤ x < 2 ^ 32 → Z.land x (2 ^ 31) = if x <? 2 ^ 31 then 0 else 2 ^ 31.
Proof.
  intros Hx. apply Z.bits_inj'. intros i Hi.
  rewrite Z.land_spec, Z.pow2_bits_eqb by lia.
  destruct (Z.eqb_spec 31 i) as [<-|Hne].
  - rewrite andb_true_r.
    destruct (Z.ltb_spec x (2 ^ 31)).
    + rewrite Z.bits_0. rewrite <- (Z.mod_small x (2 ^ 31)) by lia.
      by rewrite Z.mod_pow2_bits_high.
    + rewrite Z.pow2_bits_true by lia.
      apply Z.testbit_true; [lia|].
      assert (x / 2 ^ 31 = 1) as ->; [|done].
      symmetry. apply Z.div_unique with (r := x - 2 ^ 31); lia.
  - rewrite andb_false_r.
    destruct (x <? 2 ^ 31); [by rewrite Z.bits_0|].
    rewrite Z.pow2_bits_eqb by lia. by destruct (Z.eqb_spec 31 i).
Qed.

Lemma lor_flag x : 0 ≤ x < 2 ^ 31 → Z.lor x (2 ^ 31) = x + 2 ^ 31.
Proof.
  intros Hx. rewrite <- Z.add_nocarry_lor; [done|].
  rewrite land_flag by lia. by destruct (Z.ltb_spec x (2 ^ 31)); [|lia].
Qed.

(** Property X21.  The outpoint of an input across the wire, for an index in
    the range of [uint32_t].  An index from 2^31 up to the null index fails
    the assertion of the writer.  Otherwise the writer sets the issuance flag
    exactly for an input with an issuance whose index is not the null index,
    and the reader gives back the index and that flag, with one exception:
    the index 2^31 - 1 with an issuance goes out as the null index, and the
    reader takes it for the null index without an issuance although the
    writer goes on to write one. *)
Theorem outpoint_wire_roundtrip (prevout : COutPoint) (assetIssuance_IsNull : bool) :
  0 ≤ n prevout < 2 ^ 32 →
  match outpoint_for_write prevout assetIssuance_IsNull with
  | None => 2 ^ 31 ≤ n prevout < NULL_INDEX
  | Some (fHasAssetIssuance, outpoint) =>
      fHasAssetIssuance
      = (if n prevout =? NULL_INDEX then false else negb assetIssuance_IsNull)
      ∧ prevout_from_read outpoint
        = if (n prevout =? 2 ^ 31 - 1) && negb assetIssuance_IsNull
          then (false, {| hash := hash prevout; n := NULL_INDEX |})
          else (fHasAssetIssuance, prevout)
  end.
Proof.
  intros Hn. destruct prevout as [h x]. cbn [n hash] in *.
  unfold outpoint_for_write, prevout_from_read. cbn [n hash].
  unfold NULL_INDEX, OUTPOINT_ISSUANCE_FLAG. rewrite not32_mask.
  change (Z.shiftl 1 31) with (2 ^ 31).
  destruct (Z.eqb_spec x (2 ^ 32 - 1)) as [->|Hnull].
  { cbn [n]. by destruct assetIssuance_IsNull. }
  rewrite land_flag by done.
  destruct (Z.ltb_spec x (2 ^ 31)) as [Hlow|Hhigh].
  2:{ change (negb (2 ^ 31 =? 0)) with true. cbv iota. lia. }
  change (negb (0 =? 0)) with false. cbv iota.
  rewrite land_mask, Z.mod_small by lia.
  split; [done|].
  destruct assetIssuance_IsNull; cbn [negb n hash].
  - rewrite andb_false_r.
    destruct (Z.eqb_spec x (2 ^ 32 - 1)); [lia|].
    rewrite land_flag by lia. destruct (Z.ltb_spec x (2 ^ 31)); [|lia].
    rewrite land_mask, Z.mod_small by lia. done.
  - rewrite andb_true_r, lor_flag by lia.
    destruct (Z.eqb_spec x (2 ^ 31 - 1)) as [->|Hedge]; [done|].
    destruct (Z.eqb_spec (x + 2 ^ 31) (2 ^ 32 - 1)); [lia|].
    rewrite land_flag by lia. destruct (Z.ltb_spec (x + 2 ^ 31) (2 ^ 31)); [lia|].
    rewrite land_mask by lia. f_equal. f_equal.
    rewrite <- (Z.mod_small x (2 ^ 31)) at 2 by lia.
    replace (x + 2 ^ 31) with (x + 1 * 2 ^ 31) by lia. by rewrite Z.mod_add.
Qed.

End WireProps.

Module TicketProps.
Import Bytes Script Ticket ScriptFacts.

(** The script of [GenerateTicketScript] without its last opcode. *)
Definition ticket_prefix (keyid : CPubKey) (lockHeight : Z) : CScript :=
  push_data
    (push_opcode
       (push_opcode (push_scriptnum [] lockHeight) OP_CHECKLOCKTIMEVERIFY)
       OP_DROP)
    keyid.

(** Property X20.  [GetPublicKeyFromScript] reads four operations and
    nothing after them: the script of [GenerateTicketScript] is the prefix
    up to the key push followed by [OP_CHECKSIG], and every script that
    starts with that prefix, whatever follows, gives [true] and the key. *)
Theorem ticket_read_stops_at_key (k : CPubKey) (lockHeight : Z)
    (suffix : list byte) (pubkey0 : CPubKey) :
  compressed_pubkey k → 0 < lockHeight < 2 ^ 31 →
  GenerateTicketScript k lockHeight = ticket_prefix k lockHeight ++ [OP_CHECKSIG]
  ∧ GetPublicKeyFromScript (ticket_prefix k lockHeight ++ suffix) pubkey0
    = Returns (true, k).
Proof.
  intros Hk Hh. split; [done|].
  destruct (CScriptNum_serialize lockHeight Hh) as [Hnum Hlen].
  unfold ticket_prefix, push_scriptnum, push_opcode.
  rewrite (push_data_app _ k), (push_data_app [] (serialize lockHeight)).
  simpl app. rewrite <- !app_assoc.
  unfold GetPublicKeyFromScript.
  rewrite GetOp_push_data_small by lia.
  rewrite Hnum. destruct (Z.ltb_spec 0 lockHeight); [|lia]. cbn [negb].
  simpl app. rewrite GetOp_opcode by (unfold OP_CHECKLOCKTIMEVERIFY; lia).
  rewrite Z.eqb_refl. cbn [negb].
  rewrite GetOp_opcode by (unfold OP_DROP; lia).
  rewrite Z.eqb_refl. cbn [negb].
  destruct Hk as (Hk33 & Hkb & Hkh).
  rewrite GetOp_push_data_small by lia.
  rewrite Hk33. simpl Nat.eqb. cbv iota.
  by rewrite CPubKey_of_vch_compressed.
Qed.

End TicketProps.

Module OrderProps.
Import Bytes Codec Script Action Ledger LedgerFacts HistoryFacts ActionFacts RollbackFacts.

(** The last of the actions that is about the identity [k]. *)
Fixpoint last_action_of (k : CKeyID) (acts : list (uint256 * CAction))
  : option CAction :=
  match acts with
  | [] => None
  | a :: rest =>
      match last_action_of k rest with
      | Some x => Some x
      | None => if decide (action_from a.2 = Some k) then Some a.2 else None
      end
  end.

(** The target an action writes into the history: the null identity for an
    unbind. *)
Definition action_target (a : CAction) : CKeyID :=
  match a with
  | CBindAction _ to => to
  | _ => CKeyID_null
  end.

Section WithEnv.
Context `{Env}.

Lemma accept_memory_self_tip height a poc21 m k :
  action_from a = Some k →
  (accept_memory height a poc21 m).1.2 !! k
  = match a with CBindAction _ to => Some to | _ => None end
  ∧ (accept_memory height a poc21 m).2 !! k
    = Some (<[height := action_target a]> (default ∅ (m.2 !! k))).
Proof.
  destruct a as [|from to|from]; simpl; intros [= ->];
    by rewrite ?lookup_insert_eq, ?lookup_delete_eq.
Qed.

Lemma accept_all_last height poc21 acts m k :
  (accept_all height poc21 acts m).1.2 !! k
  = match last_action_of k acts with
    | Some (CBindAction _ to) => Some to
    | Some _ => None
    | None => m.1.2 !! k
    end
  ∧ (accept_all height poc21 acts m).2 !! k
    = match last_action_of k acts with
      | Some a => Some (<[height := action_target a]> (default ∅ (m.2 !! k)))
      | None => m.2 !! k
      end.
Proof.
  unfold accept_all. revert m.
  induction acts as [|a acts IH]; intros m; cbn [fold_left last_action_of]; [done|].
  destruct (IH (accept_memory height a.2 poc21 m)) as [-> ->].
  destruct (last_action_of k acts) as [x|].
  - split; [done|]. f_equal.
    destruct (decide (action_from a.2 = Some k)) as [Ha|Ha].
    + destruct (accept_memory_self_tip height a.2 poc21 m k Ha) as [_ ->]. simpl.
      by rewrite insert_insert_eq.
    + by destruct (accept_memory_other height a.2 poc21 m k Ha) as [-> _].
  - destruct (decide (action_from a.2 = Some k)) as [Ha|Ha].
    + destruct (accept_memory_self_tip height a.2 poc21 m k Ha) as [-> ->].
      split; [|done]. destruct a.2; try done.
    + by destruct (accept_memory_other height a.2 poc21 m k Ha) as [-> ->].
Qed.

(** Property X22.  When a block has several accepted actions of one
    identity, the last one decides: after [ConnectBlock] the tip of the
    identity is the target of its last bind, or absent after a last unbind,
    and its history has, at the height, the one entry of that last action;
    an identity without an accepted action in the block keeps its tip and its
    history. *)
Theorem ConnectBlock_last_action_decides (height : Z) (blk : CBlock) (poc21 : bool)
    (v : CRelationView) (acts : list (uint256 * CAction)) (k : CKeyID) :
  accepted_actions (vtx blk) = Returns acts →
  relationKeyIDTip (ConnectBlock height blk poc21 v).2 !! k
  = match last_action_of k acts with
    | Some (CBindAction _ to) => Some to
    | Some _ => None
    | None => relationKeyIDTip v !! k
    end
  ∧ relationsHistoryMap (ConnectBlock height blk poc21 v).2 !! k
    = match last_action_of k acts with
      | Some a => Some (<[height := action_target a]>
                          (default ∅ (relationsHistoryMap v !! k)))
      | None => relationsHistoryMap v !! k
      end.
Proof.
  intros Hacc.
  destruct (ConnectBlock_accepted height blk poc21 v acts Hacc) as [_ Hm].
  change (relationKeyIDTip (ConnectBlock height blk poc21 v).2)
    with (memory (ConnectBlock height blk poc21 v).2).1.2.
  change (relationsHistoryMap (ConnectBlock height blk poc21 v).2)
    with (memory (ConnectBlock height blk poc21 v).2).2.
  rewrite Hm. apply accept_all_last.
Qed.

End WithEnv.
End OrderProps.

(** ** What every operation of the ledger keeps *)

Module InvariantProps.
Import Bytes Codec Script Action Ledger LedgerFacts HistoryFacts ActionFacts RollbackFacts.

(** Every history has an entry, and every identity with a tip has a
    history. *)
Definition tips_have_history
    (m : gmap Z Z * gmap Z CKeyID * gmap Z (gmap Z CKeyID)) : Prop :=
  (∀ k pl, m.2 !! k = Some pl → pl ≠ ∅)
  ∧ (∀ k, is_Some (m.1.2 !! k) → is_Some (m.2 !! k)).

Lemma wrap64_small z : - 2 ^ 63 ≤ z < 2 ^ 63 → wrap64 z = z.
Proof. intros Hz. unfold wrap64. rewrite Z.mod_small; lia. Qed.

Lemma UnserializeAction_throws vch e :
  UnserializeAction vch = Throws e → e = ios_failure.
Proof.
  unfold UnserializeAction.
  destruct (read 4 vch) as [[b s1]|]; [|congruence].
  destruct (to_int32 (le_value b) =? 1).
  - destruct (read_keyid s1) as [[from s2]|]; [|congruence].
    destruct (read_keyid s2) as [[to s3]|]; congruence.
  - destruct (to_int32 (le_value b) =? 2); [|congruence].
    destruct (read_keyid s1) as [[from s2]|]; congruence.
Qed.

Section WithEnv.
Context `{Env}.

Lemma DecodeAction_vout_throws vouts vchSig e :
  DecodeAction_vout vouts vchSig = Throws e → e = ios_failure.
Proof.
  induction vouts as [|o rest IH]; cbn [DecodeAction_vout]; [done|].
  destruct (negb (nValue o =? 0)); [done|].
  destruct (GetOp (scriptPubKey o)) as [[[opcodeRet d] pc]|]; [|done].
  destruct (negb (opcodeRet =? OP_RETURN)); [done|].
  destruct (UnserializeAction _) as [action|e'] eqn:Hun.
  - by destruct (_ <? 65)%nat.
  - intros [= <-]. by apply UnserializeAction_throws in Hun.
Qed.

Lemma DecodeAction_throws tx vchSig e :
  (DecodeAction tx vchSig).2 = Throws e → e = ios_failure.
Proof.
  unfold DecodeAction.
  destruct (negb (action_shape tx)); [done|].
  destruct (negb (FeePaid tx =? nActionFee)); [done|].
  apply DecodeAction_vout_throws.
Qed.

Lemma DecodeAction_not_nil_fee tx vchSig action vchSig' :
  (DecodeAction tx vchSig).2 = Returns (action, vchSig') →
  action ≠ CNilAction → FeePaid tx = nActionFee.
Proof.
  unfold DecodeAction.
  destruct (negb (action_shape tx)); [by intros [= <- _]|].
  destruct (Z.eqb_spec (FeePaid tx) nActionFee); [done|by intros [= <- _]].
Qed.

Lemma action_tx_has_input tx vchSig action vchSig' :
  0 < nActionFee →
  0 ≤ GetValueOut tx < 2 ^ 63 →
  (DecodeAction tx vchSig).2 = Returns (action, vchSig') →
  action ≠ CNilAction →
  vin tx ≠ [].
Proof.
  intros Hfee Hout Hdec Hnn Hvin.
  pose proof (DecodeAction_not_nil_fee _ _ _ _ Hdec Hnn) as Hpaid.
  unfold FeePaid, InputValue in Hpaid. rewrite Hvin in Hpaid. cbn [fold_left] in Hpaid.
  rewrite wrap64_small in Hpaid by lia. lia.
Qed.

Lemma ConnectBlock_vtx_outcome height txs relations poc21 v :
  0 < nActionFee →
  Forall (fun tx => 0 ≤ GetValueOut tx < 2 ^ 63) txs →
  (∃ r, (ConnectBlock_vtx height txs relations poc21 v).1 = Returns r)
  ∨ (ConnectBlock_vtx height txs relations poc21 v).1 = Throws ios_failure.
Proof.
  intros Hfee Hall. revert relations v.
  induction Hall as [|tx rest Htx _ IH]; intros relations v; cbn [ConnectBlock_vtx].
  { left. by eexists. }
  pose proof (DecodeAction_throws tx []) as Hthrow.
  pose proof (action_tx_has_input tx [] ) as Hin.
  destruct (DecodeAction tx []) as [lines [[action vchSig]|e]]; cbn [snd] in *.
  2:{ right. cbn [fst]. f_equal. by apply Hthrow. }
  case_bool_decide as Hnil; [apply IH|].
  specialize (Hin action vchSig Hfee Htx eq_refl Hnil).
  destruct (vin tx) as [|i ins]; [done|].
  destruct (VerifyAction (prevout i) action vchSig); [|apply IH].
  destruct (AcceptAction _ _ _ _ _ _) as [[ok rel] w]. apply IH.
Qed.

(** Property X23.  With a positive action fee and transactions whose total
    output value is in the range of money, [ConnectBlock] never reads
    [vin[0]] of a transaction without inputs: an action transaction pays the
    fee out of an input.  The only exception that leaves [ConnectBlock] is
    the end-of-data error of the action decoder. *)
Theorem ConnectBlock_reads_inputs_in_bounds (height : Z) (blk : CBlock) (poc21 : bool)
    (v : CRelationView) :
  0 < nActionFee →
  Forall (fun tx => 0 ≤ GetValueOut tx < 2 ^ 63) (vtx blk) →
  ((ConnectBlock height blk poc21 v).1 = Returns tt
   ∨ (ConnectBlock height blk poc21 v).1 = Throws ios_failure)
  ∧ ∀ tx action vchSig,
      tx ∈ vtx blk → (DecodeAction tx []).2 = Returns (action, vchSig) →
      action ≠ CNilAction → vin tx ≠ [].
Proof.
  intros Hfee Hall. split.
  - unfold ConnectBlock.
    destruct (ConnectBlock_vtx_outcome height (vtx blk) [] poc21 v Hfee Hall)
      as [[r Hr]|Ht];
      destruct (ConnectBlock_vtx height (vtx blk) [] poc21 v) as [[rel|e] v1];
      cbn [fst] in *; try discriminate.
    + left. destruct (0 <? length rel)%nat; [|done].
      by destruct (WriteRelationsToDisk height rel v1).
    + right. by injection Ht as ->.
  - intros tx action vchSig Hin Hdec Hnn.
    apply (action_tx_has_input tx [] action vchSig); try done.
    rewrite Forall_forall in Hall. apply Hall.
    first [done|by apply list_elem_of_In].
Qed.

Lemma accept_memory_keeps height action poc21 m :
  tips_have_history m → tips_have_history (accept_memory height action poc21 m).
Proof.
  intros [Hne Htip]. destruct action as [|from to|from]; [done| |]; split; simpl.
  - intros k pl. destruct (decide (k = from)) as [->|Hk].
    + rewrite lookup_insert_eq. intros [= <-]. apply insert_non_empty.
    + rewrite lookup_insert_ne by done. apply Hne.
  - intros k. destruct (decide (k = from)) as [->|Hk].
    + by rewrite !lookup_insert_eq.
    + rewrite !lookup_insert_ne by done. apply Htip.
  - intros k pl. destruct (decide (k = from)) as [->|Hk].
    + rewrite lookup_insert_eq. intros [= <-]. apply insert_non_empty.
    + rewrite lookup_insert_ne by done. apply Hne.
  - intros k. destruct (decide (k = from)) as [->|Hk].
    + rewrite lookup_delete_eq. by intros [? ?].
    + rewrite lookup_delete_ne, lookup_insert_ne by done. apply Htip.
Qed.

Lemma ConnectBlock_vtx_keeps height txs relations poc21 v :
  tips_have_history (memory v) →
  tips_have_history (memory (ConnectBlock_vtx height txs relations poc21 v).2).
Proof.
  revert relations v.
  induction txs as [|tx rest IH]; intros relations v Hv; cbn [ConnectBlock_vtx]; [done|].
  destruct (DecodeAction tx []) as [lines [[action vchSig]|e]]; [|done].
  destruct (bool_decide (action = CNilAction)); [by apply IH|].
  destruct (vin tx) as [|i ?]; [done|].
  destruct (VerifyAction (prevout i) action vchSig); [|by apply IH].
  match goal with |- context [AcceptAction ?h ?t ?a ?r ?p ?w] =>
    pose proof (AcceptAction_memory h t a r p w) as Hm1;
    destruct (AcceptAction h t a r p w) as [[ok1 rel1] v1] end.
  cbn [snd] in Hm1. apply IH.
  destruct ok1; rewrite ?memory_log, Hm1; by apply accept_memory_keeps.
Qed.

Lemma ConnectBlock_keeps height blk poc21 v :
  tips_have_history (memory v) →
  tips_have_history (memory (ConnectBlock height blk poc21 v).2).
Proof.
  intros Hv. unfold ConnectBlock.
  pose proof (ConnectBlock_vtx_keeps height (vtx blk) [] poc21 v Hv) as Hk.
  destruct (ConnectBlock_vtx height (vtx blk) [] poc21 v) as [[rel|e] v1];
    cbn [snd] in *; [|done].
  destruct (0 <? length rel)%nat; [|done].
  pose proof (memory_WriteRelationsToDisk height rel v1) as Hw.
  destruct (WriteRelationsToDisk height rel v1) as [[] w]; cbn [snd] in *;
    rewrite ?memory_log, Hw; done.
Qed.

Lemma DisconnectBlock_keeps height blk poc21 v w :
  DisconnectBlock height blk poc21 v = Some w →
  tips_have_history (memory v) →
  tips_have_history (memory w).
Proof.
  intros Hrun [Hne Htip]. split; unfold memory in *; cbn [fst snd] in *.
  - intros k pl.
    destruct (DisconnectBlock_lookup height blk poc21 v w k Hrun) as [-> _].
    destruct (relationsHistoryMap v !! k) as [pl0|] eqn:Hk; [|done]. simpl.
    unfold history_after. destruct (pl0 !! height).
    + case_decide; [done|]. by intros [= <-].
    + intros [= <-]. by apply (Hne k).
  - intros k.
    destruct (DisconnectBlock_lookup height blk poc21 v w k Hrun) as [-> ->].
    specialize (Htip k).
    destruct (relationsHistoryMap v !! k) as [pl0|] eqn:Hk; simpl.
    + unfold tip_after, history_after. destruct (pl0 !! height); [|by eauto].
      case_decide as Hkept; [|by eauto].
      rewrite prevRelation_empty by done. by intros [? ?].
    + intros Hsome. by destruct (Htip Hsome).
Qed.

Lemma LoadRelationFromDisk_keeps height poc21 v :
  tips_have_history (memory v) →
  tips_have_history (memory (LoadRelationFromDisk height poc21 v).2).
Proof.
  intros Hv. unfold LoadRelationFromDisk.
  destruct (db_active_action v !! height) as [relations|]; [|by case_decide]. cbn [snd].
  rewrite Load_memory. revert Hv. generalize (memory v).
  induction relations as [|r rs IH]; intros m Hm; cbn [fold_left]; [done|].
  apply IH. by apply accept_memory_keeps.
Qed.

(** Property X24.  Two facts about the in-memory maps hold on the empty
    ledger and are kept by [ConnectBlock] (whether it returns or throws),
    by [DisconnectBlock] when it returns and by [LoadRelationFromDisk]: no
    history is empty, and every identity that has a tip has a history. *)
Theorem tips_have_history_kept (height : Z) (blk : CBlock) (poc21 : bool)
    (v : CRelationView) :
  tips_have_history (memory v) →
  tips_have_history (memory (ConnectBlock height blk poc21 v).2)
  ∧ (∀ w, DisconnectBlock height blk poc21 v = Some w → tips_have_history (memory w))
  ∧ tips_have_history (memory (LoadRelationFromDisk height poc21 v).2)
  ∧ tips_have_history (memory empty_view).
Proof.
  intros Hv. split; [by apply ConnectBlock_keeps|].
  split; [intros w Hrun; by apply (DisconnectBlock_keeps height blk poc21 v w)|].
  split; [by apply LoadRelationFromDisk_keeps|].
  split.
  - intros k pl Hk. cbn in Hk. by rewrite lookup_empty in Hk.
  - intros k [x Hx]. cbn in Hx. by rewrite lookup_empty in Hx.
Qed.

End WithEnv.
End InvariantProps.

(** ** The further properties on concrete transactions and blocks *)

Module MoreRuns.
Import Bytes Codec Script Ticket Action Ledger ActionFacts LedgerFacts.
Import HistoryFacts RollbackFacts Toy.
Import CodecProps ExtractionProps LedgerProps BlockProps RollbackProps StoreProps.
Import AcceptanceProps Wire WireProps TicketProps OrderProps InvariantProps.
#[local] Existing Instance toy_env.

(** The outpoint the transaction [action_tx 1 ..] spends. *)
Definition out1 : COutPoint := {| hash := 1001; n := 0 |}.

(** The payload of [action_tx 1 A (CBindAction A B) ..], carried by a
    transaction that spends another outpoint. *)
Definition replayed_tx : CTransaction :=
  {| vin := [ {| prevout := {| hash := 2001; n := 0 |} |} ];
     vout := vout (action_tx 1 A (CBindAction A B) 400000000);
     tx_hash := 11 |}.

(** A coinbase. *)
Definition coinbase_tx : CTransaction :=
  {| vin := [ {| prevout := {| hash := 0; n := NULL_INDEX |} |} ];
     vout := [ {| nValue := 5000000000; scriptPubKey := [] |} ];
     tx_hash := 12 |}.

(** A block in which A binds to B and then to C. *)
Definition block_twice : CBlock :=
  {| vtx := [action_tx 1 A (CBindAction A B) 400000000;
             action_tx 2 A (CBindAction A C) 400000000];
     block_hash := 100 |}.

(** The ledger after block 100, in the mode without plot ids. *)
Definition after100 : CRelationView := (ConnectBlock 100 block100 true empty_view).2.

Lemma after100_history : relationsHistoryMap after100 = {[ A := {[ 100 := B ]} ]}.
Proof. vm_compute. reflexivity. Qed.

(** The ledger after blocks 100, 101 and 102, rolled back by the disconnect
    of block 102. *)
Definition rolled_back (poc21 : bool) : CRelationView :=
  default empty_view (DisconnectBlock 102 block102 poc21 (after102 poc21)).

Lemma rolled_back_run poc21 :
  DisconnectBlock 102 block102 poc21 (after102 poc21) = Some (rolled_back poc21).
Proof. destruct poc21; vm_compute; reflexivity. Qed.

Lemma after102_tips_have_history poc21 : tips_have_history (memory (after102 poc21)).
Proof.
  unfold after102, after101. do 3 apply ConnectBlock_keeps.
  split.
  - intros k pl Hk. cbn in Hk. by rewrite lookup_empty in Hk.
  - intros k [x Hx]. cbn in Hx. by rewrite lookup_empty in Hx.
Qed.

Lemma wf_bind_A_B : wf_action (CBindAction A B).
Proof. unfold wf_action, wf_keyid, A, B. lia. Qed.

Lemma carries_action_tx txid key action change :
  carries (vout (action_tx txid key action change))
    (SignAction {| hash := txid + 1000; n := 0 |} action key).2.
Proof.
  exists {| nValue := 0;
            scriptPubKey :=
              carrier_script (SignAction {| hash := txid + 1000; n := 0 |} action key).2 |}.
  split; [|reflexivity].
  exists {| nValue := 0;
            scriptPubKey :=
              carrier_script (SignAction {| hash := txid + 1000; n := 0 |} action key).2 |},
         {| nValue := change; scriptPubKey := [] |}.
  split; [reflexivity|]. left. by split.
Qed.

Lemma UnserializeAction_ignores_appendix_witness :
  UnserializeAction (SerializeAction (CBindAction A B) ++ [1; 2; 3])
  = Returns (CBindAction A B).
Proof.
  apply (UnserializeAction_ignores_appendix (H:=toy_env) (CBindAction A B)).
  exact wf_bind_A_B.
Defined.

Lemma UnserializeAction_canonical_witness :
  wf_action (CUnbindAction A).
Proof.
  apply (UnserializeAction_canonical ([2; 0; 0; 0] ++ le_bytes 20 A ++ [9])
           (CUnbindAction A)).
  - apply Forall_app. split; [repeat (constructor; [unfold is_byte; lia|]); constructor|].
    apply Forall_app. split; [apply le_bytes_is_byte|].
    repeat (constructor; [unfold is_byte; lia|]); constructor.
  - reflexivity.
Defined.

Lemma DecodeAction_only_from_carrier_witness :
  FeePaid (action_tx 1 A (CBindAction A B) 400000000) = nActionFee.
Proof.
  apply (DecodeAction_only_from_carrier (H:=toy_env)
           (action_tx 1 A (CBindAction A B) 400000000) [] (CBindAction A B)
           (signature_of (SignAction out1 (CBindAction A B) A).2)).
  - vm_compute. reflexivity.
  - discriminate.
Defined.

Lemma ConnectBlock_throw_keeps_earlier_witness :
  relationKeyIDTip
    (ConnectBlock 100
       {| vtx := [action_tx 1 A (CBindAction A B) 400000000] ++ [payload_tx 5 []];
          block_hash := 100 |} true empty_view).2 !! A = Some B
  ∧ (ConnectBlock 100
       {| vtx := [action_tx 1 A (CBindAction A B) 400000000] ++ [payload_tx 5 []];
          block_hash := 100 |} true empty_view).1 = Throws ios_failure.
Proof.
  destruct (ConnectBlock_throw_keeps_earlier (H:=toy_env) 100
              [action_tx 1 A (CBindAction A B) 400000000] [] (payload_tx 5 []) 100
              true empty_view [(1, CBindAction A B)] ios_failure)
    as (Hthrow & Hm & _).
  - vm_compute. reflexivity.
  - vm_compute. reflexivity.
  - split; [|exact Hthrow].
    change (relationKeyIDTip ?w) with (memory w).1.2. rewrite Hm.
    vm_compute. reflexivity.
Defined.

Lemma ConnectBlock_sound_store_witness :
  db_active_action (ConnectBlock 100 block100 false empty_view).2
  = <[100 := [(1, (A, B))]]> ∅.
Proof.
  apply (ConnectBlock_sound_store (H:=toy_env) 100 block100 false empty_view
           [(1, CBindAction A B)]).
  - vm_compute. reflexivity.
  - reflexivity.
Defined.

Lemma ConnectBlock_without_candidates_witness :
  ConnectBlock 100 {| vtx := [coinbase_tx]; block_hash := 100 |} true after100
  = (Returns tt, after100).
Proof.
  apply (ConnectBlock_without_candidates (H:=toy_env)).
  constructor; [reflexivity|constructor].
Defined.

Lemma DisconnectBlock_trims_histories_witness :
  ∃ pl, relationsHistoryMap (rolled_back false) !! A = Some pl
        ∧ pl ≠ ∅
        ∧ ∀ h y, pl !! h = Some y
                 ↔ ({[ 100 := B; 101 := CKeyID_null; 102 := C ]} : gmap Z CKeyID) !! h
                   = Some y ∧ h < 102.
Proof.
  destruct (DisconnectBlock_trims_histories (H:=toy_env) 102 block102 false
              (after102 false) (rolled_back false) A (rolled_back_run false))
    as (_ & Hkeeps & _).
  apply (Hkeeps _ C); vm_compute; reflexivity.
Defined.

Lemma DisconnectBlock_twice_witness :
  ∃ w', DisconnectBlock 102 block100 false (rolled_back false) = Some w'
        ∧ memory w' = memory (rolled_back false).
Proof.
  apply (DisconnectBlock_twice (H:=toy_env) 102 block102 block100 false
           (after102 false) (rolled_back false)).
  exact (rolled_back_run false).
Defined.

Lemma DisconnectBlock_ignores_erase_result_witness :
  ∃ w', DisconnectBlock 102 block102 true
          (set_db_faults (fun _ => [true]) (after102 true)) = Some w'
        ∧ memory w' = memory (rolled_back true).
Proof.
  apply (DisconnectBlock_ignores_erase_result (H:=toy_env) 102 block102 true
           (after102 true) (rolled_back true) [true]).
  exact (rolled_back_run true).
Defined.

Lemma connect_then_disconnect_restores_witness :
  ∃ w,
    DisconnectBlock 102 block102 true (ConnectBlock 102 block102 true after100).2
    = Some w
    ∧ memory w = memory after100.
Proof.
  apply (connect_then_disconnect_restores (H:=toy_env) 102 block102 block102 after100
           [(3, CBindAction A C)]).
  - vm_compute. reflexivity.
  - intros k pl h x. rewrite after100_history.
    intros [<- <-]%lookup_singleton_Some Hx.
    apply lookup_singleton_Some in Hx as [<- _]. done.
  - intros k pl. rewrite after100_history.
    intros [<- <-]%lookup_singleton_Some. apply insert_non_empty.
  - intros k Hk. apply Exists_cons in Hk as [Hk|Hk]; [|by apply Exists_nil in Hk].
    injection Hk as <-. exists {[ 100 := B ]}, (100, B).
    split; [by rewrite after100_history, lookup_singleton_eq|].
    split; [|vm_compute; reflexivity].
    split; [vm_compute; reflexivity|].
    intros h x Hx. apply lookup_singleton_Some in Hx as [<- _]. done.
Defined.

(** The ledger at start-up: nothing in memory, and the store as
    [ConnectBlock] of block 100 left it. *)
Definition restarted100 : CRelationView :=
  set_db_active_action
    (fun _ => db_active_action (ConnectBlock 100 block100 true empty_view).2)
    empty_view.

Lemma LoadRelationFromDisk_after_ConnectBlock_witness :
  memory (LoadRelationFromDisk 100 true restarted100).2
  = memory (ConnectBlock 100 block100 true empty_view).2.
Proof.
  destruct (LoadRelationFromDisk_after_ConnectBlock (H:=toy_env) 100 block100 true
              empty_view [(1, CBindAction A B)]) with (w := restarted100)
    as [_ Hm].
  - vm_compute. reflexivity.
  - constructor; [|constructor]. intros [from Heq]. discriminate.
  - vm_compute. reflexivity.
  - vm_compute. reflexivity.
  - vm_compute. reflexivity.
  - apply Hm. vm_compute. reflexivity.
Defined.

Lemma signed_action_is_accepted_witness :
  VerifyAction out1 (CBindAction A B)
    (signature_of (SignAction out1 (CBindAction A B) A).2) = true.
Proof.
  apply (signed_action_is_accepted (H:=toy_env)
           (action_tx 1 A (CBindAction A B) 400000000) out1 [] (CBindAction A B) A
           (SignAction out1 (CBindAction A B) A).2
           toy_sign_size toy_recover_signed wf_bind_A_B).
  - vm_compute. reflexivity.
  - reflexivity.
  - reflexivity.
  - vm_compute. reflexivity.
  - vm_compute. reflexivity.
  - apply (carries_action_tx 1 A (CBindAction A B) 400000000).
Defined.

Lemma signed_action_is_bound_to_outpoint_witness :
  accepted_actions [replayed_tx] = Returns [].
Proof.
  apply (signed_action_is_bound_to_outpoint (H:=toy_env) replayed_tx out1
           {| hash := 2001; n := 0 |} [] (CBindAction A B) A
           (SignAction out1 (CBindAction A B) A).2
           toy_sign_size toy_recover_other_digest toy_hash_inj wf_bind_A_B).
  - reflexivity.
  - reflexivity.
  - discriminate.
  - vm_compute. reflexivity.
  - vm_compute. reflexivity.
  - apply (carries_action_tx 1 A (CBindAction A B) 400000000).
Defined.

Lemma codec_exception_escapes_witness :
  DecodeAction (payload_tx 5 [1; 0; 0; 0]) [] = ([], Throws ios_failure).
Proof.
  apply (codec_exception_escapes (H:=toy_env) (payload_tx 5 [1; 0; 0; 0]) [1; 0; 0; 0]
           ios_failure []).
  - vm_compute. reflexivity.
  - vm_compute. reflexivity.
  - exists {| nValue := 0; scriptPubKey := carrier_script [1; 0; 0; 0] |}.
    split; [|reflexivity].
    exists {| nValue := 0; scriptPubKey := carrier_script [1; 0; 0; 0] |},
           {| nValue := 400000000; scriptPubKey := [] |}.
    split; [reflexivity|]. left. by split.
  - reflexivity.
Defined.

Lemma ticket_read_stops_at_key_witness :
  GetPublicKeyFromScript (ticket_prefix (toy_pubkey 7) 500 ++ [1; 2; 3]) []
  = Returns (true, toy_pubkey 7).
Proof.
  apply ticket_read_stops_at_key; [|lia].
  split; [reflexivity|]. split.
  - unfold toy_pubkey. constructor; [unfold is_byte; lia|]. apply le_bytes_is_byte.
  - eexists _, _. split; [reflexivity|by left].
Defined.

Lemma outpoint_wire_roundtrip_witness :
  prevout_from_read {| hash := 5; n := 2147483651 |}
  = (true, {| hash := 5; n := 3 |}).
Proof.
  apply (outpoint_wire_roundtrip {| hash := 5; n := 3 |} false).
  simpl. lia.
Defined.

Lemma ConnectBlock_last_action_decides_witness :
  relationKeyIDTip (ConnectBlock 100 block_twice true empty_view).2 !! A = Some C.
Proof.
  apply (ConnectBlock_last_action_decides (H:=toy_env) 100 block_twice true empty_view
           [(1, CBindAction A B); (2, CBindAction A C)] A).
  vm_compute. reflexivity.
Defined.

Lemma ConnectBlock_reads_inputs_in_bounds_witness :
  (ConnectBlock 100 block100 true empty_view).1 = Returns tt
  ∨ (ConnectBlock 100 block100 true empty_view).1 = Throws ios_failure.
Proof.
  apply (ConnectBlock_reads_inputs_in_bounds (H:=toy_env) 100 block100 true empty_view).
  - reflexivity.
  - constructor; [|constructor]. change (0 ≤ 400000000 < 2 ^ 63). lia.
Defined.

Lemma tips_have_history_kept_witness :
  tips_have_history (memory (rolled_back true)).
Proof.
  destruct (tips_have_history_kept (H:=toy_env) 102 block102 true (after102 true)
              (after102_tips_have_history true)) as (_ & Hd & _).
  apply Hd. exact (rolled_back_run true).
Defined.

End MoreRuns.
